(** * react-pubsub-component: the deferred-binding publish/subscribe core

    A shallow embedding of [src/PSComponent.tsx], [src/PubSubProxy.ts] and
    [GlobalPubSub.ts], with the Proxy traps built by [proxyGetter] and
    [proxySetter] of [ReactPubSubComponent.ts].

    - JavaScript objects live in a store and are named by their address, so
      that two references to one object see each other's writes.
    - A [Map] and a [Set] iterate in insertion order, hence both are lists.
    - A function object (a subscriber callback) is known by its identity
      alone; calling it is an event of the log and has no other effect on
      the store.
    - A promise is fulfilled at most once.  The continuation of the one
      [await] of the library, in the relay arrow of the two finalize
      methods, runs as soon as the awaited promise is fulfilled.  The
      promise an [async] function returns and the promise its body returns
      are one promise.
    - The operations take string keys, as every trap does once
      [proxyGetter] or [proxySetter] has let the key through; the traps
      with their [String access required] branch are [proxyGetter],
      [proxySetter] and the Proxies built from them.
    - The target object of a registry is a map from names to handles,
      with the two names a plain object treats differently written out:
      [hasOwnProperty], which as a slot shadows the method the traps call,
      and [__proto__], which is an accessor and never a slot.  The
      prototype an assignment under [__proto__] installs is not recorded.
      Every handle is an object that inherits from [Object.prototype], so
      the traps still find [hasOwnProperty] through it; and the objects of
      the library have no accessor and no read-only property that an
      assignment of a name that is not a slot could meet on the way, so
      the assignment still makes the slot.  Those of [React.Component] are
      outside the embedding.
    - React itself (rendering, props plumbing, when a lifecycle hook is
      called) is outside the embedding; the three hooks of
      [PSLifecycleComponent] are embedded as the calls they make. *)

From stdpp Require Import base strings list gmap.

Local Set Warnings "-clear-no-such-hyp".

(** ** Values *)

(** One argument of a trigger: opaque to the library. *)
Inductive Value :=
| VUndef
| VNum (z : Z)
| VText (s : string).

(** [...args] of [trigger]. *)
Definition Args := list Value.

(** Identity of a callback function object. *)
Definition Callback := nat.

(** What [throw] raises: [new Error(msg)], [new TypeError(msg)]. *)
Inductive Exn :=
| Error (msg : string)
| TypeError (msg : string).

Definition AlreadyFinalized : Exn := Error "Already finalized.".
Definition IdCannotBeString : Exn := TypeError "ID cannot be a string.".
Definition IdMustBeString : Exn := TypeError "ID must be a string.".
(** Raised by the engine, not by the library's own [throw]. *)
Definition NotAFunction : Exn :=
  TypeError "target[property].finalizeTriggers is not a function".
Definition CannotSetProperty : Exn :=
  TypeError "Cannot set properties of a value that is not an object".
Definition HasOwnPropertyNotAFunction : Exn :=
  TypeError "target.hasOwnProperty is not a function".

(** State of a promise. *)
Inductive PState :=
| Pending
| Fulfilled (a : Args)
| Rejected (e : Exn).

(** The [resolve] function of a promise, as stored in a [promises] set.
    [Direct p] is the resolve function of promise [p] that an outside
    consumer awaits.  [Relay p k] is the resolve function of a promise [p]
    on which the arrow [async (resolve) => { resolve(await target.async[key]) }]
    of a finalize is suspended, [k] being the [resolve] that arrow holds:
    once [p] is fulfilled the arrow resumes and calls [k] with the same
    value. *)
Inductive Resolver :=
| Direct (p : nat)
| Relay (p : nat) (k : Resolver).

(** Who awaits the promise returned by an [async.<key>] read. *)
Inductive Waiting :=
| Consumer
| Forward (k : Resolver).

Definition resolver_of (p : nat) (w : Waiting) : Resolver :=
  match w with
  | Consumer => Direct p
  | Forward k => Relay p k
  end.

(** Promise whose resolve function this is. *)
Definition head (r : Resolver) : nat :=
  match r with
  | Direct p => p
  | Relay p _ => p
  end.

(** Every promise a call of the resolver can fulfil. *)
Fixpoint chain (r : Resolver) : list nat :=
  match r with
  | Direct p => [p]
  | Relay p k => p :: chain k
  end.

(** What a registry slot can hold, and what can be written into one:
    a [PubSubProxy] instance, the [pubsubObject] of a component, or the
    component instance itself ([globalProvider.x = this]). *)
Inductive Handle :=
| HProxy (i : nat)
| HObject (c : nat)
| HComponent (c : nat).

(** Observable events. [EvResolve p a]: a trigger called the resolve
    function of promise [p] with [a].  [EvCall cb a]: a trigger called
    [cb(...a)]. *)
Inductive Event :=
| EvResolve (p : nat) (a : Args)
| EvCall (cb : Callback) (a : Args).

Global Instance Value_eq_dec : EqDecision Value.
Proof. solve_decision. Defined.
Global Instance Exn_eq_dec : EqDecision Exn.
Proof. solve_decision. Defined.
Global Instance PState_eq_dec : EqDecision PState.
Proof. solve_decision. Defined.
Global Instance Resolver_eq_dec : EqDecision Resolver.
Proof.
  intros x. induction x as [p|p k IH]; intros [q|q k'];
    try (right; congruence).
  - destruct (decide (p = q)); [left|right]; congruence.
  - destruct (decide (p = q)); [|right; congruence].
    destruct (IH k'); [left|right]; congruence.
Defined.
Global Instance Handle_eq_dec : EqDecision Handle.
Proof. solve_decision. Defined.
Global Instance Event_eq_dec : EqDecision Event.
Proof. solve_decision. Defined.

(** ** JavaScript [Set] and [Map], in insertion order *)

Section JsCollections.
Context {X : Type} `{EqDecision X}.

(** [set.add(x)]: no effect when [x] is a member, else appended. *)
Definition jset_add (x : X) (l : list X) : list X :=
  if decide (x ∈ l) then l else l ++ [x].

(** [set.delete(x)]. *)
Definition jset_delete (x : X) (l : list X) : list X :=
  filter (λ y, y ≠ x) l.

(** [map.get(key)]; [None] is [undefined]. *)
Fixpoint jmap_get (key : string) (m : list (string * list X)) : option (list X) :=
  match m with
  | [] => None
  | (k, v) :: m' => if decide (key = k) then Some v else jmap_get key m'
  end.

(** [map.set(key, v)]: an existing key keeps its place. *)
Fixpoint jmap_set (key : string) (v : list X) (m : list (string * list X))
  : list (string * list X) :=
  match m with
  | [] => [(key, v)]
  | (k, v') :: m' =>
      if decide (key = k) then (k, v) :: m' else (k, v') :: jmap_set key v m'
  end.

(** [map.delete(key)]. *)
Definition jmap_delete (key : string) (m : list (string * list X))
  : list (string * list X) :=
  filter (λ e, e.1 ≠ key) m.

(** A method call [set.add(x)] or [set.delete(x)] on the set that
    [map.get(key)] returned: the set is shared with the map. *)
Definition jmap_mutate (key : string) (f : list X → list X)
    (m : list (string * list X)) : list (string * list X) :=
  match jmap_get key m with
  | Some set => jmap_set key (f set) m
  | None => m
  end.

(** The members registered under [key]; none when the key is absent. *)
Definition members (key : string) (m : list (string * list X)) : list X :=
  default [] (jmap_get key m).
End JsCollections.

Definition JsMap (X : Type) := list (string * list X).

(** ** Objects and the store *)

(** Fields of a [PSComponent] instance; [ps] is the target object behind
    the [ps] Proxy. *)
Record PSComponent := mkPSComponent {
  promises : JsMap Resolver;
  subscriptions : JsMap Callback;
  finalized : bool;
  ps : gmap string Handle
}.

(** Fields of a [PubSubProxy] instance. *)
Record PubSubProxy := mkPubSubProxy {
  px_promises : JsMap Resolver;
  px_subscriptions : JsMap Callback
}.

Record Store := mkStore {
  comps : gmap nat PSComponent;
  proxies : gmap nat PubSubProxy;
  (** target objects behind the Proxies made by [GlobalPubSub()] *)
  globals : gmap nat (gmap string Handle);
  heap : gmap nat PState;
  log : list Event
}.

Definition empty_store : Store := mkStore ∅ ∅ ∅ ∅ [].

Definition with_comps (f : gmap nat PSComponent → gmap nat PSComponent) (s : Store) :=
  mkStore (f (comps s)) (proxies s) (globals s) (heap s) (log s).
Definition with_proxies (f : gmap nat PubSubProxy → gmap nat PubSubProxy) (s : Store) :=
  mkStore (comps s) (f (proxies s)) (globals s) (heap s) (log s).
Definition with_globals
    (f : gmap nat (gmap string Handle) → gmap nat (gmap string Handle)) (s : Store) :=
  mkStore (comps s) (proxies s) (f (globals s)) (heap s) (log s).
Definition with_heap (f : gmap nat PState → gmap nat PState) (s : Store) :=
  mkStore (comps s) (proxies s) (globals s) (f (heap s)) (log s).
Definition with_log (f : list Event → list Event) (s : Store) :=
  mkStore (comps s) (proxies s) (globals s) (heap s) (f (log s)).

(** A reference to one of the two [Map] fields of an object of class [O]. *)
Record Field (O X : Type) := mkField {
  fget : O → JsMap X;
  fset : JsMap X → O → O
}.
Arguments fget {O X} _ _.
Arguments fset {O X} _ _ _.

Definition this_promises : Field PSComponent Resolver :=
  mkField _ _ promises
    (λ m cm, mkPSComponent m (subscriptions cm) (finalized cm) (ps cm)).
Definition this_subscriptions : Field PSComponent Callback :=
  mkField _ _ subscriptions
    (λ m cm, mkPSComponent (promises cm) m (finalized cm) (ps cm)).
Definition proxy_promises : Field PubSubProxy Resolver :=
  mkField _ _ px_promises (λ m px, mkPubSubProxy m (px_subscriptions px)).
Definition proxy_subscriptions : Field PubSubProxy Callback :=
  mkField _ _ px_subscriptions (λ m px, mkPubSubProxy (px_promises px) m).

Definition set_finalized (b : bool) (cm : PSComponent) : PSComponent :=
  mkPSComponent (promises cm) (subscriptions cm) b (ps cm).
Definition set_ps (t : gmap string Handle) (cm : PSComponent) : PSComponent :=
  mkPSComponent (promises cm) (subscriptions cm) (finalized cm) t.

(** ** Computations: store passing with exceptions *)

(** How a call ends.  [Diverge]: it never returns.  [Stuck]: it was handed
    an address at which the store has no object, which no JavaScript
    program can produce. *)
Inductive Res (A : Type) :=
| Ok (a : A)
| Throw (e : Exn)
| Diverge
| Stuck.
Arguments Ok {A} a.
Arguments Throw {A} e.
Arguments Diverge {A}.
Arguments Stuck {A}.

Definition M (A : Type) : Type := Store → Res A * Store.

Definition ret {A} (a : A) : M A := λ s, (Ok a, s).

Definition bind {A B} (m : M A) (f : A → M B) : M B :=
  λ s, match m s with
       | (Ok a, s') => f a s'
       | (Throw e, s') => (Throw e, s')
       | (Diverge, s') => (Diverge, s')
       | (Stuck, s') => (Stuck, s')
       end.

Notation "'let!' x ':=' m 'in' k" := (bind m (λ x, k))
  (at level 10, x pattern, m at level 100, k at level 200,
   format "'[v' 'let!'  x  ':='  m  'in' '/' k ']'").
Notation "'do!' m 'in' k" := (bind m (λ _, k))
  (at level 10, m at level 100, k at level 200,
   format "'[v' 'do!'  m  'in' '/' k ']'").

Definition throw {A} (e : Exn) : M A := λ s, (Throw e, s).
Definition diverge {A} : M A := λ s, (Diverge, s).
Definition stuck {A} : M A := λ s, (Stuck, s).
Definition modify (f : Store → Store) : M unit := λ s, (Ok tt, f s).

(** [try { m } catch (e) { h e }], for the code that swallows an exception. *)
Definition catch {A} (m : M A) (h : Exn → M A) : M A :=
  λ s, match m s with
       | (Throw e, s') => h e s'
       | r => r
       end.

(** [list.forEach(f)] over the members present when the loop starts. *)
Fixpoint forEach {X} (l : list X) (f : X → M unit) : M unit :=
  match l with
  | [] => ret tt
  | x :: l' => do! f x in forEach l' f
  end.

Definition get_comp (c : nat) : M PSComponent :=
  λ s, match comps s !! c with
       | Some cm => (Ok cm, s)
       | None => (Stuck, s)
       end.
(** A write to fields of the component at address [c]. *)
Definition update_comp (c : nat) (f : PSComponent → PSComponent) : M unit :=
  λ s, match comps s !! c with
       | Some cm => (Ok tt, with_comps <[c := f cm]> s)
       | None => (Stuck, s)
       end.
Definition get_proxy (i : nat) : M PubSubProxy :=
  λ s, match proxies s !! i with
       | Some px => (Ok px, s)
       | None => (Stuck, s)
       end.
Definition update_proxy (i : nat) (f : PubSubProxy → PubSubProxy) : M unit :=
  λ s, match proxies s !! i with
       | Some px => (Ok tt, with_proxies <[i := f px]> s)
       | None => (Stuck, s)
       end.
Definition get_global (g : nat) : M (gmap string Handle) :=
  λ s, match globals s !! g with
       | Some t => (Ok t, s)
       | None => (Stuck, s)
       end.
Definition update_global (g : nat) (f : gmap string Handle → gmap string Handle)
    : M unit :=
  λ s, match globals s !! g with
       | Some t => (Ok tt, with_globals <[g := f t]> s)
       | None => (Stuck, s)
       end.

(** [new Promise(...)]: a fresh pending promise. *)
Definition new_promise : M nat :=
  λ s, let p := fresh (dom (heap s)) in (Ok p, with_heap <[p := Pending]> s).
(** Rejecting a promise that is still pending. *)
Definition reject (p : nat) (e : Exn) : M unit :=
  modify (with_heap (λ h, match h !! p with
                          | Some Pending => <[p := Rejected e]> h
                          | _ => h
                          end)).
(** Fulfilling promise [p], unless it is settled already. *)
Definition fulfil (p : nat) (a : Args) (h : gmap nat PState) : gmap nat PState :=
  match h !! p with
  | Some Pending => <[p := Fulfilled a]> h
  | _ => h
  end.
(** The effect on the promises of calling a resolve function with [a]:
    the suspended relay of a [Relay] resumes only when this call is the one
    that fulfils its promise. *)
Fixpoint settle (r : Resolver) (a : Args) (h : gmap nat PState) : gmap nat PState :=
  match r with
  | Direct p => fulfil p a h
  | Relay p k =>
      match h !! p with
      | Some Pending => settle k a (<[p := Fulfilled a]> h)
      | _ => h
      end
  end.
Definition emit (e : Event) : M unit := modify (with_log (λ l, l ++ [e])).

(** ** [PSComponent]: the Trigger Registry of a publisher *)

(** [getTriggerSet(map, key)]: the set registered under [key] in the given
    map of component [c], created empty when the key is new. *)
Definition PSComponent_getTriggerSet {X} (map : Field PSComponent X)
    (c : nat) (key : string) : M (list X) :=
  let! cm := get_comp c in
  if finalized cm then throw AlreadyFinalized
  else match jmap_get key (fget map cm) with
       | Some set => ret set
       | None =>
           do! update_comp c (λ cm, fset map (jmap_set key [] (fget map cm)) cm) in
           ret []
       end.

(** [getTriggerSet(map, key).add(x)] and [.delete(x)], after the lookup. *)
Definition PSComponent_mutateSet {X} (map : Field PSComponent X)
    (c : nat) (key : string) (f : list X → list X) : M unit :=
  update_comp c (λ cm, fset map (jmap_mutate key f (fget map cm)) cm).

(** [triggerPromise(key)], the [async.<key>] getter.  The executor of
    [new Promise] runs at once; an exception it throws rejects the promise
    instead of reaching the caller, and the function being [async] its
    caller only ever sees the promise. *)
Definition PSComponent_triggerPromise (c : nat) (key : string) (w : Waiting) : M nat :=
  let! p := new_promise in
  do! catch
        (let! _ := PSComponent_getTriggerSet this_promises c key in
         PSComponent_mutateSet this_promises c key (jset_add (resolver_of p w)))
        (λ e, reject p e) in
  ret p.

(** [triggerSubscribe(key, callback)], the [sub.<key>] function. *)
Definition PSComponent_triggerSubscribe (c : nat) (key : string) (callback : Callback)
    : M unit :=
  let! _ := PSComponent_getTriggerSet this_subscriptions c key in
  PSComponent_mutateSet this_subscriptions c key (jset_add callback).

(** [triggerUnsubscribe(key, callback)], the [unsub.<key>] function. *)
Definition PSComponent_triggerUnsubscribe (c : nat) (key : string) (callback : Callback)
    : M unit :=
  let! _ := PSComponent_getTriggerSet this_subscriptions c key in
  do! PSComponent_mutateSet this_subscriptions c key (jset_delete callback) in
  let! cm := get_comp c in
  if decide (length (members key (subscriptions cm)) = 0)
  then update_comp c
         (λ cm, fset this_subscriptions (jmap_delete key (subscriptions cm)) cm)
  else ret tt.

(** [resolve(args)] as called by [trigger]. *)
Definition call_resolve (args : Args) (resolve : Resolver) : M unit :=
  do! emit (EvResolve (head resolve) args) in
  modify (with_heap (settle resolve args)).

(** [callback(...args)]; [args], a rest parameter, is never [undefined]. *)
Definition call_callback (args : Args) (callback : Callback) : M unit :=
  emit (EvCall callback args).

(** [trigger(key, ...args)], behind [this.pub.<key>(...args)]. *)
Definition PSComponent_trigger (c : nat) (key : string) (args : Args) : M unit :=
  let! waiters := PSComponent_getTriggerSet this_promises c key in
  do! forEach waiters (call_resolve args) in
  do! update_comp c (λ cm, fset this_promises (jmap_delete key (promises cm)) cm) in
  let! callbacks := PSComponent_getTriggerSet this_subscriptions c key in
  forEach callbacks (call_callback args).

(** ** [PubSubProxy]: the placeholder *)

(** [getTriggerSet(map, key)] of the placeholder: no sealed state. *)
Definition PubSubProxy_getTriggerSet {X} (map : Field PubSubProxy X)
    (i : nat) (key : string) : M (list X) :=
  let! px := get_proxy i in
  match jmap_get key (fget map px) with
  | Some set => ret set
  | None =>
      do! update_proxy i (λ px, fset map (jmap_set key [] (fget map px)) px) in
      ret []
  end.

Definition PubSubProxy_mutateSet {X} (map : Field PubSubProxy X)
    (i : nat) (key : string) (f : list X → list X) : M unit :=
  update_proxy i (λ px, fset map (jmap_mutate key f (fget map px)) px).

(** The [async.<key>] getter built in the constructor. *)
Definition PubSubProxy_async (i : nat) (key : string) (w : Waiting) : M nat :=
  let! p := new_promise in
  do! catch
        (let! _ := PubSubProxy_getTriggerSet proxy_promises i key in
         PubSubProxy_mutateSet proxy_promises i key (jset_add (resolver_of p w)))
        (λ e, reject p e) in
  ret p.

Definition PubSubProxy_triggerSubscribe (i : nat) (key : string) (callback : Callback)
    : M unit :=
  let! _ := PubSubProxy_getTriggerSet proxy_subscriptions i key in
  PubSubProxy_mutateSet proxy_subscriptions i key (jset_add callback).

Definition PubSubProxy_triggerUnsubscribe (i : nat) (key : string) (callback : Callback)
    : M unit :=
  let! _ := PubSubProxy_getTriggerSet proxy_subscriptions i key in
  do! PubSubProxy_mutateSet proxy_subscriptions i key (jset_delete callback) in
  let! px := get_proxy i in
  if decide (length (members key (px_subscriptions px)) = 0)
  then update_proxy i
         (λ px, fset proxy_subscriptions (jmap_delete key (px_subscriptions px)) px)
  else ret tt.

(** ** The public surface of a handle *)

(** [handle.async[key]]. *)
Definition async (handle : Handle) (key : string) (w : Waiting) : M nat :=
  match handle with
  | HProxy i => PubSubProxy_async i key w
  | HObject c | HComponent c => PSComponent_triggerPromise c key w
  end.

(** [handle.sub[key](callback)]. *)
Definition sub (handle : Handle) (key : string) (callback : Callback) : M unit :=
  match handle with
  | HProxy i => PubSubProxy_triggerSubscribe i key callback
  | HObject c | HComponent c => PSComponent_triggerSubscribe c key callback
  end.

(** [handle.unsub[key](callback)]. *)
Definition unsub (handle : Handle) (key : string) (callback : Callback) : M unit :=
  match handle with
  | HProxy i => PubSubProxy_triggerUnsubscribe i key callback
  | HObject c | HComponent c => PSComponent_triggerUnsubscribe c key callback
  end.

(** ** Finalize: forwarding the buffers *)

(** The arrow [async (resolve) => { resolve(await target.async[key]); }]
    up to its [await]. *)
Definition forward_promise (target : Handle) (key : string) (resolve : Resolver)
    : M unit :=
  let! _ := async target key (Forward resolve) in ret tt.

Definition forward_promises (target : Handle) (m : JsMap Resolver) : M unit :=
  forEach m (λ e, forEach e.2 (forward_promise target e.1)).

Definition forward_subscriptions (target : Handle) (m : JsMap Callback) : M unit :=
  forEach m (λ e, forEach e.2 (sub target e.1)).

(** [finalizeTriggers(component)].  Neither loop can add to the maps it
    walks: the component is sealed before they start. *)
Definition PSComponent_finalizeTriggers (c : nat) (component : Handle) : M unit :=
  let! cm := get_comp c in
  if finalized cm then throw AlreadyFinalized
  else
    do! update_comp c (set_finalized true) in
    do! forward_promises component (promises cm) in
    do! forward_subscriptions component (subscriptions cm) in
    update_comp c (λ cm, fset this_promises [] (fset this_subscriptions [] cm)).

(** [finalize(pubsub)] of the placeholder.  Handed itself while a promise
    is pending, the first loop appends to the very set it walks and never
    ends; in every other case the loops leave the walked maps alone. *)
Definition PubSubProxy_finalize (i : nat) (pubsub : Handle) : M unit :=
  let! px := get_proxy i in
  if decide (pubsub = HProxy i ∧ concat (px_promises px).*2 ≠ [])
  then diverge
  else
    do! forward_promises pubsub (px_promises px) in
    do! forward_subscriptions pubsub (px_subscriptions px) in
    update_proxy i (λ px, fset proxy_promises [] (fset proxy_subscriptions [] px)).

(** ** The Named Registries *)

(** [new PubSubProxy()]. *)
Definition new_proxy : M nat :=
  λ s, let i := fresh (dom (proxies s)) in
       (Ok i, with_proxies <[i := mkPubSubProxy [] []]> s).

(** The target object of a registry is a plain object made by [{}]: its
    own properties are the slots, [hasOwnProperty] and the accessor
    [__proto__] come from [Object.prototype].

    [target.hasOwnProperty(property)], returning the own value with the
    answer.  Once a slot is named [hasOwnProperty] it shadows the method,
    and the call is a call of a handle, which is not a function.
    [__proto__] is never an own property. *)
Definition own (target : gmap string Handle) (property : string) : M (option Handle) :=
  if decide (is_Some (target !! "hasOwnProperty")) then throw HasOwnPropertyNotAFunction
  else if decide (property = "__proto__") then ret None
  else ret (target !! property).

(** [target[property] = value].  Under [__proto__] the assignment runs the
    setter of [Object.prototype]: the prototype of the target becomes
    [value] and no slot is made. *)
Definition store_property (property : string) (value : Handle)
    (target : gmap string Handle) : gmap string Handle :=
  if decide (property = "__proto__") then target else <[property := value]> target.

(** The [get] trap of [this.ps] in component [c].  What it returns is
    [target[property]]: the own value, or what was just assigned, which
    under [__proto__] is read back as the prototype. *)
Definition ps_get (c : nat) (property : string) : M Handle :=
  let! cm := get_comp c in
  let! occupant := own (ps cm) property in
  match occupant with
  | Some occupant => ret occupant
  | None =>
      let! i := new_proxy in
      do! update_comp c (λ cm, set_ps (store_property property (HProxy i) (ps cm)) cm) in
      ret (HProxy i)
  end.

(** The [set] trap of [this.ps] in component [c]. *)
Definition ps_set (c : nat) (property : string) (value : Handle) : M unit :=
  let! cm := get_comp c in
  let! occupant := own (ps cm) property in
  do! match occupant with
      | Some (HProxy i) => PubSubProxy_finalize i value
      | Some _ => PSComponent_finalizeTriggers c value
      | None => ret tt
      end in
  update_comp c (λ cm, set_ps (store_property property value (ps cm)) cm).

(** [GlobalPubSub()]. *)
Definition GlobalPubSub : M nat :=
  λ s, let g := fresh (dom (globals s)) in (Ok g, with_globals <[g := ∅]> s).

(** The [get] trap of the global registry [g]. *)
Definition GlobalPubSub_get (g : nat) (property : string) : M Handle :=
  let! target := get_global g in
  let! occupant := own target property in
  match occupant with
  | Some occupant => ret occupant
  | None =>
      let! i := new_proxy in
      do! update_global g (store_property property (HProxy i)) in
      ret (HProxy i)
  end.

(** The [set] trap of the global registry [g].  The occupant is asked for
    a method named [finalizeTriggers]: a component instance has it, a
    [pubsubObject] carries only [_finalizeTriggers]. *)
Definition GlobalPubSub_set (g : nat) (property : string) (value : Handle) : M unit :=
  let! target := get_global g in
  let! occupant := own target property in
  do! match occupant with
      | Some (HProxy i) => PubSubProxy_finalize i value
      | Some (HComponent c) => PSComponent_finalizeTriggers c value
      | Some (HObject _) => throw NotAFunction
      | None => ret tt
      end in
  update_global g (store_property property value).

(** ** The constructor and its [pubsub] prop *)

(** A Named Registry: the [ps] Proxy of a component or a Proxy made by
    [GlobalPubSub()]. *)
Inductive RegRef :=
| Scoped (c : nat)
| Global (g : nat).

(** An element of the [pubsub] array; [typeof] tells the three apart. *)
Inductive JsVal :=
| JUndefined
| JString (s : string)
| JRegistry (r : RegRef).

Global Instance RegRef_eq_dec : EqDecision RegRef.
Proof. solve_decision. Defined.
Global Instance JsVal_eq_dec : EqDecision JsVal.
Proof. solve_decision. Defined.

(** [registry.<name>], a read. *)
Definition registry_get (r : RegRef) (name : string) : M Handle :=
  match r with
  | Scoped c => ps_get c name
  | Global g => GlobalPubSub_get g name
  end.

(** [registry.<name> = value]. *)
Definition registry_set (r : RegRef) (name : string) (value : Handle) : M unit :=
  match r with
  | Scoped c => ps_set c name value
  | Global g => GlobalPubSub_set g name value
  end.

(** [object[id] = value] in strict code: assigning a property of
    [undefined] or of a primitive string throws. *)
Definition assign (object : JsVal) (id : string) (value : Handle) : M unit :=
  match object with
  | JRegistry r => registry_set r id value
  | JUndefined | JString _ => throw CannotSetProperty
  end.

(** The field initialisers of a new instance. *)
Definition new_component : M nat :=
  λ s, let c := fresh (dom (comps s)) in
       (Ok c, with_comps <[c := mkPSComponent [] [] false ∅]> s).

(** The linkage part of the constructor, for the instance [this]. *)
Definition link (this : nat) (pubsub : list JsVal) : M unit :=
  let parentPubsubs := nth 0 pubsub JUndefined in
  let id := nth 1 pubsub JUndefined in
  let globals := drop 2 pubsub in
  match parentPubsubs with
  | JString name =>
      match id with
      | JString _ => throw IdCannotBeString
      | _ => forEach (id :: globals) (λ global, assign global name (HObject this))
      end
  | _ =>
      match id with
      | JString name =>
          do! assign parentPubsubs name (HObject this) in
          forEach globals (λ global, assign global name (HObject this))
      | _ => throw IdMustBeString
      end
  end.

(** [new PSComponent(props)]; [None] is a [props.pubsub] left undefined. *)
Definition constructor (pubsub : option (list JsVal)) : M nat :=
  let! this := new_component in
  do! match pubsub with
      | None => ret tt
      | Some pubsub => link this pubsub
      end in
  ret this.

(** ** Programs over the library *)

(** One call into the library by application code. *)
Inductive Op :=
| ONew (pubsub : option (list JsVal))
| ONewGlobal
| OGet (r : RegRef) (name : string)
| OSet (r : RegRef) (name : string) (value : Handle)
| OAsync (h : Handle) (key : string)
| OSub (h : Handle) (key : string) (cb : Callback)
| OUnsub (h : Handle) (key : string) (cb : Callback)
| OTrigger (c : nat) (key : string) (args : Args)
| OFinalize (i : nat) (h : Handle)
| OFinalizeTriggers (c : nat) (h : Handle).

Definition void {A} (m : M A) : M unit := let! _ := m in ret tt.

Definition exec (o : Op) : M unit :=
  match o with
  | ONew pubsub => void (constructor pubsub)
  | ONewGlobal => void GlobalPubSub
  | OGet r name => void (registry_get r name)
  | OSet r name value => registry_set r name value
  | OAsync h key => void (async h key Consumer)
  | OSub h key cb => sub h key cb
  | OUnsub h key cb => unsub h key cb
  | OTrigger c key args => PSComponent_trigger c key args
  | OFinalize i h => PubSubProxy_finalize i h
  | OFinalizeTriggers c h => PSComponent_finalizeTriggers c h
  end.

(** The store after a sequence of calls, each exception being caught by
    the caller; nothing runs after a call that never returns. *)
Fixpoint run (ops : list Op) (s : Store) : Store :=
  match ops with
  | [] => s
  | o :: ops' =>
      match exec o s with
      | (Diverge, s') => s'
      | (_, s') => run ops' s'
      end
  end.


(** ** What one call does to one object *)

(** The map after [getTriggerSet(map, key)]: the key is present. *)
Definition jmap_ensure {X} (key : string) (m : JsMap X) : JsMap X :=
  match jmap_get key m with
  | Some _ => m
  | None => jmap_set key [] m
  end.

(** The map after [getTriggerSet(map, key).add(x)]. *)
Definition jmap_add {X} `{EqDecision X} (key : string) (x : X) (m : JsMap X) : JsMap X :=
  jmap_set key (jset_add x (members key m)) m.

(** The map after [triggerUnsubscribe(key, x)]. *)
Definition jmap_remove {X} `{EqDecision X} (key : string) (x : X) (m : JsMap X) : JsMap X :=
  if decide (length (jset_delete x (members key m)) = 0)
  then jmap_delete key m
  else jmap_set key (jset_delete x (members key m)) m.

(** All members of a map, whatever their key. *)
Definition elems {X} (m : JsMap X) : list X := concat m.*2.

(** Component [c] exists and its [finalized] field is [true]. *)
Definition sealed (c : nat) (s : Store) : Prop :=
  ∃ cm, comps s !! c = Some cm ∧ finalized cm = true.

(** Component [c] exists and its [finalized] field is [false]. *)
Definition unsealed (c : nat) (s : Store) : Prop :=
  ∃ cm, comps s !! c = Some cm ∧ finalized cm = false.

(** The component a real handle stands for. *)
Definition real (h : Handle) : option nat :=
  match h with
  | HProxy _ => None
  | HObject c | HComponent c => Some c
  end.

(** The pending waiters and the subscribers of component [c] for [key]. *)
Definition waiters (c : nat) (key : string) (s : Store) : list Resolver :=
  match comps s !! c with
  | Some cm => members key (promises cm)
  | None => []
  end.
Definition subscribers (c : nat) (key : string) (s : Store) : list Callback :=
  match comps s !! c with
  | Some cm => members key (subscriptions cm)
  | None => []
  end.

(** The events appended to the log between two stores. *)
Definition events_since (s s' : Store) : list Event := drop (length (log s)) (log s').

(** How often [cb] was called with [a] in a list of events. *)
Definition calls (cb : Callback) (a : Args) (l : list Event) : nat :=
  length (filter (λ e, e = EvCall cb a) l).

(** How often the resolve function of promise [p] was called. *)
Definition is_resolve (p : nat) (e : Event) : bool :=
  match e with
  | EvResolve q _ => bool_decide (q = p)
  | EvCall _ _ => false
  end.
Definition resolutions (p : nat) (l : list Event) : nat :=
  length (filter (λ e, is_resolve p e = true) l).

(** The two mutations the library makes to a [Set]. *)
Definition set_op {X} `{EqDecision X} (f : list X → list X) : Prop :=
  (∃ x, f = jset_add x) ∨ (∃ x, f = jset_delete x).

(** The writes the library makes to the fields of a component. *)
Inductive library_write : (PSComponent → PSComponent) → Prop :=
| write_ensure_promises key :
    library_write (λ cm, fset this_promises (jmap_set key [] (fget this_promises cm)) cm)
| write_ensure_subscriptions key :
    library_write
      (λ cm, fset this_subscriptions (jmap_set key [] (fget this_subscriptions cm)) cm)
| write_mutate_promises key f :
    set_op f →
    library_write (λ cm, fset this_promises (jmap_mutate key f (fget this_promises cm)) cm)
| write_mutate_subscriptions key f :
    set_op f →
    library_write
      (λ cm, fset this_subscriptions (jmap_mutate key f (fget this_subscriptions cm)) cm)
| write_drop_promises key :
    library_write (λ cm, fset this_promises (jmap_delete key (promises cm)) cm)
| write_drop_subscriptions key :
    library_write (λ cm, fset this_subscriptions (jmap_delete key (subscriptions cm)) cm)
| write_seal : library_write (set_finalized true)
| write_clear :
    library_write (λ cm, fset this_promises [] (fset this_subscriptions [] cm))
| write_ps name value :
    library_write (λ cm, set_ps (store_property name value (ps cm)) cm).

(** The laws of a field reference: reading what was written, and leaving
    the other fields alone; and its writes are writes of the library. *)
Class ComponentField {X} `{EqDecision X} (map : Field PSComponent X) := {
  fget_fset_c m cm : fget map (fset map m cm) = m;
  fset_fget_c cm : fset map (fget map cm) cm = cm;
  fset_fset_c m m' cm : fset map m (fset map m' cm) = fset map m cm;
  finalized_fset_c m cm : finalized (fset map m cm) = finalized cm;
  ps_fset_c m cm : ps (fset map m cm) = ps cm;
  write_ensure key :
    library_write (λ cm, fset map (jmap_set key [] (fget map cm)) cm);
  write_mutate key f :
    set_op f → library_write (λ cm, fset map (jmap_mutate key f (fget map cm)) cm)
}.

Class ProxyField {X} (map : Field PubSubProxy X) := {
  fget_fset_p m px : fget map (fset map m px) = m;
  fset_fget_p px : fset map (fget map px) px = px;
  fset_fset_p m m' px : fset map m (fset map m' px) = fset map m px
}.

(** The promises after the resolve functions [ws] were called in turn. *)
Definition settle_all (args : Args) (ws : list Resolver) (h : gmap nat PState)
    : gmap nat PState :=
  foldl (λ h r, settle r args h) h ws.

(** The fields of a component after it triggered [key]. *)
Definition triggered (key : string) (cm : PSComponent) : PSComponent :=
  fset this_subscriptions (jmap_ensure key (subscriptions cm))
    (fset this_promises (jmap_delete key (promises cm)) cm).

(** [I] is an invariant of the computation [m], whatever its outcome, and
    a value it returns satisfies [φ]. *)
Definition hoare {A} (I : Store → Prop) (m : M A) (φ : A → Prop) : Prop :=
  ∀ s, I s → I (m s).2 ∧ ∀ a, (m s).1 = Ok a → φ a.

(** [I] is an invariant of [m]. *)
Definition preserves {A} (I : Store → Prop) (m : M A) : Prop := hoare I m (λ _, True).

(** The map [t] after [sub.<key>(x)] for each buffered [x] of [xs] in turn,
    and after that for every entry of a buffered map [m], in its order. *)
Definition add_members {X} `{EqDecision X} (key : string) (xs : list X) (t : JsMap X)
    : JsMap X :=
  foldl (λ t x, jmap_add key x t) t xs.
Definition add_all {X} `{EqDecision X} (m t : JsMap X) : JsMap X :=
  foldl (λ t e, add_members e.1 e.2 t) t m.

(** The [promises] map of an open target and the promises of the store
    after the relay arrow ran for each buffered resolve function. *)
Definition relay_members (key : string) (rs : list Resolver)
    (st : JsMap Resolver * gmap nat PState) : JsMap Resolver * gmap nat PState :=
  foldl (λ st r, let p := fresh (dom st.2) in
                 (jmap_add key (Relay p r) st.1, <[p := Pending]> st.2)) st rs.
Definition relay_all (m : JsMap Resolver) (st : JsMap Resolver * gmap nat PState)
    : JsMap Resolver * gmap nat PState :=
  foldl (λ st e, relay_members e.1 e.2 st) st m.

(** The operations of the Trigger Registry of one component. *)
Inductive RegOp :=
| RSubscribe (key : string) (cb : Callback)
| RUnsubscribe (key : string) (cb : Callback)
| RWaitNext (key : string)
| RFire (key : string) (args : Args).

Definition reg_exec (c : nat) (o : RegOp) : M unit :=
  match o with
  | RSubscribe key cb => PSComponent_triggerSubscribe c key cb
  | RUnsubscribe key cb => PSComponent_triggerUnsubscribe c key cb
  | RWaitNext key => void (PSComponent_triggerPromise c key Consumer)
  | RFire key args => PSComponent_trigger c key args
  end.

Fixpoint reg_run (c : nat) (ops : list RegOp) (s : Store) : Store :=
  match ops with
  | [] => s
  | o :: ops' => reg_run c ops' (reg_exec c o s).2
  end.

(** [n] promise requests for [key] in a row; the promises, oldest first. *)
Fixpoint wait_many (c : nat) (key : string) (n : nat) : M (list nat) :=
  match n with
  | 0 => ret []
  | S n' =>
      let! p := PSComponent_triggerPromise c key Consumer in
      let! ps := wait_many c key n' in
      ret (p :: ps)
  end.

(** No waiter of component [c] can fulfil a promise that does not exist. *)
Definition waiters_allocated (c : nat) (s : Store) : Prop :=
  ∀ k r q, r ∈ waiters c k s → q ∈ chain r → q ∈ dom (heap s).

(** Promise [p] is pending, and in the open component [c] its resolve
    function waits once under [key] and no other waiter can fulfil it. *)
Definition waiting (c : nat) (key : string) (p : nat) (s : Store) : Prop :=
  unsealed c s
  ∧ heap s !! p = Some Pending
  ∧ (∀ k r, r ∈ waiters c k s → p ∈ chain r → k = key ∧ r = Direct p)
  ∧ length (filter (λ r, r = Direct p) (waiters c key s)) = 1.

(** Promise [p] is fulfilled with [args] and no waiter of the open
    component [c] can fulfil it. *)
Definition resolved (c : nat) (p : nat) (args : Args) (s : Store) : Prop :=
  unsealed c s
  ∧ heap s !! p = Some (Fulfilled args)
  ∧ (∀ k r, r ∈ waiters c k s → p ∉ chain r).

(** From [s] to [s'] the log grew by events among which the resolve
    function of [p] was called [n] times. *)
Definition resolved_times (p : nat) (n : nat) (s s' : Store) : Prop :=
  ∃ ev, log s' = log s ++ ev ∧ resolutions p ev = n.

(** A component, a placeholder other than [i], and a registry target in
    which nothing refers to placeholder [i], subscribes [cb] or can fulfil
    promise [p]. *)
Definition good_comp (i : nat) (cb : Callback) (p : nat) (cm : PSComponent) : Prop :=
  (∀ name, ps cm !! name ≠ Some (HProxy i))
  ∧ (cb ∉ elems (subscriptions cm))
  ∧ (∀ r, r ∈ elems (promises cm) → p ∉ chain r).
Definition good_proxy (cb : Callback) (p : nat) (px : PubSubProxy) : Prop :=
  (cb ∉ elems (px_subscriptions px))
  ∧ (∀ r, r ∈ elems (px_promises px) → p ∉ chain r).
Definition good_target (i : nat) (t : gmap string Handle) : Prop :=
  ∀ name, t !! name ≠ Some (HProxy i).

(** Placeholder [i] is out of every registry, and outside its buffers no
    object subscribes [cb] or holds a resolve function that can fulfil the
    pending promise [p]; [cb] has not been called. *)
Definition shelved (i : nat) (cb : Callback) (p : nat) (s : Store) : Prop :=
  is_Some (proxies s !! i)
  ∧ heap s !! p = Some Pending
  ∧ (∀ c cm, comps s !! c = Some cm → good_comp i cb p cm)
  ∧ (∀ g t, globals s !! g = Some t → good_target i t)
  ∧ (∀ j px, j ≠ i → proxies s !! j = Some px → good_proxy cb p px)
  ∧ (∀ a, EvCall cb a ∉ log s).

(** A call that neither puts placeholder [i] back into a registry, nor
    finalizes it, nor subscribes [cb] to another handle. *)
Definition leaves_alone (i : nat) (cb : Callback) (o : Op) : Prop :=
  match o with
  | OSet _ _ value => value ≠ HProxy i
  | OSub h _ cb' => h = HProxy i ∨ cb' ≠ cb
  | OFinalize j _ => j ≠ i
  | _ => True
  end.

(** The relay that awaits a new promise, if any, cannot fulfil [p]. *)
Definition good_waiting (p : nat) (w : Waiting) : Prop :=
  match w with
  | Consumer => True
  | Forward k => p ∉ chain k
  end.

(** Every set of subscribers holds a callback at most once, as a
    JavaScript [Set] does: an invariant of the library (see [distinct_run]). *)
Definition distinct (s : Store) : Prop :=
  ∀ c cm key, comps s !! c = Some cm → NoDup (members key (subscriptions cm)).

(** Resolve function [r] can only fulfil promises of [R]. *)
Definition known (R : gset nat) (r : Resolver) : Prop := ∀ q, q ∈ chain r → q ∈ R.

(** The promises of [R] exist, and every resolve function held by a
    component or a placeholder can only fulfil promises of [R]. *)
Definition tracked (R : gset nat) (s : Store) : Prop :=
  R ⊆ dom (heap s)
  ∧ (∀ c cm r, comps s !! c = Some cm → r ∈ elems (promises cm) → known R r)
  ∧ (∀ j px r, proxies s !! j = Some px → r ∈ elems (px_promises px) → known R r).

(** No resolve function in the store can fulfil a promise that does not
    exist: an invariant of the library (see [allocated_run]). *)
Definition allocated (s : Store) : Prop := tracked (dom (heap s)) s.

(** From a store tracked by a set that includes [R], the computation [m]
    leads to a store tracked by a set at least as large, relative to which
    a value it returns satisfies [φ]. *)
Definition extends {A} (R : gset nat) (m : M A) (φ : gset nat → A → Prop) : Prop :=
  ∀ R1 s, R ⊆ R1 → tracked R1 s →
    ∃ R2, R1 ⊆ R2 ∧ tracked R2 (m s).2 ∧ ∀ a, (m s).1 = Ok a → φ R2 a.

(** The relay that awaits a new promise, if any, can only fulfil promises
    of [R]. *)
Definition good_known (R : gset nat) (w : Waiting) : Prop :=
  match w with
  | Consumer => True
  | Forward k => known R k
  end.

(** ** Scenarios *)

(** A placeholder with one buffered subscription and two components. *)
Definition one_placeholder_two_components : Store :=
  ((let! g := GlobalPubSub in
    let! h := GlobalPubSub_get g "child" in
    do! sub h "m" 7 in
    let! _ := constructor None in
    constructor None) empty_store).2.

(** Three children linked in turn under one name of the [ps] of a parent. *)
Definition three_children : Res nat * Store :=
  (let! parent := constructor None in
   let! _ := constructor (Some [JRegistry (Scoped parent); JString "child"]) in
   let! _ := constructor (Some [JRegistry (Scoped parent); JString "child"]) in
   constructor (Some [JRegistry (Scoped parent); JString "child"])) empty_store.

(** Two components linked in turn under one name of a global registry. *)
Definition two_global_components : Res nat * Store :=
  (let! g := GlobalPubSub in
   let! _ := constructor (Some [JString "x"; JRegistry (Global g)]) in
   constructor (Some [JString "x"; JRegistry (Global g)])) empty_store.

(** A parent with one linked child, one subscription and one pending
    promise request of its own, and a second component. *)
Definition parent_child_and_newcomer : Store :=
  ((let! parent := constructor None in
    do! PSComponent_triggerSubscribe parent "m" 7 in
    let! _ := PSComponent_triggerPromise parent "m" Consumer in
    let! _ := constructor (Some [JRegistry (Scoped parent); JString "child"]) in
    constructor None) empty_store).2.

(** A global registry whose name [child] was read before a component took
    it: the placeholder handed out by the read is out of the registry. *)
Definition stale_placeholder : Store :=
  ((let! g := GlobalPubSub in
    let! _ := GlobalPubSub_get g "child" in
    constructor (Some [JRegistry (Global g); JString "child"])) empty_store).2.

(** A consumer waits on a name of an empty registry, then a publisher
    takes the name and fires. *)
Definition end_to_end : Res nat * Store :=
  (let! registry := GlobalPubSub in
   let! child := GlobalPubSub_get registry "child" in
   let! awaited := async child "ping" Consumer in
   let! publisher := constructor (Some [JRegistry (Global registry); JString "child"]) in
   do! PSComponent_trigger publisher "ping" [VText "hello"] in
   ret awaited) empty_store.

(** ** Property keys: [proxyGetter], [proxySetter] and [simpleProxy] *)

(** The key a Proxy trap is handed: a string or a symbol. *)
Inductive PropertyKey :=
| KString (name : string)
| KSymbol (id : nat).

Definition StringAccessRequired : Exn := Error "String access required for pub/sub.".

(** [proxyGetter(callback)], the [get] trap it returns. *)
Definition proxyGetter {T V} (callback : T → string → M V)
    (target : T) (property : PropertyKey) : M V :=
  match property with
  | KString property => callback target property
  | KSymbol _ => throw StringAccessRequired
  end.

(** [proxySetter(callback)], the [set] trap it returns. *)
Definition proxySetter {T V} (callback : T → string → V → M unit)
    (target : T) (property : PropertyKey) (value : V) : M unit :=
  match property with
  | KString property => callback target property value
  | KSymbol _ => throw StringAccessRequired
  end.

(** [simpleProxy(callback)]: a Proxy over a new empty object. *)
Definition simpleProxy {V} (callback : unit → string → M V) : PropertyKey → M V :=
  proxyGetter callback tt.

(** The Proxies of a handle as application code reaches them, traps
    included.  A read of [sub], [unsub] and [pub] gives a bound function. *)
Definition async_proxy (handle : Handle) : PropertyKey → M nat :=
  proxyGetter (λ _ property, async handle property Consumer) tt.
Definition sub_proxy (handle : Handle) : PropertyKey → M (Callback → M unit) :=
  proxyGetter (λ _ property, ret (sub handle property)) tt.
Definition unsub_proxy (handle : Handle) : PropertyKey → M (Callback → M unit) :=
  proxyGetter (λ _ property, ret (unsub handle property)) tt.
Definition pub (c : nat) : PropertyKey → M (Args → M unit) :=
  simpleProxy (λ _ property, ret (PSComponent_trigger c property)).

(** A Named Registry as application code reaches it. *)
Definition registry_proxy_get (r : RegRef) : PropertyKey → M Handle :=
  proxyGetter registry_get r.
Definition registry_proxy_set (r : RegRef) : PropertyKey → Handle → M unit :=
  proxySetter registry_set r.

(** ** [PSLifecycleComponent] *)

(** [this.pub.<key>(...args)]. *)
Definition publish (c : nat) (key : string) (args : Args) : M unit :=
  let! trigger := pub c (KString key) in trigger args.

Definition componentDidMount (c : nat) : M unit := publish c "componentDidMount" [].
Definition componentDidUpdate (c : nat) : M unit := publish c "componentDidUpdate" [].
Definition componentWillUnmount (c : nat) : M unit := publish c "componentWillUnmount" [].

(** The three hooks and the trigger each one fires. *)
Inductive Hook :=
| DidMount
| DidUpdate
| WillUnmount.

Definition hook_key (h : Hook) : string :=
  match h with
  | DidMount => "componentDidMount"
  | DidUpdate => "componentDidUpdate"
  | WillUnmount => "componentWillUnmount"
  end.

Definition lifecycle (c : nat) (h : Hook) : M unit :=
  match h with
  | DidMount => componentDidMount c
  | DidUpdate => componentDidUpdate c
  | WillUnmount => componentWillUnmount c
  end.

(** ** Reading the store *)

(** The target object behind a registry, and what one of its slots holds;
    neither runs a trap. *)
Definition target_of (r : RegRef) (s : Store) : option (gmap string Handle) :=
  match r with
  | Scoped c => ps <$> comps s !! c
  | Global g => globals s !! g
  end.
Definition slot (r : RegRef) (name : string) (s : Store) : option Handle :=
  target_of r s ≫= (λ t, t !! name).

(** A name a plain object treats like any other: not the accessor
    [__proto__], and not [hasOwnProperty], the method the traps call. *)
Definition ordinary (name : string) : Prop :=
  name ≠ "__proto__" ∧ name ≠ "hasOwnProperty".

(** The [hasOwnProperty] of the target of the registry is the inherited
    method: no slot of that name shadows it. *)
Definition intact (r : RegRef) (s : Store) : Prop := slot r "hasOwnProperty" s = None.

(** The name is free in the registry, or held by a placeholder. *)
Definition vacant (r : RegRef) (name : string) (s : Store) : Prop :=
  ∃ t, target_of r s = Some t
       ∧ match t !! name with
         | None => True
         | Some (HProxy i) => is_Some (proxies s !! i)
         | Some _ => False
         end.

(** The two shapes of the [pubsub] prop that name at least one registry:
    [[name, registry, ...registries]] and [[registry, name, ...registries]]. *)
Definition linkage (name_first : bool) (name : string) (registry : RegRef)
    (registries : list RegRef) : list JsVal :=
  if name_first
  then JString name :: JRegistry registry :: map JRegistry registries
  else JRegistry registry :: JString name :: map JRegistry registries.

(** One run of the relay arrow against an open target: the step that
    [relay_members] and [relay_all] repeat. *)
Definition relay_one (key : string) (r : Resolver)
    (st : JsMap Resolver * gmap nat PState) : JsMap Resolver * gmap nat PState :=
  let p := fresh (dom st.2) in (jmap_add key (Relay p r) st.1, <[p := Pending]> st.2).

(** A [promises] map and the promises of a store, reached by relaying onto
    a map whose resolve functions could only fulfil promises of [h0]: the
    promises of [h0] are as they were, every promise a waiter can fulfil
    exists, and every waiter whose own promise is not one of [h0] is
    pending and is the only waiter that can fulfil that promise. *)
Definition relayed (h0 : gmap nat PState) (st : JsMap Resolver * gmap nat PState) : Prop :=
  (∀ x, x ∈ dom h0 → st.2 !! x = h0 !! x)
  ∧ (∀ k r x, r ∈ members k st.1 → x ∈ chain r → x ∈ dom st.2)
  ∧ (∀ k r, r ∈ members k st.1 → head r ∉ dom h0 → st.2 !! head r = Some Pending)
  ∧ (∀ k k' r r', r ∈ members k st.1 → r' ∈ members k' st.1 →
       head r ∉ dom h0 → head r ∈ chain r' → r' = r).

(** The callbacks a handle holds for [key]: buffered by a placeholder,
    subscribed to a component. *)
Definition subscribed (h : Handle) (key : string) (s : Store) : list Callback :=
  match h with
  | HProxy i =>
      match proxies s !! i with
      | Some px => members key (px_subscriptions px)
      | None => []
      end
  | HObject c | HComponent c => subscribers c key s
  end.

(** The fields of an open component and the promises of the store after a
    placeholder with fields [px] was finalized onto it. *)
Definition finalized_onto (px : PubSubProxy) (cm : PSComponent) (h : gmap nat PState)
    : PSComponent * gmap nat PState :=
  let st := relay_all (px_promises px) (promises cm, h) in
  (fset this_subscriptions (add_all (px_subscriptions px) (subscriptions cm))
     (fset this_promises st.1 cm),
   st.2).

(** The resolve functions placeholder [i] has buffered for [key]. *)
Definition buffered (i : nat) (key : string) (s : Store) : list Resolver :=
  match proxies s !! i with
  | Some px => members key (px_promises px)
  | None => []
  end.

(** The keys of the promises map of component [c]. *)
Definition promise_keys (c : nat) (s : Store) : list string :=
  match comps s !! c with
  | Some cm => (promises cm).*1
  | None => []
  end.

(** The keys of the subscriptions map of a handle. *)
Definition subscription_keys (h : Handle) (s : Store) : list string :=
  match h with
  | HProxy i =>
      match proxies s !! i with
      | Some px => (px_subscriptions px).*1
      | None => []
      end
  | HObject c | HComponent c =>
      match comps s !! c with
      | Some cm => (subscriptions cm).*1
      | None => []
      end
  end.

(** The handle can be subscribed to: a placeholder, or a component that
    is not sealed. *)
Definition usable (h : Handle) (s : Store) : Prop :=
  match h with
  | HProxy i => is_Some (proxies s !! i)
  | HObject c | HComponent c => unsealed c s
  end.

(** From [s] to [s'] nothing changed but the promises, and every promise
    of [s] has in [s'] the state it had. *)
Definition only_new_promises (s s' : Store) : Prop :=
  comps s' = comps s ∧ proxies s' = proxies s ∧ globals s' = globals s
  ∧ log s' = log s
  ∧ ∀ p st, heap s !! p = Some st → heap s' !! p = Some st.

(** The promises after [n] requests to a sealed component: each request
    made one new promise, rejected with [Error("Already finalized.")]. *)
Definition refused (n : nat) (h : gmap nat PState) : gmap nat PState :=
  Nat.iter n (λ h, <[fresh (dom h) := Rejected AlreadyFinalized]> h) h.

(** The handle a call works on, for the four calls that work on one
    handle and forward nothing. *)
Definition acts_on (o : Op) : option Handle :=
  match o with
  | OAsync h _ | OSub h _ _ | OUnsub h _ _ => Some h
  | OTrigger c _ _ => Some (HObject c)
  | _ => None
  end.

(** From [s] to [s'] nothing changed outside the maps of the object behind
    [h], the promises and the log of calls: every registry, every other
    component and every other placeholder is as it was, and every
    component is sealed if and only if it was. *)
Definition local_to (h : Handle) (s s' : Store) : Prop :=
  (∀ r, target_of r s' = target_of r s)
  ∧ (∀ d, real h ≠ Some d → comps s' !! d = comps s !! d)
  ∧ (∀ j, h ≠ HProxy j → proxies s' !! j = proxies s !! j)
  ∧ (∀ c, finalized <$> comps s' !! c = finalized <$> comps s !! c).

(** ** Deferred binding as one program *)

(** A consumer reads a name of a registry, subscribes a callback and
    requests a promise; then a publisher is constructed under that name and
    fires.  Returns the handle the consumer got, the promise and the
    publisher. *)
Definition subscribe_wait_link_fire (r : RegRef) (name_first : bool) (name key : string)
    (cb : Callback) (args : Args) : M (Handle * nat * nat) :=
  let! child := registry_get r name in
  do! sub child key cb in
  let! awaited := async child key Consumer in
  let! publisher := constructor (Some (linkage name_first name r [])) in
  do! PSComponent_trigger publisher key args in
  ret (child, awaited, publisher).

(** * Proofs *)

(** ** Insertion-ordered maps and sets *)

Section JsCollectionLemmas.
Context {X : Type} `{EqDecision X}.
Implicit Types (m : JsMap X) (l : list X) (x : X) (k key : string).

Lemma jmap_get_set_eq key v m : jmap_get key (jmap_set key v m) = Some v.
Proof.
  induction m as [|[k w] m IH]; simpl.
  - by rewrite decide_True.
  - destruct (decide (key = k)) as [->|Hne]; simpl.
    + by rewrite decide_True.
    + by rewrite decide_False.
Qed.

Lemma jmap_get_set_ne key k v m :
  key ≠ k → jmap_get k (jmap_set key v m) = jmap_get k m.
Proof.
  intros Hne. induction m as [|[k' w] m IH]; simpl.
  - by rewrite decide_False.
  - destruct (decide (key = k')) as [->|Hne']; simpl.
    + by rewrite !decide_False by done.
    + destruct (decide (k = k')); [done | apply IH].
Qed.

Lemma jmap_set_set key v w m :
  jmap_set key v (jmap_set key w m) = jmap_set key v m.
Proof.
  induction m as [|[k u] m IH]; simpl.
  - by rewrite decide_True.
  - destruct (decide (key = k)) as [->|Hne]; simpl.
    + by rewrite decide_True.
    + rewrite decide_False by done. by rewrite IH.
Qed.

Lemma jmap_set_id key v m : jmap_get key m = Some v → jmap_set key v m = m.
Proof.
  induction m as [|[k u] m IH]; simpl; [done|].
  destruct (decide (key = k)) as [->|Hne]; [congruence|].
  intros Hm. by rewrite IH.
Qed.

Lemma jmap_get_delete_eq key m : jmap_get key (jmap_delete key m) = None.
Proof.
  unfold jmap_delete. induction m as [|[k u] m IH]; [done|].
  rewrite filter_cons. simpl. destruct (decide (k ≠ key)) as [Hne|Heq]; simpl.
  - rewrite decide_False by done. apply IH.
  - apply IH.
Qed.

Lemma jmap_get_delete_ne key k m :
  key ≠ k → jmap_get k (jmap_delete key m) = jmap_get k m.
Proof.
  intros Hne. unfold jmap_delete. induction m as [|[k' u] m IH]; [done|].
  rewrite filter_cons. simpl. destruct (decide (k' ≠ key)) as [Hne'|Heq]; simpl.
  - destruct (decide (k = k')); [done | apply IH].
  - apply dec_stable in Heq as ->. rewrite decide_False by done. apply IH.
Qed.

Lemma members_set_eq key v m : members key (jmap_set key v m) = v.
Proof. unfold members. by rewrite jmap_get_set_eq. Qed.

Lemma members_set_ne key k v m :
  key ≠ k → members k (jmap_set key v m) = members k m.
Proof. intros. unfold members. by rewrite jmap_get_set_ne. Qed.

Lemma members_delete_eq key m : members key (jmap_delete key m) = [].
Proof. unfold members. by rewrite jmap_get_delete_eq. Qed.

Lemma members_delete_ne key k m :
  key ≠ k → members k (jmap_delete key m) = members k m.
Proof. intros. unfold members. by rewrite jmap_get_delete_ne. Qed.

Lemma members_ensure key k m : members k (jmap_ensure key m) = members k m.
Proof.
  unfold jmap_ensure. destruct (jmap_get key m) eqn:E; [done|].
  destruct (decide (key = k)) as [<-|Hne].
  - rewrite members_set_eq. unfold members. by rewrite E.
  - by apply members_set_ne.
Qed.

(** [getTriggerSet] followed by a mutation of the set it returned. *)
Lemma jmap_mutate_ensure key (f : list X → list X) m :
  jmap_mutate key f (jmap_ensure key m) = jmap_set key (f (members key m)) m.
Proof.
  unfold jmap_mutate, jmap_ensure, members.
  destruct (jmap_get key m) as [set|] eqn:E; simpl.
  - by rewrite E.
  - by rewrite jmap_get_set_eq, jmap_set_set.
Qed.

Lemma jset_add_elem x y l : y ∈ jset_add x l ↔ y = x ∨ y ∈ l.
Proof.
  unfold jset_add. destruct (decide (x ∈ l)).
  - split; [by right | intros [->|]; done].
  - rewrite elem_of_app, list_elem_of_singleton. tauto.
Qed.

Lemma jset_add_idem x l : jset_add x (jset_add x l) = jset_add x l.
Proof.
  unfold jset_add at 1. rewrite decide_True; [done|].
  apply jset_add_elem. by left.
Qed.

Lemma jset_add_NoDup x l : NoDup l → NoDup (jset_add x l).
Proof.
  intros Hl. unfold jset_add. destruct (decide (x ∈ l)); [done|].
  apply NoDup_app. split_and!; [done| |apply NoDup_singleton].
  intros y Hy ->%list_elem_of_singleton. done.
Qed.

Lemma jset_delete_elem x y l : y ∈ jset_delete x l ↔ y ≠ x ∧ y ∈ l.
Proof. unfold jset_delete. by rewrite list_elem_of_filter. Qed.

Lemma jset_delete_absent x l : x ∉ l → jset_delete x l = l.
Proof.
  intros Hx. unfold jset_delete. induction l as [|y l IH]; [done|].
  rewrite filter_cons. apply not_elem_of_cons in Hx as [Hne Hx].
  rewrite decide_True by done. by rewrite IH.
Qed.

Lemma jmap_add_idem key x m : jmap_add key x (jmap_add key x m) = jmap_add key x m.
Proof.
  unfold jmap_add. by rewrite members_set_eq, jset_add_idem, jmap_set_set.
Qed.
End JsCollectionLemmas.

(** ** Field references *)

Global Instance this_promises_field : ComponentField this_promises.
Proof. split; try done; [by intros [] | apply write_ensure_promises | apply write_mutate_promises]. Qed.
Global Instance this_subscriptions_field : ComponentField this_subscriptions.
Proof.
  split; try done;
    [by intros [] | apply write_ensure_subscriptions | apply write_mutate_subscriptions].
Qed.
Global Instance proxy_promises_field : ProxyField proxy_promises.
Proof. split; try done. by intros []. Qed.
Global Instance proxy_subscriptions_field : ProxyField proxy_subscriptions.
Proof. split; try done. by intros []. Qed.

(** ** Running a computation *)

Section MonadLemmas.
Context {A B : Type}.
Implicit Types (m : M A) (f : A → M B) (s : Store).

Lemma bind_ok m f s a s' : m s = (Ok a, s') → bind m f s = f a s'.
Proof. unfold bind. by intros ->. Qed.

Lemma bind_throw m f s e s' : m s = (Throw e, s') → bind m f s = (Throw e, s').
Proof. unfold bind. by intros ->. Qed.

Lemma bind_diverge m f s s' : m s = (Diverge, s') → bind m f s = (Diverge, s').
Proof. unfold bind. by intros ->. Qed.

Lemma bind_stuck m f s s' : m s = (Stuck, s') → bind m f s = (Stuck, s').
Proof. unfold bind. by intros ->. Qed.
End MonadLemmas.

Lemma store_eta s : mkStore (comps s) (proxies s) (globals s) (heap s) (log s) = s.
Proof. by destruct s. Qed.

Lemma with_comps_twice f g s : with_comps f (with_comps g s) = with_comps (f ∘ g) s.
Proof. done. Qed.

Lemma with_comps_insert_insert c cm cm' s :
  with_comps <[c := cm]> (with_comps <[c := cm']> s) = with_comps <[c := cm]> s.
Proof. unfold with_comps; simpl. by rewrite insert_insert_eq. Qed.

Lemma with_comps_insert_id c cm s :
  comps s !! c = Some cm → with_comps <[c := cm]> s = s.
Proof. intros H. unfold with_comps. rewrite insert_id by done. apply store_eta. Qed.

Lemma with_proxies_insert_insert i px px' s :
  with_proxies <[i := px]> (with_proxies <[i := px']> s) = with_proxies <[i := px]> s.
Proof. unfold with_proxies; simpl. by rewrite insert_insert_eq. Qed.

Lemma with_proxies_insert_id i px s :
  proxies s !! i = Some px → with_proxies <[i := px]> s = s.
Proof. intros H. unfold with_proxies. rewrite insert_id by done. apply store_eta. Qed.

Lemma get_comp_ok c cm s : comps s !! c = Some cm → get_comp c s = (Ok cm, s).
Proof. unfold get_comp. by intros ->. Qed.

Lemma update_comp_ok c f cm s :
  comps s !! c = Some cm → update_comp c f s = (Ok tt, with_comps <[c := f cm]> s).
Proof. unfold update_comp. by intros ->. Qed.

Lemma get_proxy_ok i px s : proxies s !! i = Some px → get_proxy i s = (Ok px, s).
Proof. unfold get_proxy. by intros ->. Qed.

Lemma update_proxy_ok i f px s :
  proxies s !! i = Some px → update_proxy i f s = (Ok tt, with_proxies <[i := f px]> s).
Proof. unfold update_proxy. by intros ->. Qed.

Lemma comps_insert_lookup c cm s : comps (with_comps <[c := cm]> s) !! c = Some cm.
Proof. simpl. apply lookup_insert_eq. Qed.

Lemma proxies_insert_lookup i px s : proxies (with_proxies <[i := px]> s) !! i = Some px.
Proof. simpl. apply lookup_insert_eq. Qed.

(** ** The operations of a component, one call at a time *)

Section ComponentCalls.
Context {X : Type} `{EqDecision X} (map : Field PSComponent X) `{!ComponentField map}.
Implicit Types (s : Store) (c : nat) (cm : PSComponent) (key : string).

Lemma getTriggerSet_sealed s c cm key :
  comps s !! c = Some cm → finalized cm = true →
  PSComponent_getTriggerSet map c key s = (Throw AlreadyFinalized, s).
Proof.
  intros Hc Hf. unfold PSComponent_getTriggerSet.
  rewrite (bind_ok _ _ _ _ _ (get_comp_ok _ _ _ Hc)). by rewrite Hf.
Qed.

Lemma getTriggerSet_unsealed s c cm key :
  comps s !! c = Some cm → finalized cm = false →
  PSComponent_getTriggerSet map c key s =
    (Ok (members key (fget map cm)),
     with_comps <[c := fset map (jmap_ensure key (fget map cm)) cm]> s).
Proof.
  intros Hc Hf. unfold PSComponent_getTriggerSet.
  rewrite (bind_ok _ _ _ _ _ (get_comp_ok _ _ _ Hc)). rewrite Hf.
  unfold jmap_ensure, members. destruct (jmap_get key (fget map cm)) eqn:E; simpl.
  - unfold ret. by rewrite fset_fget_c, with_comps_insert_id.
  - by rewrite (bind_ok _ _ _ _ _ (update_comp_ok _ _ _ _ Hc)).
Qed.

(** [getTriggerSet(map, key)] and a mutation of the returned set. *)
Lemma getTriggerSet_mutate s c cm key (f : list X → list X) :
  comps s !! c = Some cm → finalized cm = false →
  (let! _ := PSComponent_getTriggerSet map c key in
   PSComponent_mutateSet map c key f) s =
    (Ok tt, with_comps
              <[c := fset map (jmap_set key (f (members key (fget map cm))) (fget map cm)) cm]> s).
Proof.
  intros Hc Hf.
  rewrite (bind_ok _ _ _ _ _ (getTriggerSet_unsealed _ _ _ key Hc Hf)).
  unfold PSComponent_mutateSet.
  rewrite (update_comp_ok _ _ _ _ (comps_insert_lookup _ _ _)).
  by rewrite with_comps_insert_insert, fget_fset_c, fset_fset_c, jmap_mutate_ensure.
Qed.

Lemma getTriggerSet_mutate_sealed s c cm key (f : list X → list X) :
  comps s !! c = Some cm → finalized cm = true →
  (let! _ := PSComponent_getTriggerSet map c key in
   PSComponent_mutateSet map c key f) s = (Throw AlreadyFinalized, s).
Proof.
  intros Hc Hf. by rewrite (bind_throw _ _ _ _ _ (getTriggerSet_sealed _ _ _ key Hc Hf)).
Qed.
End ComponentCalls.

Lemma jmap_delete_set {X} key (v : list X) (m : JsMap X) :
  jmap_delete key (jmap_set key v m) = jmap_delete key m.
Proof.
  unfold jmap_delete. induction m as [|[k u] m IH]; simpl.
  - rewrite filter_cons. simpl. by rewrite decide_False by (by intros []).
  - destruct (decide (key = k)) as [->|Hne].
    + rewrite !filter_cons. simpl. by rewrite !decide_False by (by intros []).
    + rewrite !filter_cons. simpl. by rewrite IH.
Qed.

Lemma jmap_delete_ensure {X} key (m : JsMap X) :
  jmap_delete key (jmap_ensure key m) = jmap_delete key m.
Proof.
  unfold jmap_ensure. destruct (jmap_get key m); [done|]. apply jmap_delete_set.
Qed.

Lemma catch_ok {A} (m : M A) h s a s' : m s = (Ok a, s') → catch m h s = (Ok a, s').
Proof. unfold catch. by intros ->. Qed.

Lemma catch_throw {A} (m : M A) h s e s' : m s = (Throw e, s') → catch m h s = h e s'.
Proof. unfold catch. by intros ->. Qed.

Lemma forEach_call_resolve args ws s :
  forEach ws (call_resolve args) s =
    (Ok tt, mkStore (comps s) (proxies s) (globals s) (settle_all args ws (heap s))
              (log s ++ map (λ r, EvResolve (head r) args) ws)).
Proof.
  revert s. induction ws as [|r ws IH]; intros s; simpl.
  - unfold ret. by rewrite app_nil_r, store_eta.
  - unfold bind at 1. unfold call_resolve at 1. unfold bind, emit, modify. simpl.
    rewrite IH. simpl. by rewrite <- app_assoc.
Qed.

Lemma forEach_call_callback args cbs s :
  forEach cbs (call_callback args) s =
    (Ok tt, with_log (λ l, l ++ map (λ cb, EvCall cb args) cbs) s).
Proof.
  revert s. induction cbs as [|cb cbs IH]; intros s; simpl.
  - unfold ret, with_log. by rewrite app_nil_r, store_eta.
  - unfold bind at 1. unfold call_callback at 1. unfold emit, modify.
    rewrite IH. unfold with_log. simpl. by rewrite <- app_assoc.
Qed.

Section ComponentEquations.
Implicit Types (s : Store) (c : nat) (cm : PSComponent) (key : string).

Lemma triggerSubscribe_unsealed s c cm key cb :
  comps s !! c = Some cm → finalized cm = false →
  PSComponent_triggerSubscribe c key cb s =
    (Ok tt, with_comps
              <[c := fset this_subscriptions (jmap_add key cb (subscriptions cm)) cm]> s).
Proof.
  intros Hc Hf.
  exact (getTriggerSet_mutate this_subscriptions _ _ _ key (jset_add cb) Hc Hf).
Qed.

Lemma triggerSubscribe_sealed s c cm key cb :
  comps s !! c = Some cm → finalized cm = true →
  PSComponent_triggerSubscribe c key cb s = (Throw AlreadyFinalized, s).
Proof.
  intros Hc Hf.
  exact (getTriggerSet_mutate_sealed this_subscriptions _ _ _ key (jset_add cb) Hc Hf).
Qed.

Lemma triggerUnsubscribe_unsealed s c cm key cb :
  comps s !! c = Some cm → finalized cm = false →
  PSComponent_triggerUnsubscribe c key cb s =
    (Ok tt, with_comps
              <[c := fset this_subscriptions (jmap_remove key cb (subscriptions cm)) cm]> s).
Proof.
  intros Hc Hf. unfold PSComponent_triggerUnsubscribe.
  rewrite (bind_ok _ _ _ _ _ (getTriggerSet_unsealed this_subscriptions _ _ _ key Hc Hf)).
  unfold PSComponent_mutateSet.
  rewrite (bind_ok _ _ _ _ _ (update_comp_ok _ _ _ _ (comps_insert_lookup _ _ _))).
  rewrite with_comps_insert_insert.
  rewrite (bind_ok _ _ _ _ _ (get_comp_ok _ _ _ (comps_insert_lookup _ _ _))).
  simpl. rewrite jmap_mutate_ensure, members_set_eq. unfold jmap_remove.
  destruct (decide (length (jset_delete cb (members key (subscriptions cm))) = 0)).
  - rewrite (update_comp_ok _ _ _ _ (comps_insert_lookup _ _ _)).
    rewrite with_comps_insert_insert. simpl. by rewrite jmap_delete_set.
  - done.
Qed.

Lemma triggerUnsubscribe_sealed s c cm key cb :
  comps s !! c = Some cm → finalized cm = true →
  PSComponent_triggerUnsubscribe c key cb s = (Throw AlreadyFinalized, s).
Proof.
  intros Hc Hf. unfold PSComponent_triggerUnsubscribe.
  by rewrite (bind_throw _ _ _ _ _ (getTriggerSet_sealed this_subscriptions _ _ _ key Hc Hf)).
Qed.

Lemma triggerPromise_unsealed s c cm key w :
  comps s !! c = Some cm → finalized cm = false →
  let p := fresh (dom (heap s)) in
  PSComponent_triggerPromise c key w s =
    (Ok p, with_comps
             <[c := fset this_promises (jmap_add key (resolver_of p w) (promises cm)) cm]>
             (with_heap <[p := Pending]> s)).
Proof.
  intros Hc Hf p. unfold PSComponent_triggerPromise, new_promise.
  unfold bind at 1. fold p.
  erewrite bind_ok; [done|]. apply catch_ok.
  refine (getTriggerSet_mutate this_promises _ _ _ key _ _ Hf).
  simpl. by rewrite Hc.
Qed.

Lemma triggerPromise_sealed s c cm key w :
  comps s !! c = Some cm → finalized cm = true →
  let p := fresh (dom (heap s)) in
  PSComponent_triggerPromise c key w s =
    (Ok p, with_heap <[p := Rejected AlreadyFinalized]> s).
Proof.
  intros Hc Hf p. unfold PSComponent_triggerPromise, new_promise.
  unfold bind at 1. fold p.
  erewrite bind_ok; [done|]. erewrite catch_throw.
  2:{ by apply (getTriggerSet_mutate_sealed this_promises _ _ cm). }
  unfold reject, modify, with_heap. simpl.
  by rewrite lookup_insert_eq, insert_insert_eq.
Qed.

Lemma trigger_sealed s c cm key args :
  comps s !! c = Some cm → finalized cm = true →
  PSComponent_trigger c key args s = (Throw AlreadyFinalized, s).
Proof.
  intros Hc Hf. unfold PSComponent_trigger.
  by rewrite (bind_throw _ _ _ _ _ (getTriggerSet_sealed this_promises _ _ _ key Hc Hf)).
Qed.

Lemma trigger_unsealed s c cm key args :
  comps s !! c = Some cm → finalized cm = false →
  PSComponent_trigger c key args s =
    (Ok tt, mkStore (<[c := triggered key cm]> (comps s)) (proxies s) (globals s)
              (settle_all args (members key (promises cm)) (heap s))
              (log s ++ map (λ r, EvResolve (head r) args) (members key (promises cm))
                     ++ map (λ cb, EvCall cb args) (members key (subscriptions cm)))).
Proof.
  intros Hc Hf. unfold PSComponent_trigger.
  rewrite (bind_ok _ _ _ _ _ (getTriggerSet_unsealed this_promises _ _ _ key Hc Hf)).
  rewrite (bind_ok _ _ _ _ _ (forEach_call_resolve _ _ _)).
  unfold bind at 1, update_comp at 1. simpl. rewrite lookup_insert_eq.
  match goal with |- bind _ _ ?s = _ =>
    assert (∃ cm', comps s !! c = Some cm' ∧ finalized cm' = false
              ∧ cm' = fset this_promises (jmap_delete key (promises cm)) cm)
      as (cm' & Hc' & Hf' & Hcm')
  end.
  { eexists. split; [apply comps_insert_lookup|]. simpl.
    by rewrite jmap_delete_ensure. }
  rewrite (bind_ok _ _ _ _ _ (getTriggerSet_unsealed this_subscriptions _ _ _ key Hc' Hf')).
  rewrite forEach_call_callback. unfold with_log, with_comps, triggered. simpl.
  rewrite !insert_insert_eq, Hcm'. simpl. by rewrite <- app_assoc.
Qed.
End ComponentEquations.

(** ** Invariants of computations *)

Section Hoare.
Context (I : Store → Prop).

Lemma hoare_ret {A} (a : A) (φ : A → Prop) : φ a → hoare I (ret a) φ.
Proof. intros Ha s Hs. split; [done|]. by intros ? [= <-]. Qed.

Lemma hoare_throw {A} e (φ : A → Prop) : hoare I (throw e) φ.
Proof. intros s Hs. by split. Qed.

Lemma hoare_diverge {A} (φ : A → Prop) : hoare I diverge φ.
Proof. intros s Hs. by split. Qed.

Lemma hoare_weaken {A} (m : M A) (φ ψ : A → Prop) :
  hoare I m φ → (∀ a, φ a → ψ a) → hoare I m ψ.
Proof. intros Hm Himp s Hs. destruct (Hm s Hs) as [? Hφ]. split; [done|]. eauto. Qed.

Lemma hoare_bind {A B} (m : M A) (f : A → M B) (φ : A → Prop) (ψ : B → Prop) :
  hoare I m φ → (∀ a, φ a → hoare I (f a) ψ) → hoare I (bind m f) ψ.
Proof.
  intros Hm Hf s Hs. destruct (Hm s Hs) as [HI Hφ]. unfold bind.
  destruct (m s) as [[a| | |] s']; simpl in *; try done.
  apply Hf; [by apply Hφ | done].
Qed.

Lemma preserves_bind {A B} (m : M A) (f : A → M B) (ψ : B → Prop) :
  preserves I m → (∀ a, hoare I (f a) ψ) → hoare I (bind m f) ψ.
Proof. intros Hm Hf. eapply hoare_bind; [exact Hm|]. intros a _. apply Hf. Qed.

Lemma hoare_catch {A} (m : M A) (h : Exn → M A) (φ : A → Prop) :
  hoare I m φ → (∀ e, hoare I (h e) φ) → hoare I (catch m h) φ.
Proof.
  intros Hm Hh s Hs. destruct (Hm s Hs) as [HI Hφ]. unfold catch.
  destruct (m s) as [[a| | |] s']; simpl in *; try done.
  by apply Hh.
Qed.

Lemma preserves_forEach {X} (l : list X) (f : X → M unit) :
  (∀ x, x ∈ l → preserves I (f x)) → preserves I (forEach l f).
Proof.
  induction l as [|x l IH]; intros Hf; simpl.
  - by apply hoare_ret.
  - apply preserves_bind.
    + apply Hf. by left.
    + intros _. apply IH. intros y Hy. apply Hf. by right.
Qed.

Lemma preserves_void {A} (m : M A) (φ : A → Prop) : hoare I m φ → preserves I (void m).
Proof. intros Hm. eapply hoare_bind; [exact Hm|]. intros. by apply hoare_ret. Qed.

Lemma preserves_modify (f : Store → Store) :
  (∀ s, I s → I (f s)) → preserves I (modify f).
Proof. intros Hf s Hs. split; [by apply Hf | done]. Qed.

Lemma hoare_get_comp c (φ : PSComponent → Prop) :
  (∀ s cm, I s → comps s !! c = Some cm → φ cm) → hoare I (get_comp c) φ.
Proof.
  intros Hφ s Hs. unfold get_comp. destruct (comps s !! c) eqn:E; simpl; [|done].
  split; [done|]. intros ? [= <-]. eauto.
Qed.

Lemma hoare_get_proxy i (φ : PubSubProxy → Prop) :
  (∀ s px, I s → proxies s !! i = Some px → φ px) → hoare I (get_proxy i) φ.
Proof.
  intros Hφ s Hs. unfold get_proxy. destruct (proxies s !! i) eqn:E; simpl; [|done].
  split; [done|]. intros ? [= <-]. eauto.
Qed.

Lemma hoare_get_global g (φ : gmap string Handle → Prop) :
  (∀ s t, I s → globals s !! g = Some t → φ t) → hoare I (get_global g) φ.
Proof.
  intros Hφ s Hs. unfold get_global. destruct (globals s !! g) eqn:E; simpl; [|done].
  split; [done|]. intros ? [= <-]. eauto.
Qed.

(** [hasOwnProperty] reads the target and nothing else; what it finds is
    the slot of the name. *)
Lemma hoare_own t property (φ : option Handle → Prop) :
  (∀ occupant, occupant = None ∨ occupant = t !! property → φ occupant) →
  hoare I (own t property) φ.
Proof.
  intros Hφ s Hs. unfold own. repeat case_decide; (split; [done|]); try done.
  - intros o [= <-]. apply Hφ. by left.
  - intros o [= <-]. apply Hφ. by right.
Qed.

Lemma preserves_own t property : preserves I (own t property).
Proof. by apply hoare_own. Qed.

Lemma preserves_update_comp c f :
  (∀ s cm, I s → comps s !! c = Some cm → I (with_comps <[c := f cm]> s)) →
  preserves I (update_comp c f).
Proof.
  intros Hf s Hs. unfold update_comp. destruct (comps s !! c) eqn:E; simpl; [|done].
  split; [eauto | done].
Qed.

Lemma preserves_update_proxy i f :
  (∀ s px, I s → proxies s !! i = Some px → I (with_proxies <[i := f px]> s)) →
  preserves I (update_proxy i f).
Proof.
  intros Hf s Hs. unfold update_proxy. destruct (proxies s !! i) eqn:E; simpl; [|done].
  split; [eauto | done].
Qed.

Lemma preserves_update_global g f :
  (∀ s t, I s → globals s !! g = Some t → I (with_globals <[g := f t]> s)) →
  preserves I (update_global g f).
Proof.
  intros Hf s Hs. unfold update_global. destruct (globals s !! g) eqn:E; simpl; [|done].
  split; [eauto | done].
Qed.
End Hoare.

Lemma run_invariant (I : Store → Prop) ops :
  (∀ o, o ∈ ops → preserves I (exec o)) → ∀ s, I s → I (run ops s).
Proof.
  induction ops as [|o ops IH]; intros Hops s Hs; simpl; [done|].
  destruct (Hops o (list_elem_of_here _ _) s Hs) as [Hs' _].
  assert (∀ s', I s' → I (run ops s')) as Hrest.
  { apply IH. intros o' Ho'. apply Hops. by right. }
  destruct (exec o s) as [[| | |] s']; simpl in *; auto.
Qed.

Ltac hoare_step :=
  lazymatch goal with
  | |- preserves _ _ => unfold preserves
  | |- hoare _ (ret _) _ => apply hoare_ret; try done
  | |- hoare _ (throw _) _ => apply hoare_throw
  | |- hoare _ diverge _ => apply hoare_diverge
  | |- hoare _ (bind _ _) _ => apply preserves_bind; [|intros ?]
  | |- hoare _ (catch _ _) _ => apply hoare_catch; [|intros ?]
  | |- hoare _ (forEach _ _) _ => apply preserves_forEach; intros ? ?
  | |- hoare _ (void _) _ => eapply preserves_void
  | |- hoare _ (match ?x with _ => _ end) _ => destruct x eqn:?
  end.

Ltac fold_preserves :=
  lazymatch goal with
  | |- hoare ?I ?m (λ _, True) => change (preserves I m)
  end.

(** ** Invariants that only a few writes can break *)

Create HintDb frame.
#[global] Hint Resolve preserves_own : frame.

(** An invariant kept by every primitive write, with the proviso that a
    write to a component never resets [finalized], is kept by every call
    into the library; without the assumption on the log and on settling
    promises, by every call but [trigger]. *)
Section Frame.
Context (I : Store → Prop).
Hypothesis I_update_comp : ∀ c f, library_write f → preserves I (update_comp c f).
Hypothesis I_update_proxy : ∀ i f, preserves I (update_proxy i f).
Hypothesis I_update_global : ∀ g f, preserves I (update_global g f).
Hypothesis I_new_promise : preserves I new_promise.
Hypothesis I_reject : ∀ p e, preserves I (reject p e).
Hypothesis I_new_proxy : preserves I new_proxy.
Hypothesis I_new_global : preserves I GlobalPubSub.
Hypothesis I_new_component : preserves I new_component.
Hypothesis I_emit : ∀ e, preserves I (emit e).
Hypothesis I_settle : ∀ r a, preserves I (modify (with_heap (settle r a))).

Lemma frame_get_comp c : preserves I (get_comp c).
Proof. by apply hoare_get_comp. Qed.
Lemma frame_get_proxy i : preserves I (get_proxy i).
Proof. by apply hoare_get_proxy. Qed.
Lemma frame_get_global g : preserves I (get_global g).
Proof. by apply hoare_get_global. Qed.

Lemma set_op_add {X} `{EqDecision X} (x : X) : set_op (jset_add x).
Proof. left. by exists x. Qed.
Lemma set_op_delete {X} `{EqDecision X} (x : X) : set_op (jset_delete x).
Proof. right. by exists x. Qed.

Hint Resolve frame_get_comp frame_get_proxy frame_get_global I_update_proxy
  I_update_global I_new_promise I_reject I_new_proxy I_new_global I_new_component
  set_op_add set_op_delete : frame.
Hint Extern 1 (preserves _ (update_comp _ _)) =>
  apply I_update_comp;
  first [ apply write_ensure | apply write_mutate; solve [eauto with frame]
        | constructor ] : frame.

Ltac frame_auto :=
  repeat first [ solve [eauto with frame]
               | solve [fold_preserves; eauto with frame]
               | hoare_step ].

Lemma frame_getTriggerSet {X} `{EqDecision X} (map : Field PSComponent X)
    `{!ComponentField map} c key :
  preserves I (PSComponent_getTriggerSet map c key).
Proof. unfold PSComponent_getTriggerSet. frame_auto. Qed.

Lemma frame_mutateSet {X} `{EqDecision X} (map : Field PSComponent X)
    `{!ComponentField map} c key f :
  set_op f → preserves I (PSComponent_mutateSet map c key f).
Proof. intros Hf. unfold PSComponent_mutateSet. by apply I_update_comp, write_mutate. Qed.

Lemma frame_proxy_getTriggerSet {X} (map : Field PubSubProxy X) i key :
  preserves I (PubSubProxy_getTriggerSet map i key).
Proof. unfold PubSubProxy_getTriggerSet. frame_auto. Qed.

Hint Resolve frame_proxy_getTriggerSet : frame.
Hint Extern 1 (preserves _ (PSComponent_getTriggerSet _ _ _)) =>
  simple eapply @frame_getTriggerSet; tc_solve : frame.
Hint Extern 1 (preserves _ (PSComponent_mutateSet _ _ _ _)) =>
  simple eapply @frame_mutateSet; [tc_solve | solve [eauto with frame]] : frame.

Lemma frame_triggerPromise c key w : preserves I (PSComponent_triggerPromise c key w).
Proof. unfold PSComponent_triggerPromise. frame_auto. Qed.

Lemma frame_triggerSubscribe c key cb : preserves I (PSComponent_triggerSubscribe c key cb).
Proof. unfold PSComponent_triggerSubscribe. frame_auto. Qed.

Lemma frame_triggerUnsubscribe c key cb :
  preserves I (PSComponent_triggerUnsubscribe c key cb).
Proof. unfold PSComponent_triggerUnsubscribe. frame_auto. Qed.

Lemma frame_trigger c key args : preserves I (PSComponent_trigger c key args).
Proof. unfold PSComponent_trigger, call_resolve, call_callback. frame_auto. Qed.

Lemma frame_async h key w : preserves I (async h key w).
Proof.
  destruct h; simpl; [|apply frame_triggerPromise..].
  unfold PubSubProxy_async, PubSubProxy_mutateSet. frame_auto.
Qed.

Lemma frame_sub h key cb : preserves I (sub h key cb).
Proof.
  destruct h; simpl; [|apply frame_triggerSubscribe..].
  unfold PubSubProxy_triggerSubscribe, PubSubProxy_mutateSet. frame_auto.
Qed.

Lemma frame_unsub h key cb : preserves I (unsub h key cb).
Proof.
  destruct h; simpl; [|apply frame_triggerUnsubscribe..].
  unfold PubSubProxy_triggerUnsubscribe, PubSubProxy_mutateSet. frame_auto.
Qed.

Hint Resolve frame_async frame_sub frame_unsub : frame.

Lemma frame_forward_promises h m : preserves I (forward_promises h m).
Proof. unfold forward_promises, forward_promise. frame_auto. Qed.

Lemma frame_forward_subscriptions h m : preserves I (forward_subscriptions h m).
Proof. unfold forward_subscriptions. frame_auto. Qed.

Hint Resolve frame_forward_promises frame_forward_subscriptions : frame.

Lemma frame_finalizeTriggers c h : preserves I (PSComponent_finalizeTriggers c h).
Proof.
  unfold PSComponent_finalizeTriggers. frame_auto.
Qed.

Lemma frame_finalize i h : preserves I (PubSubProxy_finalize i h).
Proof. unfold PubSubProxy_finalize. frame_auto. Qed.

Hint Resolve frame_finalizeTriggers frame_finalize : frame.

Lemma frame_registry_get r name : preserves I (registry_get r name).
Proof. destruct r; simpl; unfold ps_get, GlobalPubSub_get; frame_auto. Qed.

Lemma frame_registry_set r name v : preserves I (registry_set r name v).
Proof. destruct r; simpl; unfold ps_set, GlobalPubSub_set; frame_auto. Qed.

Lemma frame_assign o id v : preserves I (assign o id v).
Proof. destruct o; simpl; frame_auto. apply frame_registry_set. Qed.

Lemma frame_constructor pubsub : preserves I (constructor pubsub).
Proof. unfold constructor, link. frame_auto; apply frame_assign. Qed.

(** Every call but a trigger. *)
Lemma frame_exec_quiet o :
  (∀ c key args, o ≠ OTrigger c key args) → preserves I (exec o).
Proof.
  intros Hquiet. destruct o; simpl.
  - eapply preserves_void, frame_constructor.
  - eapply preserves_void, I_new_global.
  - eapply preserves_void, frame_registry_get.
  - apply frame_registry_set.
  - eapply preserves_void, frame_async.
  - apply frame_sub.
  - apply frame_unsub.
  - by edestruct Hquiet.
  - apply frame_finalize.
  - apply frame_finalizeTriggers.
Qed.

Lemma frame_exec o : preserves I (exec o).
Proof.
  destruct o; try (apply frame_exec_quiet; done). apply frame_trigger.
Qed.

Lemma frame_run ops s : I s → I (run ops s).
Proof. apply run_invariant. intros. apply frame_exec. Qed.
End Frame.

(** ** Sealing is permanent *)

Lemma sealed_update c0 c f s cm :
  sealed c0 s → comps s !! c = Some cm → (finalized cm = true → finalized (f cm) = true) →
  sealed c0 (with_comps <[c := f cm]> s).
Proof.
  intros (cm0 & Hc0 & Hf0) Hc Hf. unfold sealed. simpl.
  destruct (decide (c = c0)) as [->|Hne].
  - rewrite lookup_insert_eq. eexists; split; [done|]. apply Hf. congruence.
  - rewrite lookup_insert_ne by done. eauto.
Qed.

Lemma sealed_new_component c0 : preserves (sealed c0) new_component.
Proof.
  intros s (cm & Hc & Hf). split; [|done]. exists cm. split; [|done]. simpl.
  rewrite lookup_insert_ne; [done|]. intros Heq.
  apply (is_fresh (dom (comps s))). rewrite Heq. apply elem_of_dom. eauto.
Qed.

Lemma library_write_finalized f cm :
  library_write f → finalized cm = true → finalized (f cm) = true.
Proof. intros Hf. by destruct Hf. Qed.

(** Once sealed, a component is sealed after any further calls. *)
Lemma sealed_run c0 ops s : sealed c0 s → sealed c0 (run ops s).
Proof.
  apply frame_run.
  - intros c f Hf. apply preserves_update_comp. intros s' cm Hs Hc.
    apply sealed_update; auto. by apply library_write_finalized.
  - intros i f. by apply preserves_update_proxy.
  - intros g f. by apply preserves_update_global.
  - intros s' Hs. by split.
  - intros p e. by apply preserves_modify.
  - intros s' Hs. by split.
  - intros s' Hs. by split.
  - apply sealed_new_component.
  - intros e. by apply preserves_modify.
  - intros r a. by apply preserves_modify.
Qed.

Lemma sealed_forwarding c0 h m m' :
  preserves (sealed c0)
    (do! forward_promises h m in
     do! forward_subscriptions h m' in
     update_comp c0 (λ cm, fset this_promises [] (fset this_subscriptions [] cm))).
Proof.
  assert (∀ c f, library_write f → preserves (sealed c0) (update_comp c f)) as Hupd.
  { intros c f Hf. apply preserves_update_comp. intros s' cm Hs Hc.
    apply sealed_update; auto. by apply library_write_finalized. }
  apply preserves_bind; [|intros _; apply preserves_bind; [|intros _]].
  - apply frame_forward_promises; try done.
    intros i f. by apply preserves_update_proxy.
  - apply frame_forward_subscriptions; try done.
    intros i f. by apply preserves_update_proxy.
  - apply Hupd, write_clear.
Qed.

(** ** Sets of subscribers have no duplicates *)

Lemma set_op_NoDup {X} `{EqDecision X} (f : list X → list X) (l : list X) :
  set_op f → NoDup l → NoDup (f l).
Proof.
  intros [[x ->]|[x ->]] Hl; [by apply jset_add_NoDup|].
  unfold jset_delete. by apply NoDup_filter.
Qed.

Lemma library_write_distinct f cm :
  library_write f →
  (∀ key, NoDup (members key (subscriptions cm))) →
  ∀ key, NoDup (members key (subscriptions (f cm))).
Proof.
  intros Hf Hcm key. destruct Hf as [k|k|k f Hf|k f Hf|k|k| | |name v]; simpl; try done.
  - destruct (decide (k = key)) as [->|Hne].
    + rewrite members_set_eq. apply NoDup_nil_2.
    + by rewrite members_set_ne.
  - unfold jmap_mutate. destruct (jmap_get k (subscriptions cm)) as [set|] eqn:E; [|done].
    destruct (decide (k = key)) as [->|Hne].
    + rewrite members_set_eq. apply set_op_NoDup; [done|].
      specialize (Hcm key). unfold members in Hcm. by rewrite E in Hcm.
    + by rewrite members_set_ne.
  - destruct (decide (k = key)) as [->|Hne].
    + rewrite members_delete_eq. apply NoDup_nil_2.
    + by rewrite members_delete_ne.
  - apply NoDup_nil_2.
Qed.

Lemma distinct_empty : distinct empty_store.
Proof. intros c cm key Hc. simpl in Hc. by rewrite lookup_empty in Hc. Qed.

(** No call into the library puts a callback twice into a set. *)
Lemma distinct_run ops s : distinct s → distinct (run ops s).
Proof.
  apply frame_run; try (intros; by apply preserves_modify).
  - intros c f Hf. apply preserves_update_comp. intros s' cm Hs Hc c' cm' key. simpl.
    destruct (decide (c = c')) as [->|Hne].
    + rewrite lookup_insert_eq. intros [= <-].
      apply library_write_distinct; [done|]. intros key'. by eapply Hs.
    + rewrite lookup_insert_ne by done. apply Hs.
  - intros i f. by apply preserves_update_proxy.
  - intros g f. by apply preserves_update_global.
  - intros s' Hs. by split.
  - intros s' Hs. by split.
  - intros s' Hs. by split.
  - intros s' Hs. split; [|done]. intros c cm key. simpl.
    destruct (decide (fresh (dom (comps s')) = c)) as [<-|Hne].
    + rewrite lookup_insert_eq. intros [= <-]. apply NoDup_nil_2.
    + rewrite lookup_insert_ne by done. apply Hs.
Qed.

(** ** Settling promises *)

Lemma fulfil_lookup p a h q :
  fulfil p a h !! q =
    if decide (q = p ∧ h !! p = Some Pending) then Some (Fulfilled a) else h !! q.
Proof.
  unfold fulfil. destruct (h !! p) as [[| |]|] eqn:E.
  - destruct (decide (q = p)) as [->|Hne].
    + rewrite lookup_insert_eq. by rewrite decide_True.
    + rewrite lookup_insert_ne by done. by rewrite decide_False by (by intros []).
  - by rewrite decide_False by (by intros []).
  - by rewrite decide_False by (by intros []).
  - by rewrite decide_False by (by intros []).
Qed.

(** A settled promise keeps its state. *)
Lemma settle_settled r a h q st :
  h !! q = Some st → st ≠ Pending → settle r a h !! q = Some st.
Proof.
  revert h. induction r as [p|p k IH]; intros h Hq Hst; simpl.
  - rewrite fulfil_lookup. rewrite decide_False; [done|]. intros [-> ?]. congruence.
  - destruct (h !! p) as [[| |]|] eqn:E; try done.
    apply IH; [|done]. rewrite lookup_insert_ne; [done|]. intros ->. congruence.
Qed.

(** A promise outside the chain of a resolver is left alone. *)
Lemma settle_other r a h q : q ∉ chain r → settle r a h !! q = h !! q.
Proof.
  revert h. induction r as [p|p k IH]; intros h Hq; simpl in *.
  - rewrite fulfil_lookup. rewrite decide_False; [done|]. intros [-> _]. set_solver.
  - apply not_elem_of_cons in Hq as [Hne Hq].
    destruct (h !! p) as [[| |]|] eqn:E; try done.
    rewrite IH by done. by rewrite lookup_insert_ne.
Qed.

(** Calling the resolve function of a pending promise fulfils it. *)
Lemma settle_head r a h :
  h !! head r = Some Pending → settle r a h !! head r = Some (Fulfilled a).
Proof.
  destruct r as [p|p k]; simpl; intros Hp.
  - rewrite fulfil_lookup. by rewrite decide_True.
  - rewrite Hp. apply settle_settled; [apply lookup_insert_eq | done].
Qed.

(** Whatever a call of a resolve function changes, it changes from pending
    to fulfilled with the value of the call. *)
Lemma settle_lookup r a h q :
  settle r a h !! q = h !! q ∨
  (h !! q = Some Pending ∧ settle r a h !! q = Some (Fulfilled a)).
Proof.
  revert h. induction r as [p|p k IH]; intros h; simpl.
  - rewrite fulfil_lookup. case_decide as Hd; [|by left]. destruct Hd as [-> ?]. by right.
  - destruct (h !! p) as [[| |]|] eqn:E; try by left.
    destruct (decide (q = p)) as [->|Hne].
    + right. split; [done|]. apply settle_settled; [apply lookup_insert_eq | done].
    + destruct (IH (<[p:=Fulfilled a]> h)) as [Heq|[Hpend Hful]].
      * left. by rewrite Heq, lookup_insert_ne.
      * right. by rewrite lookup_insert_ne in Hpend.
Qed.

Lemma settle_all_lookup a ws h q :
  settle_all a ws h !! q = h !! q ∨
  (h !! q = Some Pending ∧ settle_all a ws h !! q = Some (Fulfilled a)).
Proof.
  revert h. unfold settle_all. induction ws as [|r ws IH]; intros h; simpl; [by left|].
  destruct (IH (settle r a h)) as [Heq|[Hpend Hful]].
  - rewrite Heq. apply settle_lookup.
  - destruct (settle_lookup r a h q) as [Heq|[Hpend' Hful']].
    + right. by rewrite <- Heq.
    + congruence.
Qed.

Lemma settle_all_other a ws h q :
  (∀ r, r ∈ ws → q ∉ chain r) → settle_all a ws h !! q = h !! q.
Proof.
  revert h. unfold settle_all. induction ws as [|r ws IH]; intros h Hq; simpl; [done|].
  rewrite IH by (intros; apply Hq; by right).
  apply settle_other, Hq. by left.
Qed.

(** Every pending promise whose resolve function is called is fulfilled
    with the value of the calls. *)
Lemma settle_all_head a ws h r :
  r ∈ ws → h !! head r = Some Pending →
  settle_all a ws h !! head r = Some (Fulfilled a).
Proof.
  revert h. unfold settle_all. induction ws as [|r' ws IH]; intros h Hr Hp; simpl.
  - by apply elem_of_nil in Hr.
  - apply elem_of_cons in Hr as [->|Hr].
    + pose proof (settle_head r' a h Hp) as Hful.
      destruct (settle_all_lookup a ws (settle r' a h) (head r')) as [Heq|[Hpend _]].
      * unfold settle_all in Heq. by rewrite Heq.
      * congruence.
    + destruct (settle_lookup r' a h (head r)) as [Heq|[_ Hful]].
      * apply IH; [done|]. by rewrite Heq.
      * destruct (settle_all_lookup a ws (settle r' a h) (head r)) as [Heq|[Hpend _]].
        -- unfold settle_all in Heq. by rewrite Heq.
        -- congruence.
Qed.

(** ** Firing on an open registry *)

(** What one [trigger] does to an open component. *)
Lemma trigger_open (s : Store) (c : nat) (key : string) (args : Args) :
  unsealed c s →
  let s' := (PSComponent_trigger c key args s).2 in
  (PSComponent_trigger c key args s).1 = Ok tt
  ∧ log s' = log s ++ map (λ r, EvResolve (head r) args) (waiters c key s)
                   ++ map (λ cb, EvCall cb args) (subscribers c key s)
  ∧ heap s' = settle_all args (waiters c key s) (heap s)
  ∧ (∀ r, r ∈ waiters c key s → heap s !! head r = Some Pending →
          heap s' !! head r = Some (Fulfilled args))
  ∧ waiters c key s' = []
  ∧ subscribers c key s' = subscribers c key s
  ∧ (∀ k, k ≠ key →
          waiters c k s' = waiters c k s ∧ subscribers c k s' = subscribers c k s)
  ∧ (waiters c key s = [] → subscribers c key s = [] →
     log s' = log s ∧ heap s' = heap s)
  ∧ unsealed c s'.
Proof.
  intros (cm & Hc & Hf). cbv zeta.
  rewrite (trigger_unsealed _ _ _ key args Hc Hf). simpl.
  unfold waiters, subscribers. simpl. rewrite Hc, lookup_insert_eq. simpl.
  split_and!; try done.
  - intros r Hr Hp. by apply settle_all_head.
  - apply members_delete_eq.
  - apply members_ensure.
  - intros k Hk. split; [by apply members_delete_ne | apply members_ensure].
  - intros -> ->. simpl. by rewrite app_nil_r.
  - eexists. split; [apply lookup_insert_eq | done].
Qed.

(** C4. On a component that is not sealed, [trigger(key, ...args)]
    returns normally; it first calls the resolve function of every pending
    waiter of [key] with [args], then every subscribed callback of [key]
    with [args], both in insertion order; every waiter that was pending is
    fulfilled with [args]; the waiter set of [key] is gone, whether or not
    there are subscribers; the subscribers of [key] and the waiters and
    subscribers of every other name are as before; and with neither waiters
    nor subscribers nothing is called and no promise changes. *)
Theorem trigger_resolves_then_calls (s : Store) (c : nat) (key : string) (args : Args) :
  unsealed c s →
  let s' := (PSComponent_trigger c key args s).2 in
  (PSComponent_trigger c key args s).1 = Ok tt
  ∧ log s' = log s ++ map (λ r, EvResolve (head r) args) (waiters c key s)
                   ++ map (λ cb, EvCall cb args) (subscribers c key s)
  ∧ heap s' = settle_all args (waiters c key s) (heap s)
  ∧ (∀ r, r ∈ waiters c key s → heap s !! head r = Some Pending →
          heap s' !! head r = Some (Fulfilled args))
  ∧ waiters c key s' = []
  ∧ subscribers c key s' = subscribers c key s
  ∧ (∀ k, k ≠ key →
          waiters c k s' = waiters c k s ∧ subscribers c k s' = subscribers c k s)
  ∧ (waiters c key s = [] → subscribers c key s = [] →
     log s' = log s ∧ heap s' = heap s)
  ∧ unsealed c s'.
Proof. apply trigger_open. Qed.

Lemma trigger_resolves_then_calls_witness :
  let s := (do! PSComponent_triggerSubscribe 0 "m" 7 in
            PSComponent_triggerPromise 0 "m" Consumer)
             (constructor None empty_store).2 in
  log (PSComponent_trigger 0 "m" [VNum 1] s.2).2 =
    [EvResolve 0 [VNum 1]; EvCall 7 [VNum 1]].
Proof.
  cbv zeta.
  refine (proj1 (proj2 (trigger_resolves_then_calls _ 0 "m" [VNum 1] _))).
  eexists. split; [vm_compute; reflexivity | reflexivity].
Defined.

(** ** Operations on a sealed component *)

Lemma finalizeTriggers_seals s c h :
  is_Some (comps s !! c) → sealed c (PSComponent_finalizeTriggers c h s).2.
Proof.
  intros [cm Hc]. unfold PSComponent_finalizeTriggers.
  rewrite (bind_ok _ _ _ _ _ (get_comp_ok _ _ _ Hc)).
  destruct (finalized cm) eqn:Hf; [by exists cm|].
  rewrite (bind_ok _ _ _ _ _ (update_comp_ok _ _ _ _ Hc)).
  apply sealed_forwarding. eexists. split; [apply comps_insert_lookup | done].
Qed.

(** Every operation on a sealed component raises and leaves the
    registries alone. *)
Lemma sealed_raises (s' : Store) (c : nat) :
  sealed c s' →
  ∀ (handle : Handle) (key : string) (cb : Callback) (args : Args) (h : Handle),
    real handle = Some c →
    sub handle key cb s' = (Throw AlreadyFinalized, s')
    ∧ unsub handle key cb s' = (Throw AlreadyFinalized, s')
    ∧ PSComponent_trigger c key args s' = (Throw AlreadyFinalized, s')
    ∧ PSComponent_finalizeTriggers c h s' = (Throw AlreadyFinalized, s')
    ∧ ∃ p, heap s' !! p = None
           ∧ async handle key Consumer s' =
               (Ok p, with_heap <[p := Rejected AlreadyFinalized]> s').
Proof.
  intros (cm & Hcm & Hf) handle key cb args h Hreal.
  assert (sub handle key cb = PSComponent_triggerSubscribe c key cb
          ∧ unsub handle key cb = PSComponent_triggerUnsubscribe c key cb
          ∧ async handle key Consumer = PSComponent_triggerPromise c key Consumer)
    as (-> & -> & ->).
  { destruct handle; simpl in *; simplify_eq; done. }
  split_and!.
  - by eapply triggerSubscribe_sealed.
  - by eapply triggerUnsubscribe_sealed.
  - by eapply trigger_sealed.
  - unfold PSComponent_finalizeTriggers.
    rewrite (bind_ok _ _ _ _ _ (get_comp_ok _ _ _ Hcm)). by rewrite Hf.
  - exists (fresh (dom (heap s'))). split.
    + apply not_elem_of_dom, is_fresh.
    + by eapply triggerPromise_sealed.
Qed.

(** C5. Once [finalizeTriggers] has run on a component, then after any
    further calls into the library: subscribing, unsubscribing and firing
    throw [Error("Already finalized.")] and leave the store as it is; so
    does another [finalizeTriggers]; and a promise request, being an
    [async] function, hands out a fresh promise rejected with that error
    and leaves every registry as it is. *)
Theorem sealed_component_raises (s : Store) (c : nat) (h0 : Handle) (ops : list Op) :
  is_Some (comps s !! c) →
  let s' := run ops (PSComponent_finalizeTriggers c h0 s).2 in
  ∀ (handle : Handle) (key : string) (cb : Callback) (args : Args) (h : Handle),
    real handle = Some c →
    sub handle key cb s' = (Throw AlreadyFinalized, s')
    ∧ unsub handle key cb s' = (Throw AlreadyFinalized, s')
    ∧ PSComponent_trigger c key args s' = (Throw AlreadyFinalized, s')
    ∧ PSComponent_finalizeTriggers c h s' = (Throw AlreadyFinalized, s')
    ∧ ∃ p, heap s' !! p = None
           ∧ async handle key Consumer s' =
               (Ok p, with_heap <[p := Rejected AlreadyFinalized]> s').
Proof.
  intros Hc s'. apply sealed_raises, sealed_run. by apply finalizeTriggers_seals.
Qed.

Lemma sealed_component_raises_witness :
  let s := (constructor None empty_store).2 in
  let s' := run [OSub (HObject 0) "m" 1; OTrigger 0 "m" []]
              (PSComponent_finalizeTriggers 0 (HProxy 5) s).2 in
  sub (HObject 0) "m" 7 s' = (Throw AlreadyFinalized, s').
Proof.
  cbv zeta.
  refine (proj1 (sealed_component_raises _ 0 (HProxy 5) _ _ (HObject 0) "m" 7 [] (HProxy 5) eq_refl)).
  vm_compute. eauto.
Defined.

(** ** The operations of a placeholder, one call at a time *)

Section ProxyCalls.
Context {X : Type} `{EqDecision X} (map : Field PubSubProxy X) `{!ProxyField map}.
Implicit Types (s : Store) (i : nat) (px : PubSubProxy) (key : string).

Lemma proxy_getTriggerSet_ok s i px key :
  proxies s !! i = Some px →
  PubSubProxy_getTriggerSet map i key s =
    (Ok (members key (fget map px)),
     with_proxies <[i := fset map (jmap_ensure key (fget map px)) px]> s).
Proof.
  intros Hi. unfold PubSubProxy_getTriggerSet.
  rewrite (bind_ok _ _ _ _ _ (get_proxy_ok _ _ _ Hi)).
  unfold jmap_ensure, members. destruct (jmap_get key (fget map px)) eqn:E; simpl.
  - unfold ret. by rewrite fset_fget_p, with_proxies_insert_id.
  - by rewrite (bind_ok _ _ _ _ _ (update_proxy_ok _ _ _ _ Hi)).
Qed.

Lemma proxy_getTriggerSet_mutate s i px key (f : list X → list X) :
  proxies s !! i = Some px →
  (let! _ := PubSubProxy_getTriggerSet map i key in
   PubSubProxy_mutateSet map i key f) s =
    (Ok tt, with_proxies
              <[i := fset map (jmap_set key (f (members key (fget map px))) (fget map px)) px]> s).
Proof.
  intros Hi.
  rewrite (bind_ok _ _ _ _ _ (proxy_getTriggerSet_ok _ _ _ key Hi)).
  unfold PubSubProxy_mutateSet.
  rewrite (update_proxy_ok _ _ _ _ (proxies_insert_lookup _ _ _)).
  by rewrite with_proxies_insert_insert, fget_fset_p, fset_fset_p, jmap_mutate_ensure.
Qed.
End ProxyCalls.

Section ProxyEquations.
Implicit Types (s : Store) (i : nat) (px : PubSubProxy) (key : string).

Lemma proxy_triggerSubscribe_ok s i px key cb :
  proxies s !! i = Some px →
  PubSubProxy_triggerSubscribe i key cb s =
    (Ok tt, with_proxies
              <[i := fset proxy_subscriptions (jmap_add key cb (px_subscriptions px)) px]> s).
Proof.
  intros Hi. exact (proxy_getTriggerSet_mutate proxy_subscriptions _ _ _ key (jset_add cb) Hi).
Qed.

Lemma proxy_triggerUnsubscribe_ok s i px key cb :
  proxies s !! i = Some px →
  PubSubProxy_triggerUnsubscribe i key cb s =
    (Ok tt, with_proxies
              <[i := fset proxy_subscriptions (jmap_remove key cb (px_subscriptions px)) px]> s).
Proof.
  intros Hi. unfold PubSubProxy_triggerUnsubscribe.
  rewrite (bind_ok _ _ _ _ _ (proxy_getTriggerSet_ok proxy_subscriptions _ _ _ key Hi)).
  unfold PubSubProxy_mutateSet.
  rewrite (bind_ok _ _ _ _ _ (update_proxy_ok _ _ _ _ (proxies_insert_lookup _ _ _))).
  rewrite with_proxies_insert_insert.
  rewrite (bind_ok _ _ _ _ _ (get_proxy_ok _ _ _ (proxies_insert_lookup _ _ _))).
  simpl. rewrite jmap_mutate_ensure, members_set_eq. unfold jmap_remove.
  destruct (decide (length (jset_delete cb (members key (px_subscriptions px))) = 0)).
  - rewrite (update_proxy_ok _ _ _ _ (proxies_insert_lookup _ _ _)).
    rewrite with_proxies_insert_insert. simpl. by rewrite jmap_delete_set.
  - done.
Qed.

Lemma proxy_async_ok s i px key w :
  proxies s !! i = Some px →
  let p := fresh (dom (heap s)) in
  PubSubProxy_async i key w s =
    (Ok p, with_proxies
             <[i := fset proxy_promises (jmap_add key (resolver_of p w) (px_promises px)) px]>
             (with_heap <[p := Pending]> s)).
Proof.
  intros Hi p. unfold PubSubProxy_async, new_promise.
  unfold bind at 1. fold p.
  erewrite bind_ok; [done|]. apply catch_ok.
  refine (proxy_getTriggerSet_mutate proxy_promises _ _ _ key _ _).
  simpl. by rewrite Hi.
Qed.
End ProxyEquations.

(** ** Counting calls *)

Lemma calls_app cb a l1 l2 : calls cb a (l1 ++ l2) = calls cb a l1 + calls cb a l2.
Proof. unfold calls. by rewrite filter_app, length_app. Qed.

Lemma calls_resolves cb a args (ws : list Resolver) :
  calls cb a (map (λ r, EvResolve (head r) args) ws) = 0.
Proof.
  unfold calls. induction ws as [|r ws IH]; [done|]. simpl.
  rewrite filter_cons. by rewrite decide_False.
Qed.

Lemma calls_absent cb a (cbs : list Callback) :
  cb ∉ cbs → calls cb a (map (λ x, EvCall x a) cbs) = 0.
Proof.
  unfold calls. induction cbs as [|x cbs IH]; [done|]. simpl.
  intros [Hne Hcb]%not_elem_of_cons. rewrite filter_cons.
  rewrite decide_False by congruence. by apply IH.
Qed.

Lemma calls_member cb a (cbs : list Callback) :
  NoDup cbs → cb ∈ cbs → calls cb a (map (λ x, EvCall x a) cbs) = 1.
Proof.
  induction cbs as [|x cbs IH]; intros Hnd Hcb; [by apply elem_of_nil in Hcb|].
  apply NoDup_cons in Hnd as [Hx Hnd]. unfold calls. simpl. rewrite filter_cons.
  destruct (decide (x = cb)) as [->|Hne].
  - rewrite decide_True by done. simpl. f_equal. by apply calls_absent.
  - rewrite decide_False by congruence. apply IH; [done|].
    apply elem_of_cons in Hcb as [->|]; done.
Qed.

Lemma calls_other_args cb a a' (cbs : list Callback) :
  a ≠ a' → calls cb a (map (λ x, EvCall x a') cbs) = 0.
Proof.
  intros Hne. unfold calls. induction cbs as [|x cbs IH]; [done|]. simpl.
  rewrite filter_cons. by rewrite decide_False by congruence.
Qed.

Lemma events_since_app s s' l : log s' = log s ++ l → events_since s s' = l.
Proof. intros Hlog. unfold events_since. by rewrite Hlog, drop_app_length. Qed.

(** What the subscribers of an open component get from one trigger. *)
Lemma trigger_calls s c key args cb :
  unsealed c s → NoDup (subscribers c key s) → cb ∈ subscribers c key s →
  calls cb args (events_since s (PSComponent_trigger c key args s).2) = 1.
Proof.
  intros Hc Hnd Hcb.
  destruct (trigger_open s c key args Hc) as (_ & Hlog & _).
  rewrite (events_since_app _ _ _ Hlog), calls_app, calls_resolves.
  by apply calls_member.
Qed.

(** ** Subscribing twice *)

(** C7. Subscribing the same callback to the same name a second time, on
    a component or on a placeholder, ends as the first call ended and
    leaves the store exactly as the first call left it; and on an open
    component, in a store whose sets of subscribers have no duplicates, a
    trigger of that name after the two calls calls the callback once. *)
Theorem subscribe_idempotent (s : Store) (handle : Handle) (key : string) (cb : Callback) :
  let once := sub handle key cb s in
  let twice := sub handle key cb once.2 in
  twice = once
  ∧ ∀ c args, real handle = Some c → unsealed c s → distinct s →
      calls cb args (events_since twice.2 (PSComponent_trigger c key args twice.2).2) = 1.
Proof.
  cbv zeta.
  assert (∀ c, sub handle key cb = PSComponent_triggerSubscribe c key cb →
               PSComponent_triggerSubscribe c key cb
                 (PSComponent_triggerSubscribe c key cb s).2
               = PSComponent_triggerSubscribe c key cb s) as Hcomp.
  { intros c _. destruct (comps s !! c) as [cm|] eqn:Hc.
    - destruct (finalized cm) eqn:Hf.
      + rewrite (triggerSubscribe_sealed _ _ _ key cb Hc Hf). simpl.
        by apply (triggerSubscribe_sealed _ _ cm).
      + rewrite (triggerSubscribe_unsealed _ _ _ key cb Hc Hf). simpl.
        erewrite triggerSubscribe_unsealed; [|apply comps_insert_lookup|done].
        rewrite with_comps_insert_insert. simpl. by rewrite jmap_add_idem.
    - unfold PSComponent_triggerSubscribe, PSComponent_getTriggerSet, bind, get_comp.
      rewrite Hc. simpl. by rewrite Hc. }
  split.
  - destruct handle as [i|c|c]; simpl; [|by apply Hcomp..].
    destruct (proxies s !! i) as [px|] eqn:Hi.
    + rewrite (proxy_triggerSubscribe_ok _ _ _ key cb Hi). simpl.
      erewrite proxy_triggerSubscribe_ok; [|apply proxies_insert_lookup].
      rewrite with_proxies_insert_insert. simpl. by rewrite jmap_add_idem.
    + unfold PubSubProxy_triggerSubscribe, PubSubProxy_getTriggerSet, bind, get_proxy.
      rewrite Hi. simpl. by rewrite Hi.
  - intros c args Hreal (cm & Hc & Hf) Hdistinct.
    pose proof (Hdistinct c cm key Hc) as Hnd.
    assert (sub handle key cb = PSComponent_triggerSubscribe c key cb) as Hsub.
    { destruct handle; simpl in *; by simplify_eq. }
    rewrite Hsub, (Hcomp c Hsub).
    rewrite (triggerSubscribe_unsealed _ _ _ key cb Hc Hf). simpl.
    apply trigger_calls.
    + eexists. split; [apply comps_insert_lookup | done].
    + unfold subscribers. rewrite comps_insert_lookup. simpl.
      unfold jmap_add. rewrite members_set_eq. by apply jset_add_NoDup.
    + unfold subscribers. rewrite comps_insert_lookup. simpl.
      unfold jmap_add. rewrite members_set_eq. apply jset_add_elem. by left.
Qed.

Lemma subscribe_idempotent_witness :
  let s := run [ONew None; OSub (HObject 0) "m" 3] empty_store in
  let twice := sub (HObject 0) "m" 7 (sub (HObject 0) "m" 7 s).2 in
  calls 7 [VNum 1] (events_since twice.2 (PSComponent_trigger 0 "m" [VNum 1] twice.2).2) = 1.
Proof.
  cbv zeta.
  refine (proj2 (subscribe_idempotent _ (HObject 0) "m" 7) 0 [VNum 1] eq_refl _ _).
  - eexists. split; [vm_compute; reflexivity | reflexivity].
  - apply distinct_run, distinct_empty.
Defined.

(** ** Forwarding onto an open component *)

Section AddAll.
Context {X : Type} `{EqDecision X}.
Implicit Types (m t : JsMap X) (xs : list X) (x : X) (k key : string).

Lemma members_add key x k t :
  members k (jmap_add key x t) =
    if decide (key = k) then jset_add x (members k t) else members k t.
Proof.
  unfold jmap_add. case_decide as Hk.
  - subst. apply members_set_eq.
  - by apply members_set_ne.
Qed.

Lemma add_members_other key xs k t :
  key ≠ k → members k (add_members key xs t) = members k t.
Proof.
  intros Hne. revert t. induction xs as [|x xs IH]; intros t; simpl; [done|].
  unfold add_members in *. simpl. rewrite IH, members_add. by rewrite decide_False.
Qed.

Lemma add_members_elem key xs t x :
  x ∈ members key (add_members key xs t) ↔ x ∈ members key t ∨ x ∈ xs.
Proof.
  revert t. induction xs as [|y xs IH]; intros t; simpl.
  - set_solver.
  - unfold add_members in *. simpl. rewrite IH, members_add.
    rewrite decide_True by done. rewrite jset_add_elem. set_solver.
Qed.

Lemma add_members_NoDup key xs k t :
  NoDup (members k t) → NoDup (members k (add_members key xs t)).
Proof.
  revert t. induction xs as [|y xs IH]; intros t Hnd; simpl; [done|].
  unfold add_members in *. simpl. apply IH. rewrite members_add.
  case_decide; [by apply jset_add_NoDup | done].
Qed.

Lemma add_all_elem m t k x :
  x ∈ members k (add_all m t) ↔ x ∈ members k t ∨ ∃ xs, (k, xs) ∈ m ∧ x ∈ xs.
Proof.
  revert t. induction m as [|[key ys] m IH]; intros t; simpl.
  - split; [by left | intros [?|(? & ?%elem_of_nil & _)]; done].
  - unfold add_all in *. simpl. rewrite IH. destruct (decide (key = k)) as [->|Hne].
    + rewrite add_members_elem. split.
      * intros [[?|?]|(xs & ? & ?)]; [by left | right; exists ys | right; exists xs].
        -- split; [by left | done].
        -- split; [by right | done].
      * intros [?|(xs & [[= <-]|?]%elem_of_cons & ?)]; [by left; left| |].
        -- by left; right.
        -- right. by exists xs.
    + rewrite add_members_other by done. split.
      * intros [?|(xs & ? & ?)]; [by left | right; exists xs]. split; [by right | done].
      * intros [?|(xs & [[= ? ?]|?]%elem_of_cons & ?)]; [by left | done |].
        right. by exists xs.
Qed.

Lemma add_all_NoDup m t k : NoDup (members k t) → NoDup (members k (add_all m t)).
Proof.
  revert t. induction m as [|[key ys] m IH]; intros t Hnd; simpl; [done|].
  unfold add_all in *. simpl. by apply IH, add_members_NoDup.
Qed.

Lemma jmap_get_elem key m xs : jmap_get key m = Some xs → (key, xs) ∈ m.
Proof.
  induction m as [|[k ys] m IH]; simpl; [done|].
  case_decide as Hk; [intros [= ->]; subst; by left|]. intros. right. by apply IH.
Qed.

Lemma members_elem key m x : x ∈ members key m → ∃ xs, (key, xs) ∈ m ∧ x ∈ xs.
Proof.
  unfold members. destruct (jmap_get key m) as [xs|] eqn:E; simpl.
  - intros Hx. exists xs. split; [by apply jmap_get_elem | done].
  - by intros ?%elem_of_nil.
Qed.
End AddAll.

Section ForwardToComponent.
Context (target : Handle) (c : nat) (Hreal : real target = Some c).
Implicit Types (s : Store) (cm : PSComponent) (key : string).

Lemma sub_real key cb : sub target key cb = PSComponent_triggerSubscribe c key cb.
Proof. destruct target; simpl in *; by simplify_eq. Qed.

Lemma async_real key w : async target key w = PSComponent_triggerPromise c key w.
Proof. destruct target; simpl in *; by simplify_eq. Qed.

Lemma forEach_sub_open key cbs s cm :
  comps s !! c = Some cm → finalized cm = false →
  forEach cbs (sub target key) s =
    (Ok tt, with_comps
              <[c := fset this_subscriptions (add_members key cbs (subscriptions cm)) cm]> s).
Proof.
  revert s cm. induction cbs as [|cb cbs IH]; intros s cm Hc Hf; simpl.
  - unfold ret. rewrite with_comps_insert_id; [done|]. by destruct cm.
  - rewrite sub_real.
    rewrite (bind_ok _ _ _ _ _ (triggerSubscribe_unsealed _ _ _ key cb Hc Hf)).
    erewrite IH; [|apply comps_insert_lookup|done].
    by rewrite with_comps_insert_insert.
Qed.

Lemma forward_subscriptions_open m s cm :
  comps s !! c = Some cm → finalized cm = false →
  forward_subscriptions target m s =
    (Ok tt, with_comps
              <[c := fset this_subscriptions (add_all m (subscriptions cm)) cm]> s).
Proof.
  unfold forward_subscriptions.
  revert s cm. induction m as [|[key cbs] m IH]; intros s cm Hc Hf; simpl.
  - unfold ret. rewrite with_comps_insert_id; [done|]. by destruct cm.
  - rewrite (bind_ok _ _ _ _ _ (forEach_sub_open key cbs _ _ Hc Hf)).
    erewrite IH; [|apply comps_insert_lookup|done].
    by rewrite with_comps_insert_insert.
Qed.

Lemma forEach_forward_promise_open key rs s cm :
  comps s !! c = Some cm → finalized cm = false →
  forEach rs (forward_promise target key) s =
    (Ok tt, mkStore
              (<[c := fset this_promises
                        (relay_members key rs (promises cm, heap s)).1 cm]> (comps s))
              (proxies s) (globals s)
              (relay_members key rs (promises cm, heap s)).2 (log s)).
Proof.
  revert s cm. induction rs as [|r rs IH]; intros s cm Hc Hf; simpl.
  - unfold ret. f_equal. rewrite insert_id; [apply eq_sym, store_eta | by destruct cm].
  - unfold forward_promise at 1. rewrite async_real.
    pose proof (triggerPromise_unsealed _ _ _ key (Forward r) Hc Hf) as Heq.
    cbv zeta in Heq. unfold bind at 1. unfold bind at 1. rewrite Heq. unfold ret at 1.
    erewrite IH; [|apply comps_insert_lookup|done]. simpl.
    by rewrite insert_insert_eq.
Qed.

Lemma forward_promises_open m s cm :
  comps s !! c = Some cm → finalized cm = false →
  forward_promises target m s =
    (Ok tt, mkStore
              (<[c := fset this_promises (relay_all m (promises cm, heap s)).1 cm]> (comps s))
              (proxies s) (globals s)
              (relay_all m (promises cm, heap s)).2 (log s)).
Proof.
  unfold forward_promises.
  revert s cm. induction m as [|[key rs] m IH]; intros s cm Hc Hf; simpl.
  - unfold ret. f_equal. rewrite insert_id; [apply eq_sym, store_eta | by destruct cm].
  - rewrite (bind_ok _ _ _ _ _ (forEach_forward_promise_open key rs _ _ Hc Hf)).
    erewrite IH; [|apply lookup_insert_eq|done]. simpl.
    rewrite insert_insert_eq. unfold relay_all. simpl.
    by destruct (relay_members key rs (promises cm, heap s)).
Qed.

(** [placeholder.finalize(target)] for an open component behind [target]. *)
Lemma finalize_open i px s cm :
  proxies s !! i = Some px → comps s !! c = Some cm → finalized cm = false →
  PubSubProxy_finalize i target s =
    (Ok tt, mkStore
              (<[c := fset this_subscriptions
                        (add_all (px_subscriptions px) (subscriptions cm))
                        (fset this_promises
                           (relay_all (px_promises px) (promises cm, heap s)).1 cm)]>
                 (comps s))
              (<[i := mkPubSubProxy [] []]> (proxies s)) (globals s)
              (relay_all (px_promises px) (promises cm, heap s)).2 (log s)).
Proof.
  intros Hi Hc Hf. unfold PubSubProxy_finalize.
  rewrite (bind_ok _ _ _ _ _ (get_proxy_ok _ _ _ Hi)).
  rewrite decide_False.
  2:{ intros [-> _]. done. }
  rewrite (bind_ok _ _ _ _ _ (forward_promises_open _ _ _ Hc Hf)).
  match goal with |- bind _ _ ?s1 = _ =>
    pose proof (forward_subscriptions_open (px_subscriptions px) s1 _
                  (lookup_insert_eq _ _ _) Hf) as Hsubs
  end.
  rewrite (bind_ok _ _ _ _ _ Hsubs).
  unfold update_proxy. simpl. rewrite Hi. unfold with_proxies, with_comps. simpl.
  by rewrite insert_insert_eq.
Qed.
End ForwardToComponent.

(** ** Only a trigger calls anything *)

Lemma quiet_exec o s :
  (∀ c key args, o ≠ OTrigger c key args) → log (exec o s).2 = log s.
Proof.
  intros Hquiet.
  apply (frame_exec_quiet (λ s', log s' = log s)); try done.
  all: intros; first [ by apply preserves_update_comp | by apply preserves_update_proxy
                     | by apply preserves_update_global | by apply preserves_modify ].
Qed.

Lemma void_store {A} (m : M A) s : (void m s).2 = (m s).2.
Proof. unfold void, bind, ret. by destruct (m s) as [[| | |] ?]. Qed.

(** ** A placeholder forwards its subscriptions *)

(** C1. A placeholder is finalized onto a real handle whose component is
    open, in a store whose sets of subscribers have no duplicates.  Then
    [finalize]
    returns normally and calls nothing; both maps of the placeholder are
    empty; the subscriptions of the component are those it had with
    [sub.<name>(cb)] applied once for each buffered callback, in the order
    of the buffer; so every buffered callback is a subscriber of its name,
    once, and a trigger of that name on the component calls it once with
    the arguments of the trigger.  No operation of a placeholder calls a
    callback. *)
Theorem placeholder_forwards_subscriptions
    (s : Store) (i c : nat) (target : Handle) (px : PubSubProxy) (cm : PSComponent) :
  proxies s !! i = Some px → real target = Some c →
  comps s !! c = Some cm → finalized cm = false → distinct s →
  let s' := (PubSubProxy_finalize i target s).2 in
  (PubSubProxy_finalize i target s).1 = Ok tt
  ∧ log s' = log s
  ∧ proxies s' !! i = Some (mkPubSubProxy [] [])
  ∧ unsealed c s'
  ∧ (∃ cm', comps s' !! c = Some cm'
            ∧ subscriptions cm' = add_all (px_subscriptions px) (subscriptions cm))
  ∧ (∀ key, NoDup (subscribers c key s'))
  ∧ (∀ key cb, cb ∈ members key (px_subscriptions px) →
       cb ∈ subscribers c key s'
       ∧ ∀ args, (PSComponent_trigger c key args s').1 = Ok tt
                 ∧ calls cb args (events_since s' (PSComponent_trigger c key args s').2) = 1)
  ∧ (∀ s0 j key cb,
       log (PubSubProxy_triggerSubscribe j key cb s0).2 = log s0
       ∧ log (PubSubProxy_triggerUnsubscribe j key cb s0).2 = log s0
       ∧ log (PubSubProxy_async j key Consumer s0).2 = log s0).
Proof.
  intros Hi Hreal Hc Hf Hdistinct. cbv zeta.
  assert (∀ key, NoDup (members key (subscriptions cm))) as Hnd
    by (intros key; by eapply Hdistinct).
  rewrite (finalize_open target c Hreal i px s cm Hi Hc Hf). simpl.
  assert (∀ key, NoDup (subscribers c key
            (mkStore
               (<[c := fset this_subscriptions
                         (add_all (px_subscriptions px) (subscriptions cm))
                         (fset this_promises
                            (relay_all (px_promises px) (promises cm, heap s)).1 cm)]>
                  (comps s))
               (<[i := mkPubSubProxy [] []]> (proxies s)) (globals s)
               (relay_all (px_promises px) (promises cm, heap s)).2 (log s)))) as Hnd'.
  { intros key. unfold subscribers. simpl. rewrite lookup_insert_eq. simpl.
    by apply add_all_NoDup. }
  assert (∀ s1 cm1, comps s1 !! c = Some cm1 → finalized cm1 = false → unsealed c s1)
    as Hopen by (intros; eexists; eauto).
  split_and!; try done.
  - apply lookup_insert_eq.
  - eapply Hopen; [apply lookup_insert_eq | done].
  - eexists. split; [apply lookup_insert_eq | done].
  - intros key cb Hcb.
    match goal with |- _ ∈ subscribers c key ?s1 ∧ _ =>
      assert (cb ∈ subscribers c key s1) as Hin
    end.
    { unfold subscribers. simpl. rewrite lookup_insert_eq. simpl.
      apply add_all_elem. right. by apply members_elem. }
    split; [done|]. intros args. split.
    + eapply trigger_open, Hopen; [apply lookup_insert_eq | done].
    + apply trigger_calls; [|done..].
      eapply Hopen; [apply lookup_insert_eq | done].
  - intros s0 j key cb. split_and!.
    + apply (quiet_exec (OSub (HProxy j) key cb)). done.
    + apply (quiet_exec (OUnsub (HProxy j) key cb)). done.
    + rewrite <- (void_store (PubSubProxy_async j key Consumer)).
      apply (quiet_exec (OAsync (HProxy j) key)). done.
Qed.

Lemma placeholder_forwards_subscriptions_witness :
  let s := run [ONewGlobal; OGet (Global 0) "child"; OSub (HProxy 0) "m" 7; ONew None]
             empty_store in
  let s' := (PubSubProxy_finalize 0 (HObject 0) s).2 in
  (PSComponent_trigger 0 "m" [VNum 1; VNum 2] s').1 = Ok tt
  ∧ calls 7 [VNum 1; VNum 2]
      (events_since s' (PSComponent_trigger 0 "m" [VNum 1; VNum 2] s').2) = 1.
Proof.
  cbv zeta.
  refine (proj2 (proj1 (proj2 (proj2 (proj2 (proj2 (proj2 (proj2
    (placeholder_forwards_subscriptions _ 0 0 (HObject 0)
       (mkPubSubProxy [] [("m", [7])]) (mkPSComponent [] [] false ∅)
       _ eq_refl _ eq_refl _))))))) "m" 7 _) [VNum 1; VNum 2]).
  - vm_compute. reflexivity.
  - vm_compute. reflexivity.
  - apply distinct_run, distinct_empty.
  - unfold members. simpl. apply list_elem_of_here.
Defined.

(** ** Finalizing a placeholder again *)

Lemma bind_ok_inv {A B} (m : M A) (f : A → M B) s b :
  (bind m f s).1 = Ok b → ∃ a s1, m s = (Ok a, s1) ∧ bind m f s = f a s1.
Proof.
  unfold bind. destruct (m s) as [[a| | |] s1]; simpl; try done. eauto.
Qed.

(** A [finalize] that returned has left both maps of the placeholder empty. *)
Lemma finalize_ok_cleared s i h :
  (PubSubProxy_finalize i h s).1 = Ok tt →
  proxies (PubSubProxy_finalize i h s).2 !! i = Some (mkPubSubProxy [] []).
Proof.
  intros Hok. unfold PubSubProxy_finalize in *.
  apply bind_ok_inv in Hok as Hinv. destruct Hinv as (px & s1 & _ & Heq).
  rewrite Heq in Hok |- *. clear Heq.
  case_decide; [done|].
  apply bind_ok_inv in Hok as Hinv. destruct Hinv as (? & s2 & _ & Heq).
  rewrite Heq in Hok |- *. clear Heq.
  apply bind_ok_inv in Hok as Hinv. destruct Hinv as (? & s3 & _ & Heq).
  rewrite Heq in Hok |- *. clear Heq.
  unfold update_proxy in *. destruct (proxies s3 !! i); [|done].
  simpl. apply lookup_insert_eq.
Qed.

(** With both maps empty, [finalize] does nothing. *)
Lemma finalize_empty s i h :
  proxies s !! i = Some (mkPubSubProxy [] []) → PubSubProxy_finalize i h s = (Ok tt, s).
Proof.
  intros Hi. unfold PubSubProxy_finalize.
  rewrite (bind_ok _ _ _ _ _ (get_proxy_ok _ _ _ Hi)). simpl.
  rewrite decide_False by (by intros [_ ?]).
  unfold forward_promises, forward_subscriptions. simpl.
  unfold bind, ret, update_proxy. rewrite Hi. simpl.
  by rewrite with_proxies_insert_id.
Qed.

(** C6, as the code has it.  A second [finalize] on a placeholder is not an
    error: right after a [finalize] that returned, a second one, onto any
    handle, returns normally and leaves the store as it is. *)
Theorem placeholder_finalize_again (s : Store) (i : nat) (h1 h2 : Handle) :
  (PubSubProxy_finalize i h1 s).1 = Ok tt →
  PubSubProxy_finalize i h2 (PubSubProxy_finalize i h1 s).2 =
    (Ok tt, (PubSubProxy_finalize i h1 s).2).
Proof. intros Hok. by apply finalize_empty, finalize_ok_cleared. Qed.

Lemma placeholder_finalize_again_witness :
  let s := one_placeholder_two_components in
  PubSubProxy_finalize 0 (HObject 1) (PubSubProxy_finalize 0 (HObject 0) s).2 =
    (Ok tt, (PubSubProxy_finalize 0 (HObject 0) s).2).
Proof.
  cbv zeta. apply (placeholder_finalize_again _ 0 (HObject 0) (HObject 1)).
  vm_compute. reflexivity.
Defined.

(** C6, as stated, fails: the second [finalize] of a placeholder returns
    normally. *)
Lemma placeholder_finalize_twice_returns :
  let s := one_placeholder_two_components in
  let first := PubSubProxy_finalize 0 (HObject 0) s in
  let second := PubSubProxy_finalize 0 (HObject 1) first.2 in
  first.1 = Ok tt ∧ second.1 = Ok tt ∧ ¬ ∃ e, second.1 = Throw e.
Proof. vm_compute. split_and!; [done..|]. by intros [e ?]. Qed.

(** ** Deferred binding, end to end *)

(** The promise requested from the placeholder is fulfilled by the first
    fire of the publisher that took the name. *)
Example end_to_end_resolves :
  ∃ awaited, end_to_end.1 = Ok awaited
             ∧ heap end_to_end.2 !! awaited = Some (Fulfilled [VText "hello"]).
Proof. exists 0. vm_compute. done. Qed.

Lemma store_property_ordinary name value t :
  name ≠ "__proto__" → store_property name value t = <[name := value]> t.
Proof. intros Hname. unfold store_property. by rewrite decide_False. Qed.

Lemma bind_ext {A B} (m : M A) (f g : A → M B) s :
  (∀ a s', f a s' = g a s') → bind m f s = bind m g s.
Proof. intros Hfg. unfold bind. by destruct (m s) as [[| | |] ?]. Qed.

Lemma update_comp_store c name value s :
  name ≠ "__proto__" →
  update_comp c (λ cm, set_ps (store_property name value (ps cm)) cm) s =
    update_comp c (λ cm, set_ps (<[name := value]> (ps cm)) cm) s.
Proof.
  intros Hname. unfold update_comp. destruct (comps s !! c); [|done].
  by rewrite store_property_ordinary.
Qed.

Lemma update_global_store g name value s :
  name ≠ "__proto__" →
  update_global g (store_property name value) s = update_global g <[name := value]> s.
Proof.
  intros Hname. unfold update_global. destruct (globals s !! g); [|done].
  by rewrite store_property_ordinary.
Qed.

(** On a target whose [hasOwnProperty] is the inherited method, the call
    answers with the slot of an ordinary name. *)
Lemma own_ordinary t name s :
  t !! "hasOwnProperty" = None → name ≠ "__proto__" → own t name s = (Ok (t !! name), s).
Proof.
  intros Hintact Hname. unfold own.
  rewrite decide_False by (rewrite Hintact; by intros [? ?]).
  by rewrite decide_False.
Qed.

(** The two set traps at a name other than [__proto__], on a target whose
    [hasOwnProperty] is the inherited method. *)
Lemma ps_set_ordinary s c cm name value :
  comps s !! c = Some cm → ps cm !! "hasOwnProperty" = None → name ≠ "__proto__" →
  ps_set c name value s =
    (do! match ps cm !! name with
         | Some (HProxy i) => PubSubProxy_finalize i value
         | Some _ => PSComponent_finalizeTriggers c value
         | None => ret tt
         end in
     update_comp c (λ cm, set_ps (<[name := value]> (ps cm)) cm)) s.
Proof.
  intros Hc Hintact Hname. unfold ps_set.
  rewrite (bind_ok _ _ _ _ _ (get_comp_ok _ _ _ Hc)).
  rewrite (bind_ok _ _ _ _ _ (own_ordinary _ _ _ Hintact Hname)).
  apply bind_ext; intros; by apply update_comp_store.
Qed.

Lemma global_set_ordinary s g t name value :
  globals s !! g = Some t → t !! "hasOwnProperty" = None → name ≠ "__proto__" →
  GlobalPubSub_set g name value s =
    (do! match t !! name with
         | Some (HProxy i) => PubSubProxy_finalize i value
         | Some (HObject _) => throw NotAFunction
         | Some (HComponent c) => PSComponent_finalizeTriggers c value
         | None => ret tt
         end in
     update_global g <[name := value]>) s.
Proof.
  intros Hg Hintact Hname. unfold GlobalPubSub_set, get_global.
  unfold bind at 1. rewrite Hg.
  rewrite (bind_ok _ _ _ _ _ (own_ordinary _ _ _ Hintact Hname)).
  apply bind_ext; intros; by apply update_global_store.
Qed.

(** A write into a registry under a name other than [__proto__] that
    returns has put the written handle into the slot, whatever the slot
    held. *)
Lemma registry_set_replaces r name value s :
  name ≠ "__proto__" →
  (registry_set r name value s).1 = Ok tt →
  match r with
  | Scoped c => (comps (registry_set r name value s).2 !! c) ≫= (λ cm, ps cm !! name)
  | Global g => (globals (registry_set r name value s).2 !! g) ≫= (λ t, t !! name)
  end = Some value.
Proof.
  intros Hname Hok. destruct r as [c|g]; simpl in *.
  - unfold ps_set in *.
    apply bind_ok_inv in Hok as Hinv. destruct Hinv as (cm & s1 & _ & Heq).
    rewrite Heq in Hok |- *. clear Heq.
    apply bind_ok_inv in Hok as Hinv. destruct Hinv as (? & s1' & _ & Heq).
    rewrite Heq in Hok |- *. clear Heq.
    apply bind_ok_inv in Hok as Hinv. destruct Hinv as (? & s2 & _ & Heq).
    rewrite Heq in Hok |- *. clear Heq.
    unfold update_comp in *. destruct (comps s2 !! c); [|done]. simpl.
    rewrite lookup_insert_eq. simpl. rewrite store_property_ordinary by done.
    apply lookup_insert_eq.
  - unfold GlobalPubSub_set in *.
    apply bind_ok_inv in Hok as Hinv. destruct Hinv as (t & s1 & _ & Heq).
    rewrite Heq in Hok |- *. clear Heq.
    apply bind_ok_inv in Hok as Hinv. destruct Hinv as (? & s1' & _ & Heq).
    rewrite Heq in Hok |- *. clear Heq.
    apply bind_ok_inv in Hok as Hinv. destruct Hinv as (? & s2 & _ & Heq).
    rewrite Heq in Hok |- *. clear Heq.
    unfold update_global in *. destruct (globals s2 !! g); [|done]. simpl.
    rewrite lookup_insert_eq. simpl. rewrite store_property_ordinary by done.
    apply lookup_insert_eq.
Qed.

(** ** Reusing a name *)

(** C2, on the code.  The third write under one name of a scoped registry
    throws [Error("Already finalized.")] and the slot keeps the second
    child; the second write under one name of a global registry, through
    the constructor, throws a [TypeError] and the slot keeps the first
    component. *)
Theorem name_reuse_throws :
  three_children.1 = Throw AlreadyFinalized
  ∧ (comps three_children.2 !! 0) ≫= (λ cm, ps cm !! "child") = Some (HObject 2)
  ∧ two_global_components.1 = Throw NotAFunction
  ∧ (globals two_global_components.2 !! 0) ≫= (λ t, t !! "x") = Some (HObject 0).
Proof. vm_compute. done. Qed.

(** ** The [pubsub] prop *)

(** A registry, or nothing, where the name is read and no string after
    it: [TypeError("ID must be a string.")] before any write. *)
Lemma link_id_must_be_string s pubsub :
  (∀ name, nth 0 pubsub JUndefined ≠ JString name) →
  (∀ name, nth 1 pubsub JUndefined ≠ JString name) →
  constructor (Some pubsub) s = (Throw IdMustBeString, (new_component s).2).
Proof.
  intros H0 H1. unfold constructor, link, bind. simpl.
  destruct (nth 0 pubsub JUndefined); try (by edestruct H0);
    destruct (nth 1 pubsub JUndefined); try (by edestruct H1); done.
Qed.

(** A name followed by a second string:
    [TypeError("ID cannot be a string.")] before any write. *)
Lemma link_id_cannot_be_string s pubsub name id :
  nth 0 pubsub JUndefined = JString name → nth 1 pubsub JUndefined = JString id →
  constructor (Some pubsub) s = (Throw IdCannotBeString, (new_component s).2).
Proof.
  intros H0 H1. unfold constructor, link, bind. simpl. by rewrite H0, H1.
Qed.

(** C8, on the code.  A linkage of the shape the prop type allows can
    throw: a name alone makes the constructor assign a property of
    [undefined], and a name already taken in a global registry makes it
    call a method the occupant lacks. *)
Theorem wellformed_linkage_throws :
  (constructor (Some [JString "componentB"]) empty_store).1 = Throw CannotSetProperty
  ∧ two_global_components.1 = Throw NotAFunction.
Proof. vm_compute. done. Qed.

(** ** Waiting for the next fire *)

Lemma resolutions_app p l1 l2 :
  resolutions p (l1 ++ l2) = resolutions p l1 + resolutions p l2.
Proof. unfold resolutions. by rewrite filter_app, length_app. Qed.

Lemma resolutions_calls p a (cbs : list Callback) :
  resolutions p (map (λ cb, EvCall cb a) cbs) = 0.
Proof.
  unfold resolutions. induction cbs as [|cb cbs IH]; [done|]. simpl.
  rewrite filter_cons. by rewrite decide_False.
Qed.

Lemma resolutions_heads p a (ws : list Resolver) :
  resolutions p (map (λ r, EvResolve (head r) a) ws) =
    length (filter (λ r, head r = p) ws).
Proof.
  unfold resolutions. induction ws as [|r ws IH]; [done|]. simpl.
  rewrite !filter_cons. simpl. destruct (decide (head r = p)) as [Heq|Hne].
  - rewrite bool_decide_eq_true_2 by done. rewrite decide_True by done. simpl.
    by rewrite IH.
  - rewrite bool_decide_eq_false_2 by done. by rewrite decide_False.
Qed.

Lemma filter_agree {X} (P Q : X → Prop) `{∀ x, Decision (P x)} `{∀ x, Decision (Q x)}
    (l : list X) :
  (∀ x, x ∈ l → P x ↔ Q x) → filter P l = filter Q l.
Proof.
  induction l as [|x l IH]; intros Hl; [done|].
  rewrite !filter_cons. rewrite IH by (intros; apply Hl; by right).
  destruct (decide (P x)) as [HP|HP], (decide (Q x)) as [HQ|HQ]; try done.
  - apply Hl in HP; [done | by left].
  - apply Hl in HQ; [done | by left].
Qed.

Lemma head_in_chain r : head r ∈ chain r.
Proof. destruct r; simpl; by left. Qed.

Lemma resolved_times_refl p s : resolved_times p 0 s s.
Proof. exists []. by rewrite app_nil_r. Qed.

Lemma resolved_times_trans p n m s1 s2 s3 :
  resolved_times p n s1 s2 → resolved_times p m s2 s3 → resolved_times p (n + m) s1 s3.
Proof.
  intros (e1 & H1 & <-) (e2 & H2 & <-). exists (e1 ++ e2).
  by rewrite H2, H1, app_assoc, resolutions_app.
Qed.

Lemma resolved_times_same_log p s s' : log s' = log s → resolved_times p 0 s s'.
Proof. intros Hlog. exists []. by rewrite app_nil_r. Qed.

Section RegistrySteps.
Context (c : nat).
Implicit Types (s : Store) (key k : string) (p : nat).

Lemma waiters_insert s cm k :
  waiters c k (with_comps <[c := cm]> s) = members k (promises cm).
Proof. unfold waiters. by rewrite comps_insert_lookup. Qed.

(** Subscribing and unsubscribing leave waiters and promises alone. *)
Lemma subscribe_step s key cb :
  unsealed c s →
  let s' := (PSComponent_triggerSubscribe c key cb s).2 in
  unsealed c s' ∧ heap s' = heap s ∧ log s' = log s
  ∧ ∀ k, waiters c k s' = waiters c k s.
Proof.
  intros (cm & Hc & Hf). cbv zeta.
  rewrite (triggerSubscribe_unsealed _ _ _ key cb Hc Hf). simpl.
  split_and!; try done.
  - eexists. split; [apply lookup_insert_eq | done].
  - intros k. unfold waiters. simpl. by rewrite lookup_insert_eq, Hc.
Qed.

Lemma unsubscribe_step s key cb :
  unsealed c s →
  let s' := (PSComponent_triggerUnsubscribe c key cb s).2 in
  unsealed c s' ∧ heap s' = heap s ∧ log s' = log s
  ∧ ∀ k, waiters c k s' = waiters c k s.
Proof.
  intros (cm & Hc & Hf). cbv zeta.
  rewrite (triggerUnsubscribe_unsealed _ _ _ key cb Hc Hf). simpl.
  split_and!; try done.
  - eexists. split; [apply lookup_insert_eq | done].
  - intros k. unfold waiters. simpl. by rewrite lookup_insert_eq, Hc.
Qed.

(** A promise request allocates a pending promise and adds its resolve
    function to the waiters of the key. *)
Lemma wait_step s key :
  unsealed c s →
  let p := fresh (dom (heap s)) in
  let s' := (PSComponent_triggerPromise c key Consumer s).2 in
  (PSComponent_triggerPromise c key Consumer s).1 = Ok p
  ∧ unsealed c s' ∧ heap s' = <[p := Pending]> (heap s) ∧ log s' = log s
  ∧ ∀ k, waiters c k s' =
         if decide (key = k) then jset_add (Direct p) (waiters c k s) else waiters c k s.
Proof.
  intros (cm & Hc & Hf). cbv zeta.
  pose proof (triggerPromise_unsealed _ _ _ key Consumer Hc Hf) as Heq.
  cbv zeta in Heq. rewrite Heq. simpl. split_and!; try done.
  - eexists. split; [apply lookup_insert_eq | done].
  - intros k. unfold waiters. simpl. rewrite lookup_insert_eq, Hc. simpl.
    apply members_add.
Qed.

Lemma fire_step s key args :
  unsealed c s →
  let s' := (PSComponent_trigger c key args s).2 in
  unsealed c s'
  ∧ heap s' = settle_all args (waiters c key s) (heap s)
  ∧ log s' = log s ++ map (λ r, EvResolve (head r) args) (waiters c key s)
                   ++ map (λ cb, EvCall cb args) (subscribers c key s)
  ∧ ∀ k, waiters c k s' = if decide (key = k) then [] else waiters c k s.
Proof.
  intros Hopen. cbv zeta.
  destruct (trigger_open s c key args Hopen)
    as (_ & Hlog & Hheap & _ & Hkey & _ & Hother & _ & Hopen').
  split_and!; try done.
  intros k. case_decide as Hk; [by subst | by apply Hother].
Qed.
End RegistrySteps.

Section NextFire.
Context (c : nat).
Implicit Types (s : Store) (key k : string) (p : nat) (o : RegOp).

Lemma filter_eq_singleton_other (x y : Resolver) (l : list Resolver) :
  x ≠ y → filter (λ r, r = y) (jset_add x l) = filter (λ r, r = y) l.
Proof.
  intros Hne. unfold jset_add. case_decide; [done|].
  rewrite filter_app, filter_cons. rewrite decide_False by done.
  by rewrite filter_nil, app_nil_r.
Qed.

Lemma filter_none {X} (P : X → Prop) `{∀ x, Decision (P x)} (l : list X) :
  (∀ x, x ∈ l → ¬ P x) → filter P l = [].
Proof.
  induction l as [|x l IH]; intros Hl; [done|].
  rewrite filter_cons. rewrite decide_False by (apply Hl; by left).
  apply IH. intros. apply Hl. by right.
Qed.

(** The promise handed out by a request is waiting from then on. *)
Lemma waiting_after_wait s key :
  unsealed c s → waiters_allocated c s →
  waiting c key (fresh (dom (heap s))) (PSComponent_triggerPromise c key Consumer s).2.
Proof.
  intros Hopen Halloc.
  destruct (wait_step c s key Hopen) as (_ & Hopen' & Hheap & _ & Hw).
  set (p := fresh (dom (heap s))) in *.
  assert (∀ k r, r ∈ waiters c k s → p ∉ chain r) as Hfresh.
  { intros k r Hr Hp. apply (is_fresh (dom (heap s))). by eapply Halloc. }
  split_and!; [done| | |].
  - rewrite Hheap. apply lookup_insert_eq.
  - intros k r. rewrite Hw. case_decide as Hk.
    + intros [->|Hr]%jset_add_elem Hp; [done|]. by edestruct Hfresh.
    + intros Hr Hp. by edestruct Hfresh.
  - rewrite Hw, decide_True by done. unfold jset_add.
    case_decide as Hin.
    { edestruct Hfresh; [exact Hin|]. simpl. by left. }
    rewrite filter_app, filter_cons, decide_True by done.
    rewrite (filter_none (λ r, r = Direct p)).
    + done.
    + intros r Hr ->. edestruct Hfresh; [exact Hr|]. simpl. by left.
Qed.

(** It stays waiting through every operation but a fire of its name. *)
Lemma waiting_step s key p o :
  waiting c key p s → (∀ a, o ≠ RFire key a) →
  waiting c key p (reg_exec c o s).2 ∧ resolved_times p 0 s (reg_exec c o s).2.
Proof.
  intros (Hopen & Hp & Hment & Hcount) Hfire. destruct o as [k cb|k cb|k|k a]; simpl.
  - destruct (subscribe_step c s k cb Hopen) as (Hopen' & Hheap & Hlog & Hw).
    split; [|by apply resolved_times_same_log].
    split_and!; [done|by rewrite Hheap| |by rewrite Hw].
    intros k' r. rewrite Hw. apply Hment.
  - destruct (unsubscribe_step c s k cb Hopen) as (Hopen' & Hheap & Hlog & Hw).
    split; [|by apply resolved_times_same_log].
    split_and!; [done|by rewrite Hheap| |by rewrite Hw].
    intros k' r. rewrite Hw. apply Hment.
  - rewrite void_store.
    destruct (wait_step c s k Hopen) as (_ & Hopen' & Hheap & Hlog & Hw).
    set (p' := fresh (dom (heap s))) in *.
    assert (p' ≠ p) as Hne.
    { intros <-. apply (is_fresh (dom (heap s))). apply elem_of_dom. eauto. }
    split; [|by apply resolved_times_same_log].
    split_and!; [done| | |].
    + rewrite Hheap. by rewrite lookup_insert_ne.
    + intros k' r. rewrite Hw. case_decide; [|apply Hment].
      intros [->|Hr]%jset_add_elem; [|by apply Hment].
      simpl. intros ?%list_elem_of_singleton. done.
    + rewrite Hw. case_decide; [|done].
      rewrite filter_eq_singleton_other; [done | congruence].
  - assert (k ≠ key) as Hk by (intros ->; by eapply Hfire).
    destruct (fire_step c s k a Hopen) as (Hopen' & Hheap & Hlog & Hw).
    assert (∀ r, r ∈ waiters c k s → p ∉ chain r) as Hnot.
    { intros r Hr Hin. by destruct (Hment k r Hr Hin). }
    split.
    + split_and!; [done| | |].
      * rewrite Hheap, settle_all_other; done.
      * intros k' r. rewrite Hw. case_decide; [by intros ?%elem_of_nil | apply Hment].
      * rewrite Hw. by rewrite decide_False.
    + eexists. split; [exact Hlog|].
      rewrite resolutions_app, resolutions_calls, resolutions_heads.
      rewrite (filter_none (λ r, head r = p)); [done|].
      intros r Hr Hhead. apply (Hnot r Hr). rewrite <- Hhead. apply head_in_chain.
Qed.

(** The fire of its name fulfils it, with one call of its resolve function. *)
Lemma waiting_fire s key p args :
  waiting c key p s →
  let s' := (PSComponent_trigger c key args s).2 in
  resolved c p args s' ∧ resolved_times p 1 s s' ∧ waiters c key s' = [].
Proof.
  intros (Hopen & Hp & Hment & Hcount). cbv zeta.
  destruct (fire_step c s key args Hopen) as (Hopen' & Hheap & Hlog & Hw).
  assert (Direct p ∈ waiters c key s) as Hin.
  { destruct (filter (λ r, r = Direct p) (waiters c key s)) as [|r l] eqn:E; [done|].
    assert (r ∈ filter (λ r, r = Direct p) (waiters c key s)) as Hr
      by (rewrite E; by left).
    apply list_elem_of_filter in Hr as [-> Hr]. done. }
  split_and!.
  - split_and!; [done| |].
    + rewrite Hheap. by apply (settle_all_head args _ _ (Direct p)).
    + intros k r. rewrite Hw. case_decide as Hk; [by intros ?%elem_of_nil|].
      intros Hr Hpr. destruct (Hment k r Hr Hpr). congruence.
  - eexists. split; [exact Hlog|].
    rewrite resolutions_app, resolutions_calls, resolutions_heads.
    rewrite (filter_agree (λ r, head r = p) (λ r, r = Direct p)); [lia|].
    intros r Hr. split; [|by intros ->].
    intros Hhead. apply (Hment key r Hr). rewrite <- Hhead. apply head_in_chain.
  - rewrite Hw. by rewrite decide_True.
Qed.

(** Once fulfilled it keeps its value, and its resolve function is not
    called again. *)
Lemma resolved_step s p args o :
  resolved c p args s →
  resolved c p args (reg_exec c o s).2 ∧ resolved_times p 0 s (reg_exec c o s).2.
Proof.
  intros (Hopen & Hp & Hment). destruct o as [k cb|k cb|k|k a]; simpl.
  - destruct (subscribe_step c s k cb Hopen) as (Hopen' & Hheap & Hlog & Hw).
    split; [|by apply resolved_times_same_log].
    split_and!; [done|by rewrite Hheap|]. intros k' r. rewrite Hw. apply Hment.
  - destruct (unsubscribe_step c s k cb Hopen) as (Hopen' & Hheap & Hlog & Hw).
    split; [|by apply resolved_times_same_log].
    split_and!; [done|by rewrite Hheap|]. intros k' r. rewrite Hw. apply Hment.
  - rewrite void_store.
    destruct (wait_step c s k Hopen) as (_ & Hopen' & Hheap & Hlog & Hw).
    set (p' := fresh (dom (heap s))) in *.
    assert (p' ≠ p) as Hne.
    { intros <-. apply (is_fresh (dom (heap s))). apply elem_of_dom. eauto. }
    split; [|by apply resolved_times_same_log].
    split_and!; [done| |].
    + rewrite Hheap. by rewrite lookup_insert_ne.
    + intros k' r. rewrite Hw. case_decide; [|apply Hment].
      intros [->|Hr]%jset_add_elem; [|by apply (Hment k')].
      simpl. intros ?%list_elem_of_singleton. done.
  - destruct (fire_step c s k a Hopen) as (Hopen' & Hheap & Hlog & Hw).
    split.
    + split_and!; [done| |].
      * rewrite Hheap, settle_all_other; [done|]. apply Hment.
      * intros k' r. rewrite Hw. case_decide; [by intros ?%elem_of_nil | apply Hment].
    + eexists. split; [exact Hlog|].
      rewrite resolutions_app, resolutions_calls, resolutions_heads.
      rewrite (filter_none (λ r, head r = p)); [done|].
      intros r Hr Hhead. apply (Hment k r Hr). rewrite <- Hhead. apply head_in_chain.
Qed.

Lemma waiting_run s key p ops :
  waiting c key p s → (∀ a, RFire key a ∉ ops) →
  waiting c key p (reg_run c ops s) ∧ resolved_times p 0 s (reg_run c ops s).
Proof.
  revert s. induction ops as [|o ops IH]; intros s Hw Hops; simpl.
  - split; [done | apply resolved_times_refl].
  - destruct (waiting_step s key p o Hw) as [Hw' Ht'].
    { intros a ->. apply (Hops a). by left. }
    destruct (IH _ Hw') as [Hw'' Ht''].
    { intros a Ha. apply (Hops a). by right. }
    split; [done|]. apply (resolved_times_trans p 0 0 _ _ _ Ht' Ht'').
Qed.

Lemma resolved_run s p args ops :
  resolved c p args s →
  resolved c p args (reg_run c ops s) ∧ resolved_times p 0 s (reg_run c ops s).
Proof.
  revert s. induction ops as [|o ops IH]; intros s Hr; simpl.
  - split; [done | apply resolved_times_refl].
  - destruct (resolved_step s p args o Hr) as [Hr' Ht'].
    destruct (IH _ Hr') as [Hr'' Ht''].
    split; [done|]. apply (resolved_times_trans p 0 0 _ _ _ Ht' Ht'').
Qed.

(** [n] requests in a row hand out [n] distinct pending promises, each
    with its resolve function among the waiters of the key. *)
Lemma wait_many_spec s key n :
  unsealed c s →
  ∃ ps, (wait_many c key n s).1 = Ok ps
        ∧ length ps = n ∧ NoDup ps
        ∧ unsealed c (wait_many c key n s).2
        ∧ (∀ p, p ∈ ps → heap s !! p = None
                         ∧ heap (wait_many c key n s).2 !! p = Some Pending
                         ∧ Direct p ∈ waiters c key (wait_many c key n s).2)
        ∧ (∀ q, is_Some (heap s !! q) → heap (wait_many c key n s).2 !! q = heap s !! q)
        ∧ (∀ r, r ∈ waiters c key s → r ∈ waiters c key (wait_many c key n s).2).
Proof.
  revert s. induction n as [|n IH]; intros s Hopen.
  - exists []. simpl. split_and!; try done; [apply NoDup_nil_2 | by intros p ?%elem_of_nil].
  - destruct (wait_step c s key Hopen) as (Hres & Hopen' & Hheap & _ & Hw).
    set (p := fresh (dom (heap s))) in *.
    destruct (PSComponent_triggerPromise c key Consumer s) as [r1 s1] eqn:E1.
    simpl in Hres, Hopen', Hheap, Hw. subst r1.
    destruct (IH s1 Hopen') as (ps & Hps & Hlen & Hnd & Hopen'' & Hall & Hkeep & Hmono).
    destruct (wait_many c key n s1) as [r2 s2] eqn:E2.
    simpl in Hps, Hopen'', Hall, Hkeep, Hmono. subst r2.
    assert (wait_many c key (S n) s = (Ok (p :: ps), s2)) as ->.
    { simpl. unfold bind, ret. by rewrite E1, E2. }
    simpl.
    assert (heap s !! p = None) as Hpnone by apply not_elem_of_dom, is_fresh.
    assert (heap s1 !! p = Some Pending) as Hp1 by (rewrite Hheap; apply lookup_insert_eq).
    exists (p :: ps). split_and!; [done|simpl; by rewrite Hlen| |done| | |].
    + apply NoDup_cons. split; [|done]. intros Hin.
      destruct (Hall p Hin) as (Hnone & _). congruence.
    + intros q [->|Hq]%elem_of_cons.
      * split_and!; [done | by rewrite Hkeep | ].
        apply Hmono. rewrite Hw, decide_True by done. apply jset_add_elem. by left.
      * destruct (Hall q Hq) as (Hnone & Hpend & Hin). split_and!; [|done..].
        rewrite Hheap in Hnone. apply lookup_insert_None in Hnone. tauto.
    + intros q Hq. rewrite Hkeep.
      * rewrite Hheap. rewrite lookup_insert_ne; [done|]. intros <-.
        rewrite Hpnone in Hq. by destruct Hq.
      * rewrite Hheap. destruct (decide (p = q)) as [<-|Hne].
        -- rewrite lookup_insert_eq. eauto.
        -- by rewrite lookup_insert_ne.
    + intros r Hr. apply Hmono. rewrite Hw, decide_True by done.
      apply jset_add_elem. by right.
Qed.
End NextFire.

(** ** All members of a map *)

Section Elems.
Context {X : Type} `{EqDecision X}.
Implicit Types (m : JsMap X) (x : X) (key : string).

Lemma elem_of_elems x m : x ∈ elems m ↔ ∃ k set, (k, set) ∈ m ∧ x ∈ set.
Proof.
  unfold elems. induction m as [|[k0 set0] m IH]; simpl.
  - split; [by intros ?%elem_of_nil | by intros (? & ? & ?%elem_of_nil & _)].
  - rewrite elem_of_app, IH. split.
    + intros [Hx|(k & set & Hin & Hx)].
      * exists k0, set0. split; [by left | done].
      * exists k, set. split; [by right | done].
    + intros (k & set & [[= -> ->]|Hin]%elem_of_cons & Hx); [by left|].
      right. eauto.
Qed.

Lemma elems_set x key v m : x ∈ elems (jmap_set key v m) → x ∈ v ∨ x ∈ elems m.
Proof.
  intros (k & set & Hin & Hx)%elem_of_elems.
  induction m as [|[k' v'] m IH]; simpl in Hin.
  - apply list_elem_of_singleton in Hin as [= -> ->]. by left.
  - destruct (decide (key = k')) as [->|Hne].
    + apply elem_of_cons in Hin as [[= -> ->]|Hin]; [by left|].
      right. apply elem_of_elems. exists k, set. split; [by right | done].
    + apply elem_of_cons in Hin as [[= -> ->]|Hin].
      * right. apply elem_of_elems. exists k', v'. split; [by left | done].
      * destruct (IH Hin) as [?|Hm]; [by left|]. right.
        apply elem_of_elems in Hm as (k2 & s2 & Hin2 & Hx2).
        apply elem_of_elems. exists k2, s2. split; [by right | done].
Qed.

Lemma elems_delete x key m : x ∈ elems (jmap_delete key m) → x ∈ elems m.
Proof.
  intros (k & set & Hin & Hx)%elem_of_elems. apply elem_of_elems.
  exists k, set. split; [|done].
  unfold jmap_delete in Hin. by apply list_elem_of_filter in Hin as [_ ?].
Qed.

Lemma elems_get x key m set : jmap_get key m = Some set → x ∈ set → x ∈ elems m.
Proof.
  intros Hget Hx. apply elem_of_elems. exists key, set. split; [|done].
  by apply jmap_get_elem.
Qed.

Lemma elems_members x key m : x ∈ members key m → x ∈ elems m.
Proof.
  intros (set & Hin & Hx)%members_elem. apply elem_of_elems. eauto.
Qed.

Lemma elems_mutate_add x y key m :
  x ∈ elems (jmap_mutate key (jset_add y) m) → x = y ∨ x ∈ elems m.
Proof.
  unfold jmap_mutate. destruct (jmap_get key m) as [set|] eqn:E; [|by right].
  intros [[->|Hx]%jset_add_elem|Hx]%elems_set; [by left| |by right].
  right. by eapply elems_get.
Qed.

Lemma elems_mutate_delete x y key m :
  x ∈ elems (jmap_mutate key (jset_delete y) m) → x ∈ elems m.
Proof.
  unfold jmap_mutate. destruct (jmap_get key m) as [set|] eqn:E; [|done].
  intros [[_ Hx]%jset_delete_elem|Hx]%elems_set; [|done]. by eapply elems_get.
Qed.

Lemma elems_ensure x key m : x ∈ elems (jmap_set key [] m) → x ∈ elems m.
Proof. intros [?%elem_of_nil|?]%elems_set; done. Qed.
End Elems.

(** ** Relayed promises *)

Section Relays.
Context (h0 : gmap nat PState).
Implicit Types (st : JsMap Resolver * gmap nat PState) (r : Resolver) (k key : string).

Lemma relay_members_fold key rs st :
  relay_members key rs st = foldl (λ st r, relay_one key r st) st rs.
Proof. done. Qed.

(** A property kept by every relay step holds after all of them. *)
Lemma relay_members_ind (P : JsMap Resolver * gmap nat PState → Prop) key rs st :
  (∀ st r, r ∈ rs → P st → P (relay_one key r st)) → P st → P (relay_members key rs st).
Proof.
  rewrite relay_members_fold. revert st.
  induction rs as [|r rs IH]; intros st Hstep Hst; simpl; [done|].
  apply IH; [|apply Hstep; [by left | done]].
  intros st' r' Hr'. apply Hstep. by right.
Qed.

Lemma relay_all_ind (P : JsMap Resolver * gmap nat PState → Prop) m st :
  (∀ st k rs r, (k, rs) ∈ m → r ∈ rs → P st → P (relay_one k r st)) →
  P st → P (relay_all m st).
Proof.
  unfold relay_all. revert st.
  induction m as [|[k rs] m IH]; intros st Hstep Hst; simpl; [done|].
  apply IH.
  - intros st' k' rs' r' Hin. apply Hstep. by right.
  - apply relay_members_ind; [|done]. intros st' r' Hr'. apply (Hstep _ k rs); [by left|done].
Qed.

Lemma members_add_inv {X} `{EqDecision X} key (x y : X) k (t : JsMap X) :
  y ∈ members k (jmap_add key x t) → (k = key ∧ y = x) ∨ (y ∈ members k t).
Proof.
  rewrite members_add. case_decide; [subst|by right].
  intros [->|?]%jset_add_elem; [by left | by right].
Qed.

Lemma members_add_mono {X} `{EqDecision X} key (x y : X) k (t : JsMap X) :
  y ∈ members k t → y ∈ members k (jmap_add key x t).
Proof.
  rewrite members_add. case_decide; [|done]. intros. apply jset_add_elem. by right.
Qed.

Lemma members_add_new {X} `{EqDecision X} key (x : X) (t : JsMap X) :
  x ∈ members key (jmap_add key x t).
Proof. rewrite members_add, decide_True by done. apply jset_add_elem. by left. Qed.

(** One relay step keeps [relayed]. *)
Lemma relayed_step key r st :
  (∀ x, x ∈ chain r → x ∈ dom h0) → relayed h0 st → relayed h0 (relay_one key r st).
Proof.
  intros Hr (Hold & Halloc & Hpend & Huniq). unfold relay_one.
  set (q := fresh (dom st.2)).
  assert (q ∉ dom st.2) as Hq by apply is_fresh.
  assert (dom h0 ⊆ dom st.2) as Hsub.
  { intros x Hx. apply elem_of_dom. rewrite (Hold x Hx). by apply elem_of_dom. }
  assert (q ∉ dom h0) as Hq0 by set_solver.
  split_and!; simpl.
  - intros x Hx. rewrite lookup_insert_ne; [by apply Hold|]. intros ->. done.
  - intros k r' x [[-> ->]|Hin]%members_add_inv Hx.
    + simpl in Hx. apply elem_of_cons in Hx as [->|Hx]; [set_solver|].
      apply dom_insert. apply elem_of_union. right. apply Hsub. by apply Hr.
    + apply dom_insert. apply elem_of_union. right. by apply (Halloc k r').
  - intros k r' [[-> ->]|Hin]%members_add_inv Hhead.
    + simpl. apply lookup_insert_eq.
    + rewrite lookup_insert_ne; [by apply (Hpend k)|].
      intros Heq. apply Hq. rewrite Heq. apply (Halloc k r'); [done|]. apply head_in_chain.
  - intros k k' r1 r2 [[-> ->]|Hin1]%members_add_inv [[-> ->]|Hin2]%members_add_inv Hhead Hc;
      simpl in *.
    + done.
    + destruct Hq. by apply (Halloc k' r2).
    + apply elem_of_cons in Hc as [Hc|Hc].
      * destruct Hq. rewrite <- Hc. apply (Halloc k r1); [done|]. apply head_in_chain.
      * destruct Hhead. by apply Hr.
    + by apply (Huniq k k').
Qed.

(** Relaying a map whose resolve functions can only fulfil promises of
    [h0] keeps [relayed]. *)
Lemma relayed_all m st :
  (∀ k rs r x, (k, rs) ∈ m → r ∈ rs → x ∈ chain r → x ∈ dom h0) →
  relayed h0 st → relayed h0 (relay_all m st).
Proof.
  intros Hm. apply relay_all_ind. intros st' k rs r Hin Hr.
  apply relayed_step. intros x. by apply (Hm k rs).
Qed.

(** Once a relay of [r] waits under [key] it keeps waiting there. *)
Lemma relay_one_keeps key r st k' r' :
  (∃ q, (q ∉ dom h0) ∧ Relay q r ∈ members key st.1) →
  ∃ q, (q ∉ dom h0) ∧ Relay q r ∈ members key (relay_one k' r' st).1.
Proof. intros (q & Hq & Hin). exists q. split; [done|]. by apply members_add_mono. Qed.

Lemma relay_one_waits key r st :
  relayed h0 st → ∃ q, (q ∉ dom h0) ∧ Relay q r ∈ members key (relay_one key r st).1.
Proof.
  intros (Hold & _). exists (fresh (dom st.2)). split; [|apply members_add_new].
  intros Hx. apply (is_fresh (dom st.2)). apply elem_of_dom.
  rewrite (Hold _ Hx). by apply elem_of_dom.
Qed.

Lemma relay_members_waits key rs st r :
  (∀ r' x, r' ∈ rs → x ∈ chain r' → x ∈ dom h0) → relayed h0 st → r ∈ rs →
  ∃ q, (q ∉ dom h0) ∧ Relay q r ∈ members key (relay_members key rs st).1.
Proof.
  rewrite relay_members_fold. revert st.
  induction rs as [|r' rs IH]; intros st Hrs Hst Hr; [by apply elem_of_nil in Hr|].
  simpl. apply elem_of_cons in Hr as [->|Hr].
  - rewrite <- relay_members_fold.
    apply (relay_members_ind (λ st', ∃ q, (q ∉ dom h0) ∧ Relay q r' ∈ members key st'.1)).
    + intros st' r'' _. apply relay_one_keeps.
    + by apply relay_one_waits.
  - apply IH; [|apply relayed_step; [|done]|done].
    + intros r'' x Hr''. apply Hrs. by right.
    + intros x. apply Hrs. by left.
Qed.

(** Every resolve function of the relayed map waits in the target behind
    a relay of its own, under its key. *)
Lemma relay_all_waits m st key rs r :
  (∀ k rs r x, (k, rs) ∈ m → r ∈ rs → x ∈ chain r → x ∈ dom h0) →
  relayed h0 st → (key, rs) ∈ m → r ∈ rs →
  ∃ q, (q ∉ dom h0) ∧ Relay q r ∈ members key (relay_all m st).1.
Proof.
  unfold relay_all. revert st.
  induction m as [|[k' rs'] m IH]; intros st Hm Hst Hin Hr; [by apply elem_of_nil in Hin|].
  simpl. apply elem_of_cons in Hin as [[= <- <-]|Hin].
  - apply (relay_all_ind (λ st', ∃ q, (q ∉ dom h0) ∧ Relay q r ∈ members key st'.1)).
    + intros st' k'' rs'' r'' _ _. apply relay_one_keeps.
    + apply relay_members_waits; [|done..]. intros r' x. apply (Hm key rs). by left.
  - apply IH; [| |done..].
    + intros k rs0 r0 x Hin0. apply (Hm k rs0). by right.
    + apply relay_members_ind; [|done]. intros st' r' Hr'. apply relayed_step.
      intros x. apply (Hm k' rs'); [by left|done].
Qed.
End Relays.

(** A fire that reaches the relay of a consumer's promise fulfils that
    promise, if the relay is pending and no other waiter can fulfil it. *)
Lemma settle_all_relay a ws h q p :
  Relay q (Direct p) ∈ ws → q ≠ p → h !! q = Some Pending →
  h !! p = Some Pending ∨ h !! p = Some (Fulfilled a) →
  (∀ r, r ∈ ws → q ∈ chain r → r = Relay q (Direct p)) →
  settle_all a ws h !! p = Some (Fulfilled a).
Proof.
  unfold settle_all. revert h.
  induction ws as [|r ws IH]; intros h Hin Hqp Hq Hp Huniq; [by apply elem_of_nil in Hin|].
  simpl. destruct (decide (r = Relay q (Direct p))) as [->|Hr].
  - assert (settle (Relay q (Direct p)) a h !! p = Some (Fulfilled a)) as Hful.
    { simpl. rewrite Hq. rewrite fulfil_lookup. case_decide as Hd; [done|].
      rewrite lookup_insert_ne by done. destruct Hp as [Hp|Hp]; [|done].
      destruct Hd. split; [done|]. by rewrite lookup_insert_ne. }
    destruct (settle_all_lookup a ws (settle (Relay q (Direct p)) a h) p) as [Heq|[Hpend _]].
    + unfold settle_all in Heq. by rewrite Heq.
    + congruence.
  - apply elem_of_cons in Hin as [Hin|Hin]; [congruence|].
    assert (q ∉ chain r) as Hqr.
    { intros Hc. apply Hr, Huniq; [by left | done]. }
    apply IH; [done..| | |].
    + by rewrite settle_other.
    + destruct (settle_lookup r a h p) as [Heq|[_ Hful]]; [by rewrite Heq | by right].
    + intros r' Hr'. apply Huniq. by right.
Qed.

Lemma relayed_init h0 t0 :
  (∀ k r x, r ∈ members k t0 → x ∈ chain r → x ∈ dom h0) → relayed h0 (t0, h0).
Proof.
  intros Ht0. split_and!; simpl; try done.
  - intros k r Hr Hhead. destruct Hhead. apply (Ht0 k r); [done|]. apply head_in_chain.
  - intros k k' r r' Hr _ Hhead. destruct Hhead.
    apply (Ht0 k r); [done|]. apply head_in_chain.
Qed.

(** Every buffered resolve function ends behind a pending relay of its
    own among the waiters of the target, under its key. *)
Lemma relay_all_pending h0 t0 m key r :
  (∀ k r x, r ∈ members k t0 → x ∈ chain r → x ∈ dom h0) →
  (∀ k rs r x, (k, rs) ∈ m → r ∈ rs → x ∈ chain r → x ∈ dom h0) →
  r ∈ members key m →
  let st := relay_all m (t0, h0) in
  ∃ q, h0 !! q = None ∧ st.2 !! q = Some Pending ∧ Relay q r ∈ members key st.1.
Proof.
  intros Ht0 Hm Hr. cbv zeta. apply members_elem in Hr as (rs & Hin & Hr).
  pose proof (relayed_init h0 t0 Ht0) as Hinit.
  pose proof (relayed_all h0 m _ Hm Hinit) as (_ & _ & Hpending & _).
  destruct (relay_all_waits h0 m _ key rs r Hm Hinit Hin Hr) as (q & Hq & Hrelay).
  exists q. split_and!; [by apply not_elem_of_dom | | done].
  by apply (Hpending key (Relay q r)).
Qed.

(** The buffered resolve function of a consumer's pending promise, relayed
    onto the waiters of an open target: the promise is still pending, and
    the next fire of its key by the target fulfils it. *)
Lemma relay_then_fire h0 t0 m key p args :
  (∀ k r x, r ∈ members k t0 → x ∈ chain r → x ∈ dom h0) →
  (∀ k rs r x, (k, rs) ∈ m → r ∈ rs → x ∈ chain r → x ∈ dom h0) →
  (∃ rs, (key, rs) ∈ m ∧ Direct p ∈ rs) →
  h0 !! p = Some Pending →
  let st := relay_all m (t0, h0) in
  st.2 !! p = Some Pending
  ∧ settle_all args (members key st.1) st.2 !! p = Some (Fulfilled args).
Proof.
  intros Ht0 Hm (rs & Hin & Hp) Hpend. cbv zeta.
  assert (p ∈ dom h0) as Hdom by (apply elem_of_dom; by eexists).
  assert (relayed h0 (t0, h0)) as Hinit.
  { split_and!; simpl; try done.
    - intros k r Hr Hhead. destruct Hhead. apply (Ht0 k r); [done|]. apply head_in_chain.
    - intros k k' r r' Hr _ Hhead. destruct Hhead.
      apply (Ht0 k r); [done|]. apply head_in_chain. }
  pose proof (relayed_all h0 m _ Hm Hinit) as (Hold & Halloc & Hpending & Huniq).
  destruct (relay_all_waits h0 m _ key rs (Direct p) Hm Hinit Hin Hp) as (q & Hq & Hrelay).
  split; [by rewrite Hold|].
  apply (settle_all_relay _ _ _ q); [done| | | |].
  - intros ->. done.
  - by apply (Hpending key (Relay q (Direct p))).
  - left. by rewrite Hold.
  - intros r Hr Hc. by apply (Huniq key key (Relay q (Direct p)) r).
Qed.

(** ** Reusing a name of a scoped registry *)

(** [finalizeTriggers(target)] of an open component, for another open
    component behind [target]. *)
Lemma finalizeTriggers_open target c parent s cm cm' :
  real target = Some c → parent ≠ c →
  comps s !! parent = Some cm → finalized cm = false →
  comps s !! c = Some cm' → finalized cm' = false →
  PSComponent_finalizeTriggers parent target s =
    (Ok tt, mkStore
              (<[parent := mkPSComponent [] [] true (ps cm)]>
                 (<[c := fset this_subscriptions
                           (add_all (subscriptions cm) (subscriptions cm'))
                           (fset this_promises
                              (relay_all (promises cm) (promises cm', heap s)).1 cm')]>
                    (comps s)))
              (proxies s) (globals s)
              (relay_all (promises cm) (promises cm', heap s)).2 (log s)).
Proof.
  intros Hreal Hne Hp Hf Hc Hf'. unfold PSComponent_finalizeTriggers.
  rewrite (bind_ok _ _ _ _ _ (get_comp_ok _ _ _ Hp)). rewrite Hf.
  rewrite (bind_ok _ _ _ _ _ (update_comp_ok _ _ _ _ Hp)).
  match goal with |- bind _ _ ?s1 = _ =>
    assert (comps s1 !! c = Some cm') as Hc1
      by (simpl; by rewrite lookup_insert_ne)
  end.
  rewrite (bind_ok _ _ _ _ _ (forward_promises_open target c Hreal _ _ _ Hc1 Hf')).
  match goal with |- bind _ _ ?s2 = _ =>
    pose proof (forward_subscriptions_open target c Hreal (subscriptions cm) s2 _
                  (lookup_insert_eq _ _ _) Hf') as Hsubs
  end.
  rewrite (bind_ok _ _ _ _ _ Hsubs).
  unfold update_comp. simpl.
  rewrite lookup_insert_ne, lookup_insert_ne, lookup_insert_eq by done.
  unfold with_comps. simpl. f_equal. f_equal.
  apply map_eq. intros j.
  destruct (decide (j = parent)) as [->|Hj]; [by rewrite !lookup_insert_eq|].
  rewrite !(lookup_insert_ne _ parent) by done.
  destruct (decide (j = c)) as [->|Hj']; [by rewrite !lookup_insert_eq|].
  by rewrite !lookup_insert_ne by done.
Qed.

(** A write over a real handle in [ps], under a name other than
    [__proto__] and while [hasOwnProperty] is the inherited method, is the
    owner's own [finalizeTriggers], then the assignment. *)
Lemma ps_set_real s parent name occupant value cm :
  comps s !! parent = Some cm → ps cm !! "hasOwnProperty" = None → name ≠ "__proto__" →
  ps cm !! name = Some occupant → (∀ i, occupant ≠ HProxy i) →
  ps_set parent name value s =
    (do! PSComponent_finalizeTriggers parent value in
     update_comp parent (λ cm, set_ps (<[name := value]> (ps cm)) cm)) s.
Proof.
  intros Hp Hintact Hname Hslot Hreal. unfold ps_set.
  rewrite (bind_ok _ _ _ _ _ (get_comp_ok _ _ _ Hp)).
  rewrite (bind_ok _ _ _ _ _ (own_ordinary _ _ _ Hintact Hname)). rewrite Hslot.
  destruct occupant; [by edestruct Hreal | |];
    apply bind_ext; intros; by apply update_comp_store.
Qed.

Lemma ps_set_real_seals s parent name occupant value cm :
  comps s !! parent = Some cm → ps cm !! "hasOwnProperty" = None → name ≠ "__proto__" →
  ps cm !! name = Some occupant → (∀ i, occupant ≠ HProxy i) →
  sealed parent (ps_set parent name value s).2.
Proof.
  intros Hp Hintact Hname Hslot Hreal.
  rewrite (ps_set_real _ _ _ _ _ _ Hp Hintact Hname Hslot Hreal).
  pose proof (finalizeTriggers_seals s parent value (mk_is_Some _ _ Hp)) as Hs.
  unfold bind. destruct (PSComponent_finalizeTriggers parent value s) as [[[]| | |] s1];
    simpl in *; try done.
  destruct Hs as (cm1 & Hc1 & Hf1). unfold update_comp. rewrite Hc1. simpl.
  eexists. split; [apply lookup_insert_eq | done].
Qed.

(** C9. In the [ps] of a component, a write over a slot that holds a real
    handle is the [finalizeTriggers] of that component itself, followed by
    the assignment; this for a name other than [__proto__], which is never
    a slot, in a [ps] that has no slot named [hasOwnProperty], where the
    trap throws before it looks at the slot.  Where the component and the
    component behind the written handle are two open components, the write
    returns normally and calls nothing; the maps of the owner are empty;
    the subscriptions of the owner have been added to those of the written
    component; and for every resolve function the owner held, a promise
    was requested from the written component and the relay that awaits it
    holds that resolve function: in a store where no resolve function
    names a promise that does not exist, every waiter of the owner ends
    behind a pending relay among the waiters of the written component,
    under its key, and a pending promise a consumer had requested from the
    owner is still pending and is fulfilled by the next fire of its key by
    the written component, with the arguments of that fire.  In every
    case the owner is sealed by the write, and after any further calls:
    subscribing, unsubscribing and firing through it throw
    [Error("Already finalized.")], a promise request hands out a promise
    rejected with that error, and another such write in its [ps] throws
    that error and leaves the store as it is. *)
Theorem scoped_name_reuse_seals_owner
    (s : Store) (parent : nat) (name : string) (occupant value : Handle)
    (cm : PSComponent) (ops : list Op) :
  comps s !! parent = Some cm → ps cm !! "hasOwnProperty" = None → name ≠ "__proto__" →
  ps cm !! name = Some occupant → (∀ i, occupant ≠ HProxy i) →
  ps_set parent name value s =
    (do! PSComponent_finalizeTriggers parent value in
     update_comp parent (λ cm, set_ps (<[name := value]> (ps cm)) cm)) s
  ∧ (∀ c cm', finalized cm = false → real value = Some c → parent ≠ c →
       comps s !! c = Some cm' → finalized cm' = false →
       let s1 := (ps_set parent name value s).2 in
       (ps_set parent name value s).1 = Ok tt
       ∧ log s1 = log s
       ∧ comps s1 !! parent = Some (mkPSComponent [] [] true (<[name := value]> (ps cm)))
       ∧ (∀ key, subscribers c key s1 =
                   members key (add_all (subscriptions cm) (subscriptions cm')))
       ∧ (∀ key, waiters c key s1 =
                   members key (relay_all (promises cm) (promises cm', heap s)).1)
       ∧ heap s1 = (relay_all (promises cm) (promises cm', heap s)).2
       ∧ (allocated s →
          (∀ key r, r ∈ waiters parent key s →
             ∃ q, heap s !! q = None ∧ heap s1 !! q = Some Pending
                  ∧ Relay q r ∈ waiters c key s1)
          ∧ (∀ key p args, Direct p ∈ waiters parent key s → heap s !! p = Some Pending →
               heap s1 !! p = Some Pending
               ∧ heap (PSComponent_trigger c key args s1).2 !! p = Some (Fulfilled args))))
  ∧ let s' := run ops (ps_set parent name value s).2 in
    sealed parent s'
    ∧ (∀ handle key cb args, real handle = Some parent →
         sub handle key cb s' = (Throw AlreadyFinalized, s')
         ∧ unsub handle key cb s' = (Throw AlreadyFinalized, s')
         ∧ PSComponent_trigger parent key args s' = (Throw AlreadyFinalized, s')
         ∧ ∃ p, heap s' !! p = None
                ∧ async handle key Consumer s' =
                    (Ok p, with_heap <[p := Rejected AlreadyFinalized]> s'))
    ∧ (∀ name' occupant' value' cm1,
         comps s' !! parent = Some cm1 → ps cm1 !! "hasOwnProperty" = None →
         name' ≠ "__proto__" → ps cm1 !! name' = Some occupant' →
         (∀ i, occupant' ≠ HProxy i) →
         ps_set parent name' value' s' = (Throw AlreadyFinalized, s')).
Proof.
  intros Hp Hintact Hname Hslot Hreal. split_and!.
  - by eapply ps_set_real.
  - intros c cm' Hf Hval Hne Hc Hf'. cbv zeta.
    rewrite (ps_set_real _ _ _ _ _ _ Hp Hintact Hname Hslot Hreal).
    rewrite (bind_ok _ _ _ _ _
               (finalizeTriggers_open value c parent s cm cm' Hval Hne Hp Hf Hc Hf')).
    unfold update_comp. cbn [comps]. rewrite lookup_insert_eq. cbn [fst snd].
    set (st := relay_all (promises cm) (promises cm', heap s)).
    match goal with |- context [subscribers c _ ?s'] => set (s1 := s') end.
    assert (comps s1 !! c =
              Some (fset this_subscriptions (add_all (subscriptions cm) (subscriptions cm'))
                      (fset this_promises st.1 cm'))) as Hc1.
    { subst s1. simpl.
      by rewrite insert_insert_eq, lookup_insert_ne, lookup_insert_eq. }
    assert (∀ key, waiters c key s1 = members key st.1) as Hwaiters
      by (intros key; unfold waiters; by rewrite Hc1).
    split_and!; try done.
    + subst s1. simpl. by rewrite lookup_insert_eq.
    + intros key. unfold subscribers. by rewrite Hc1.
    + intros (_ & Hcomps & _).
      assert (∀ k r x, r ∈ members k (promises cm') → x ∈ chain r → x ∈ dom (heap s))
        as Ht0.
      { intros k r x Hr. apply (Hcomps c cm' r Hc). by apply (elems_members _ k). }
      assert (∀ k rs r x, (k, rs) ∈ promises cm → r ∈ rs → x ∈ chain r → x ∈ dom (heap s))
        as Hm.
      { intros k rs r x Hin Hr. apply (Hcomps parent cm r Hp). apply elem_of_elems.
        by exists k, rs. }
      split.
      * intros key r Hr. unfold waiters in Hr. rewrite Hp in Hr. rewrite Hwaiters.
        by apply (relay_all_pending (heap s) (promises cm') (promises cm)).
      * intros key p args Hr Hpend. unfold waiters in Hr. rewrite Hp in Hr.
        assert (unsealed c s1) as Hopen by (eexists; split; [exact Hc1 | done]).
        destruct (trigger_open s1 c key args Hopen) as (_ & _ & Hheap & _).
        rewrite Hheap, Hwaiters.
        apply (relay_then_fire (heap s) (promises cm') (promises cm) key p args);
          try done.
        by apply members_elem.
  - cbv zeta.
    assert (sealed parent (run ops (ps_set parent name value s).2)) as Hsealed.
    { apply sealed_run. by eapply ps_set_real_seals. }
    split_and!; [done| |].
    + intros handle key cb args Hh.
      destruct (sealed_raises _ _ Hsealed handle key cb args value Hh)
        as (? & ? & ? & _ & ?). done.
    + intros name' occupant' value' cm1 Hp1 Hintact1 Hname1 Hslot1 Hreal1.
      rewrite (ps_set_real _ _ _ _ _ _ Hp1 Hintact1 Hname1 Hslot1 Hreal1).
      apply bind_throw.
      by destruct (sealed_raises _ _ Hsealed (HObject parent) "" 0 [] value' eq_refl)
        as (_ & _ & _ & ? & _).
Qed.

(** In a [ps] with a slot named [hasOwnProperty], both traps throw at
    [target.hasOwnProperty(property)], whatever the name, and change
    nothing. *)
Lemma shadowed_ps_throws s c cm shadow name value :
  comps s !! c = Some cm → ps cm !! "hasOwnProperty" = Some shadow →
  ps_get c name s = (Throw HasOwnPropertyNotAFunction, s)
  ∧ ps_set c name value s = (Throw HasOwnPropertyNotAFunction, s).
Proof.
  intros Hc Hshadow.
  assert (own (ps cm) name s = (Throw HasOwnPropertyNotAFunction, s)) as Hown.
  { unfold own. by rewrite decide_True by (by rewrite Hshadow). }
  unfold ps_get, ps_set. rewrite !(bind_ok _ _ _ _ _ (get_comp_ok _ _ _ Hc)).
  by rewrite !(bind_throw _ _ _ _ _ Hown).
Qed.

(** C9, as stated, fails for the slot named [hasOwnProperty]: once it
    holds a real handle, a write over it throws a [TypeError], runs no
    [finalizeTriggers] and leaves the owner open; subscribing and firing
    through the owner still return normally. *)
Lemma name_reuse_under_hasOwnProperty :
  let s := run [ONew None; ONew None; ONew None;
                OSet (Scoped 0) "hasOwnProperty" (HObject 1)] empty_store in
  let write := ps_set 0 "hasOwnProperty" (HObject 2) s in
  (comps s !! 0) ≫= (λ cm, ps cm !! "hasOwnProperty") = Some (HObject 1)
  ∧ write = (Throw HasOwnPropertyNotAFunction, s)
  ∧ (comps write.2 !! 0) ≫= (λ cm, Some (finalized cm)) = Some false
  ∧ (sub (HObject 0) "m" 7 write.2).1 = Ok tt
  ∧ (PSComponent_trigger 0 "m" [] write.2).1 = Ok tt.
Proof. vm_compute. by split_and!. Qed.


(** ** What is buffered in a discarded placeholder stays there *)


Section Shelved.
Context (i : nat) (cb : Callback) (p : nat).
Local Abbreviation I := (shelved i cb p).
Local Abbreviation good := (good_comp i cb p).
Local Abbreviation goodp := (good_proxy cb p).
Local Abbreviation goodt := (good_target i).

Lemma shelved_update_comp c f :
  (∀ cm, good cm → good (f cm)) → preserves I (update_comp c f).
Proof.
  intros Hf. apply preserves_update_comp.
  intros s cm (Hi & Hp & Hcomps & Hglob & Hprox & Hlog) Hc.
  split_and!; try done. simpl. intros c' cm' Hc'.
  destruct (decide (c = c')) as [->|Hne].
  - rewrite lookup_insert_eq in Hc'. injection Hc' as <-. eauto.
  - rewrite lookup_insert_ne in Hc' by done. eauto.
Qed.

Lemma shelved_update_proxy j f :
  (j ≠ i → ∀ px, goodp px → goodp (f px)) → preserves I (update_proxy j f).
Proof.
  intros Hf. apply preserves_update_proxy.
  intros s px (Hi & Hp & Hcomps & Hglob & Hprox & Hlog) Hj.
  split_and!; try done; simpl.
  - destruct (decide (j = i)) as [->|Hne].
    + rewrite lookup_insert_eq. eauto.
    + by rewrite lookup_insert_ne.
  - intros j' px' Hne Hj'. destruct (decide (j = j')) as [->|Hne'].
    + rewrite lookup_insert_eq in Hj'. injection Hj' as <-. eauto.
    + rewrite lookup_insert_ne in Hj' by done. eauto.
Qed.

Lemma shelved_update_global g f :
  (∀ t, goodt t → goodt (f t)) → preserves I (update_global g f).
Proof.
  intros Hf. apply preserves_update_global.
  intros s t (Hi & Hp & Hcomps & Hglob & Hprox & Hlog) Hg.
  split_and!; try done; simpl. intros g' t' Hg'.
  destruct (decide (g = g')) as [->|Hne].
  - rewrite lookup_insert_eq in Hg'. injection Hg' as <-. eauto.
  - rewrite lookup_insert_ne in Hg' by done. eauto.
Qed.

Lemma shelved_new_promise : hoare I new_promise (λ p', p' ≠ p).
Proof.
  intros s (Hi & Hp & Hcomps & Hglob & Hprox & Hlog).
  assert (fresh (dom (heap s)) ≠ p) as Hne.
  { intros Heq. apply (is_fresh (dom (heap s))). rewrite Heq. apply elem_of_dom. eauto. }
  split.
  - split_and!; try done. simpl. by rewrite lookup_insert_ne.
  - simpl. by intros ? [= <-].
Qed.

Lemma shelved_reject p' e : p' ≠ p → preserves I (reject p' e).
Proof.
  intros Hne. apply preserves_modify.
  intros s (Hi & Hp & Hcomps & Hglob & Hprox & Hlog).
  split_and!; try done. simpl.
  destruct (heap s !! p') as [[| |]|]; try done. by rewrite lookup_insert_ne.
Qed.

Lemma shelved_settle r a : p ∉ chain r → preserves I (modify (with_heap (settle r a))).
Proof.
  intros Hr. apply preserves_modify.
  intros s (Hi & Hp & Hcomps & Hglob & Hprox & Hlog).
  split_and!; try done. simpl. by rewrite settle_other.
Qed.

Lemma shelved_emit_resolve q a : preserves I (emit (EvResolve q a)).
Proof.
  apply preserves_modify.
  intros s (Hi & Hp & Hcomps & Hglob & Hprox & Hlog).
  split_and!; try done. simpl. intros a' [Hin|Hin]%elem_of_app; [by eapply Hlog|].
  by apply list_elem_of_singleton in Hin.
Qed.

Lemma shelved_emit_call x a : x ≠ cb → preserves I (emit (EvCall x a)).
Proof.
  intros Hne. apply preserves_modify.
  intros s (Hi & Hp & Hcomps & Hglob & Hprox & Hlog).
  split_and!; try done. simpl. intros a' [Hin|Hin]%elem_of_app; [by eapply Hlog|].
  apply list_elem_of_singleton in Hin. congruence.
Qed.

Lemma shelved_new_proxy : hoare I new_proxy (λ j, j ≠ i).
Proof.
  intros s (Hi & Hp & Hcomps & Hglob & Hprox & Hlog).
  assert (fresh (dom (proxies s)) ≠ i) as Hne.
  { intros Heq. apply (is_fresh (dom (proxies s))). rewrite Heq. by apply elem_of_dom. }
  split.
  - split_and!; try done; simpl.
    + by rewrite lookup_insert_ne.
    + intros j px Hj Hpx. destruct (decide (fresh (dom (proxies s)) = j)) as [<-|Hne'].
      * rewrite lookup_insert_eq in Hpx. injection Hpx as <-.
        split; [by intros ?%elem_of_nil | by intros r ?%elem_of_nil].
      * rewrite lookup_insert_ne in Hpx by done. eauto.
  - simpl. by intros ? [= <-].
Qed.

Lemma shelved_new_component : preserves I new_component.
Proof.
  intros s (Hi & Hp & Hcomps & Hglob & Hprox & Hlog). split; [|done].
  split_and!; try done. simpl. intros c cm Hc.
  destruct (decide (fresh (dom (comps s)) = c)) as [<-|Hne].
  - rewrite lookup_insert_eq in Hc. injection Hc as <-.
    split_and!; simpl; [by intros name; rewrite lookup_empty
                       | by intros ?%elem_of_nil | by intros r ?%elem_of_nil].
  - rewrite lookup_insert_ne in Hc by done. eauto.
Qed.

Lemma shelved_new_global : preserves I GlobalPubSub.
Proof.
  intros s (Hi & Hp & Hcomps & Hglob & Hprox & Hlog). split; [|done].
  split_and!; try done. simpl. intros g t Hg.
  destruct (decide (fresh (dom (globals s)) = g)) as [<-|Hne].
  - rewrite lookup_insert_eq in Hg. injection Hg as <-.
    intros name. by rewrite lookup_empty.
  - rewrite lookup_insert_ne in Hg by done. eauto.
Qed.

Lemma shelved_get_comp c : hoare I (get_comp c) good.
Proof. apply hoare_get_comp. intros s cm (_ & _ & Hcomps & _) Hc. eauto. Qed.

Lemma shelved_get_proxy j : hoare I (get_proxy j) (λ px, j ≠ i → goodp px).
Proof. apply hoare_get_proxy. intros s px (_ & _ & _ & _ & Hprox & _) Hj Hne. eauto. Qed.

Lemma shelved_get_global g : hoare I (get_global g) goodt.
Proof. apply hoare_get_global. intros s t (_ & _ & _ & Hglob & _) Hg. eauto. Qed.

Section ComponentMaps.
Context {X : Type} `{EqDecision X} (map : Field PSComponent X) (P : X → Prop).
Hypothesis map_good : ∀ cm x, good cm → x ∈ elems (fget map cm) → P x.
Hypothesis map_set_good : ∀ cm m,
  good cm → (∀ x, x ∈ elems m → P x) → good (fset map m cm).

Lemma shelved_ensure c key :
  preserves I (update_comp c (λ cm, fset map (jmap_set key [] (fget map cm)) cm)).
Proof.
  apply shelved_update_comp. intros cm Hcm. apply map_set_good; [done|].
  intros x Hx%elems_ensure. eauto.
Qed.

Lemma shelved_getTriggerSet c key :
  hoare I (PSComponent_getTriggerSet map c key) (λ set, ∀ x, x ∈ set → P x).
Proof.
  unfold PSComponent_getTriggerSet.
  eapply hoare_bind; [apply shelved_get_comp|]. intros cm Hcm.
  destruct (finalized cm); [apply hoare_throw|].
  destruct (jmap_get key (fget map cm)) as [set|] eqn:E.
  - apply hoare_ret. intros x Hx. eapply map_good; [done|]. by eapply elems_get.
  - apply preserves_bind; [apply shelved_ensure|]. intros _.
    apply hoare_ret. by intros x ?%elem_of_nil.
Qed.

Lemma shelved_add c key y :
  P y → preserves I (PSComponent_mutateSet map c key (jset_add y)).
Proof.
  intros Hy. apply shelved_update_comp. intros cm Hcm. apply map_set_good; [done|].
  intros x [->|Hx]%elems_mutate_add; eauto.
Qed.

Lemma shelved_delete c key y :
  preserves I (PSComponent_mutateSet map c key (jset_delete y)).
Proof.
  apply shelved_update_comp. intros cm Hcm. apply map_set_good; [done|].
  intros x Hx%elems_mutate_delete. eauto.
Qed.

Lemma shelved_drop c key :
  preserves I (update_comp c (λ cm, fset map (jmap_delete key (fget map cm)) cm)).
Proof.
  apply shelved_update_comp. intros cm Hcm. apply map_set_good; [done|].
  intros x Hx%elems_delete. eauto.
Qed.
End ComponentMaps.

Section ProxyMaps.
Context {X : Type} `{EqDecision X} (map : Field PubSubProxy X) (P : X → Prop).
Hypothesis map_good : ∀ px x, goodp px → x ∈ elems (fget map px) → P x.
Hypothesis map_set_good : ∀ px m,
  goodp px → (∀ x, x ∈ elems m → P x) → goodp (fset map m px).

Lemma shelved_proxy_ensure j key :
  preserves I (update_proxy j (λ px, fset map (jmap_set key [] (fget map px)) px)).
Proof.
  apply shelved_update_proxy. intros _ px Hpx. apply map_set_good; [done|].
  intros x Hx%elems_ensure. eauto.
Qed.

Lemma shelved_proxy_getTriggerSet j key :
  hoare I (PubSubProxy_getTriggerSet map j key) (λ set, j ≠ i → ∀ x, x ∈ set → P x).
Proof.
  unfold PubSubProxy_getTriggerSet.
  eapply hoare_bind; [apply shelved_get_proxy|]. intros px Hpx.
  destruct (jmap_get key (fget map px)) as [set|] eqn:E.
  - apply hoare_ret. intros Hj x Hx. eapply map_good; [by apply Hpx|]. by eapply elems_get.
  - apply preserves_bind; [apply shelved_proxy_ensure|]. intros _.
    apply hoare_ret. by intros _ x ?%elem_of_nil.
Qed.

Lemma shelved_proxy_add j key y :
  (j ≠ i → P y) → preserves I (PubSubProxy_mutateSet map j key (jset_add y)).
Proof.
  intros Hy. apply shelved_update_proxy. intros Hj px Hpx. apply map_set_good; [done|].
  intros x [->|Hx]%elems_mutate_add; eauto.
Qed.

Lemma shelved_proxy_delete j key y :
  preserves I (PubSubProxy_mutateSet map j key (jset_delete y)).
Proof.
  apply shelved_update_proxy. intros Hj px Hpx. apply map_set_good; [done|].
  intros x Hx%elems_mutate_delete. eauto.
Qed.

Lemma shelved_proxy_drop j key :
  preserves I (update_proxy j (λ px, fset map (jmap_delete key (fget map px)) px)).
Proof.
  apply shelved_update_proxy. intros Hj px Hpx. apply map_set_good; [done|].
  intros x Hx%elems_delete. eauto.
Qed.
End ProxyMaps.

(** The two maps of a component and of a placeholder, each with what its
    members must satisfy. *)
Lemma subscriptions_good cm x : good cm → x ∈ elems (fget this_subscriptions cm) → x ≠ cb.
Proof. intros (_ & Hcb & _) Hx ->. done. Qed.

Lemma subscriptions_set_good cm m :
  good cm → (∀ x, x ∈ elems m → x ≠ cb) → good (fset this_subscriptions m cm).
Proof.
  intros (Hps & Hcb & Hp) Hm. split_and!; try done. simpl. intros Hin. by apply (Hm cb).
Qed.

Lemma promises_good cm r : good cm → r ∈ elems (fget this_promises cm) → p ∉ chain r.
Proof. intros (_ & _ & Hp) Hr. by apply Hp. Qed.

Lemma promises_set_good cm m :
  good cm → (∀ r, r ∈ elems m → p ∉ chain r) → good (fset this_promises m cm).
Proof. intros (Hps & Hcb & Hp) Hm. by split_and!. Qed.

Lemma proxy_subscriptions_good px x :
  goodp px → x ∈ elems (fget proxy_subscriptions px) → x ≠ cb.
Proof. intros (Hcb & _) Hx ->. done. Qed.

Lemma proxy_subscriptions_set_good px m :
  goodp px → (∀ x, x ∈ elems m → x ≠ cb) → goodp (fset proxy_subscriptions m px).
Proof. intros (Hcb & Hp) Hm. split; [|done]. simpl. intros Hin. by apply (Hm cb). Qed.

Lemma proxy_promises_good px r :
  goodp px → r ∈ elems (fget proxy_promises px) → p ∉ chain r.
Proof. intros (_ & Hp) Hr. by apply Hp. Qed.

Lemma proxy_promises_set_good px m :
  goodp px → (∀ r, r ∈ elems m → p ∉ chain r) → goodp (fset proxy_promises m px).
Proof. intros (Hcb & Hp) Hm. by split. Qed.

Ltac maps_good :=
  first [ apply subscriptions_good | apply subscriptions_set_good
        | apply promises_good | apply promises_set_good
        | apply proxy_subscriptions_good | apply proxy_subscriptions_set_good
        | apply proxy_promises_good | apply proxy_promises_set_good ].

Lemma resolver_of_good p' w : p' ≠ p → good_waiting p w → p ∉ chain (resolver_of p' w).
Proof.
  intros Hne Hw. destruct w as [|k]; simpl in *.
  - by intros ?%list_elem_of_singleton.
  - intros [?|?]%elem_of_cons; done.
Qed.

Lemma shelved_triggerSubscribe c key x :
  x ≠ cb → preserves I (PSComponent_triggerSubscribe c key x).
Proof.
  intros Hx. unfold PSComponent_triggerSubscribe.
  eapply hoare_bind.
  - apply (shelved_getTriggerSet this_subscriptions (λ x, x ≠ cb)); maps_good.
  - intros _ _. by apply (shelved_add this_subscriptions (λ x, x ≠ cb)); try maps_good.
Qed.

Lemma shelved_triggerUnsubscribe c key x :
  preserves I (PSComponent_triggerUnsubscribe c key x).
Proof.
  unfold PSComponent_triggerUnsubscribe.
  eapply hoare_bind.
  { apply (shelved_getTriggerSet this_subscriptions (λ x, x ≠ cb)); maps_good. }
  intros _ _. apply preserves_bind.
  { apply (shelved_delete this_subscriptions (λ x, x ≠ cb)); maps_good. }
  intros _. eapply hoare_bind; [apply shelved_get_comp|]. intros cm _.
  case_decide; [|by apply hoare_ret].
  apply (shelved_drop this_subscriptions (λ x, x ≠ cb)); maps_good.
Qed.

Lemma shelved_triggerPromise c key w :
  good_waiting p w → preserves I (PSComponent_triggerPromise c key w).
Proof.
  intros Hw. unfold PSComponent_triggerPromise.
  eapply hoare_bind; [apply shelved_new_promise|]. intros p' Hp'.
  apply preserves_bind; [|intros _; by apply hoare_ret].
  apply hoare_catch; [|intros e; by apply shelved_reject].
  eapply hoare_bind.
  - apply (shelved_getTriggerSet this_promises (λ r, p ∉ chain r)); maps_good.
  - intros _ _. apply (shelved_add this_promises (λ r, p ∉ chain r)); try maps_good.
    by apply resolver_of_good.
Qed.

Lemma shelved_trigger c key args : preserves I (PSComponent_trigger c key args).
Proof.
  unfold PSComponent_trigger.
  eapply hoare_bind.
  { apply (shelved_getTriggerSet this_promises (λ r, p ∉ chain r)); maps_good. }
  intros ws Hws. apply preserves_bind.
  { apply preserves_forEach. intros r Hr. unfold call_resolve.
    apply preserves_bind; [apply shelved_emit_resolve|]. intros _.
    apply shelved_settle. by apply Hws. }
  intros _. apply preserves_bind.
  { apply (shelved_drop this_promises (λ r, p ∉ chain r)); maps_good. }
  intros _. eapply hoare_bind.
  { apply (shelved_getTriggerSet this_subscriptions (λ x, x ≠ cb)); maps_good. }
  intros cbs Hcbs. apply preserves_forEach. intros x Hx.
  apply shelved_emit_call. by apply Hcbs.
Qed.

Lemma shelved_proxy_triggerSubscribe j key x :
  j = i ∨ x ≠ cb → preserves I (PubSubProxy_triggerSubscribe j key x).
Proof.
  intros Hx. unfold PubSubProxy_triggerSubscribe.
  eapply hoare_bind.
  - apply (shelved_proxy_getTriggerSet proxy_subscriptions (λ x, x ≠ cb)); maps_good.
  - intros _ _. apply (shelved_proxy_add proxy_subscriptions (λ x, x ≠ cb)); try maps_good.
    intros Hj. by destruct Hx.
Qed.

Lemma shelved_proxy_triggerUnsubscribe j key x :
  preserves I (PubSubProxy_triggerUnsubscribe j key x).
Proof.
  unfold PubSubProxy_triggerUnsubscribe.
  eapply hoare_bind.
  { apply (shelved_proxy_getTriggerSet proxy_subscriptions (λ x, x ≠ cb)); maps_good. }
  intros _ _. apply preserves_bind.
  { apply (shelved_proxy_delete proxy_subscriptions (λ x, x ≠ cb)); maps_good. }
  intros _. eapply hoare_bind; [apply shelved_get_proxy|]. intros px _.
  case_decide; [|by apply hoare_ret].
  apply (shelved_proxy_drop proxy_subscriptions (λ x, x ≠ cb)); maps_good.
Qed.

Lemma shelved_proxy_async j key w :
  j = i ∨ good_waiting p w → preserves I (PubSubProxy_async j key w).
Proof.
  intros Hw. unfold PubSubProxy_async.
  eapply hoare_bind; [apply shelved_new_promise|]. intros p' Hp'.
  apply preserves_bind; [|intros _; by apply hoare_ret].
  apply hoare_catch; [|intros e; by apply shelved_reject].
  eapply hoare_bind.
  - apply (shelved_proxy_getTriggerSet proxy_promises (λ r, p ∉ chain r)); maps_good.
  - intros _ _. apply (shelved_proxy_add proxy_promises (λ r, p ∉ chain r)); try maps_good.
    intros Hj. destruct Hw as [?|Hw]; [done|]. by apply resolver_of_good.
Qed.

Lemma shelved_sub h key x : h = HProxy i ∨ x ≠ cb → preserves I (sub h key x).
Proof.
  intros Hx. destruct h as [j|c|c]; simpl.
  - apply shelved_proxy_triggerSubscribe. destruct Hx as [[= ->]|?]; auto.
  - apply shelved_triggerSubscribe. by destruct Hx.
  - apply shelved_triggerSubscribe. by destruct Hx.
Qed.

Lemma shelved_unsub h key x : preserves I (unsub h key x).
Proof.
  destruct h; simpl;
    [apply shelved_proxy_triggerUnsubscribe | apply shelved_triggerUnsubscribe..].
Qed.

Lemma shelved_async h key w : good_waiting p w → preserves I (async h key w).
Proof.
  intros Hw. destruct h; simpl;
    [apply shelved_proxy_async; by right | by apply shelved_triggerPromise..].
Qed.

Lemma shelved_forward_promises h m :
  (∀ r, r ∈ elems m → p ∉ chain r) → preserves I (forward_promises h m).
Proof.
  intros Hm. unfold forward_promises. apply preserves_forEach. intros [key set] Hin.
  apply preserves_forEach. intros r Hr. unfold forward_promise.
  eapply preserves_void. apply shelved_async. simpl.
  apply Hm, elem_of_elems. eauto.
Qed.

Lemma shelved_forward_subscriptions h m :
  cb ∉ elems m → preserves I (forward_subscriptions h m).
Proof.
  intros Hm. unfold forward_subscriptions. apply preserves_forEach. intros [key set] Hin.
  apply preserves_forEach. intros x Hx. apply shelved_sub. right. intros ->.
  apply Hm, elem_of_elems. eauto.
Qed.

Lemma shelved_finalizeTriggers c h : preserves I (PSComponent_finalizeTriggers c h).
Proof.
  unfold PSComponent_finalizeTriggers.
  eapply hoare_bind; [apply shelved_get_comp|]. intros cm (Hps & Hcb & Hp).
  destruct (finalized cm); [apply hoare_throw|].
  apply preserves_bind.
  { apply shelved_update_comp. by intros cm' (? & ? & ?). }
  intros _. apply preserves_bind; [by apply shelved_forward_promises|].
  intros _. apply preserves_bind; [by apply shelved_forward_subscriptions|].
  intros _. apply shelved_update_comp. intros cm' (? & ? & ?).
  split_and!; simpl; [done | by intros ?%elem_of_nil | by intros r ?%elem_of_nil].
Qed.

Lemma shelved_finalize j h : j ≠ i → preserves I (PubSubProxy_finalize j h).
Proof.
  intros Hj. unfold PubSubProxy_finalize.
  eapply hoare_bind; [apply shelved_get_proxy|]. intros px Hpx.
  destruct (Hpx Hj) as (Hcb & Hp).
  case_decide; [apply hoare_diverge|].
  apply preserves_bind; [by apply shelved_forward_promises|].
  intros _. apply preserves_bind; [by apply shelved_forward_subscriptions|].
  intros _. apply shelved_update_proxy. intros _ px' _.
  split; simpl; [by intros ?%elem_of_nil | by intros r ?%elem_of_nil].
Qed.

Lemma good_set_ps cm name v :
  v ≠ HProxy i → good cm → good (set_ps (<[name := v]> (ps cm)) cm).
Proof.
  intros Hv (Hps & Hcb & Hp). split_and!; try done. simpl. intros name'.
  destruct (decide (name = name')) as [->|Hne].
  - rewrite lookup_insert_eq. congruence.
  - by rewrite lookup_insert_ne.
Qed.

Lemma goodt_insert t name v : v ≠ HProxy i → goodt t → goodt (<[name := v]> t).
Proof.
  intros Hv Ht name'. destruct (decide (name = name')) as [->|Hne].
  - rewrite lookup_insert_eq. congruence.
  - rewrite lookup_insert_ne by done. apply Ht.
Qed.

Lemma good_store_ps cm name v :
  v ≠ HProxy i → good cm → good (set_ps (store_property name v (ps cm)) cm).
Proof.
  intros Hv Hcm. unfold store_property. case_decide; [|by apply good_set_ps].
  by destruct cm.
Qed.

Lemma goodt_store t name v : v ≠ HProxy i → goodt t → goodt (store_property name v t).
Proof.
  intros Hv Ht. unfold store_property. case_decide; [done | by apply goodt_insert].
Qed.

Lemma shelved_own t name :
  hoare I (own t name) (λ occupant, ∀ h, occupant = Some h → t !! name = Some h).
Proof. apply hoare_own. intros occupant [->| ->]; by intros. Qed.

Lemma shelved_ps_get c name : preserves I (ps_get c name).
Proof.
  unfold ps_get. eapply hoare_bind; [apply shelved_get_comp|]. intros cm Hcm.
  eapply hoare_bind; [apply shelved_own|]. intros occupant _.
  destruct occupant; [by apply hoare_ret|].
  eapply hoare_bind; [apply shelved_new_proxy|]. intros j Hj.
  apply preserves_bind; [|intros _; by apply hoare_ret].
  apply shelved_update_comp. intros cm'. apply good_store_ps. congruence.
Qed.

Lemma shelved_ps_set c name v : v ≠ HProxy i → preserves I (ps_set c name v).
Proof.
  intros Hv. unfold ps_set. eapply hoare_bind; [apply shelved_get_comp|].
  intros cm (Hps & _). eapply hoare_bind; [apply shelved_own|]. intros occupant Hocc.
  apply preserves_bind.
  - destruct occupant as [[j|c'|c']|] eqn:E.
    + apply shelved_finalize. intros ->. by eapply Hps, Hocc.
    + apply shelved_finalizeTriggers.
    + apply shelved_finalizeTriggers.
    + by apply hoare_ret.
  - intros _. apply shelved_update_comp. intros cm'. by apply good_store_ps.
Qed.

Lemma shelved_global_get g name : preserves I (GlobalPubSub_get g name).
Proof.
  unfold GlobalPubSub_get. eapply hoare_bind; [apply shelved_get_global|]. intros t Ht.
  eapply hoare_bind; [apply shelved_own|]. intros occupant _.
  destruct occupant; [by apply hoare_ret|].
  eapply hoare_bind; [apply shelved_new_proxy|]. intros j Hj.
  apply preserves_bind; [|intros _; by apply hoare_ret].
  apply shelved_update_global. intros t'. apply goodt_store. congruence.
Qed.

Lemma shelved_global_set g name v : v ≠ HProxy i → preserves I (GlobalPubSub_set g name v).
Proof.
  intros Hv. unfold GlobalPubSub_set. eapply hoare_bind; [apply shelved_get_global|].
  intros t Ht. eapply hoare_bind; [apply shelved_own|]. intros occupant Hocc.
  apply preserves_bind.
  - destruct occupant as [[j|c'|c']|] eqn:E.
    + apply shelved_finalize. intros ->. by eapply Ht, Hocc.
    + apply hoare_throw.
    + apply shelved_finalizeTriggers.
    + by apply hoare_ret.
  - intros _. apply shelved_update_global. intros t'. by apply goodt_store.
Qed.

Lemma shelved_registry_get r name : preserves I (registry_get r name).
Proof. destruct r; [apply shelved_ps_get | apply shelved_global_get]. Qed.

Lemma shelved_registry_set r name v : v ≠ HProxy i → preserves I (registry_set r name v).
Proof. intros. destruct r; [by apply shelved_ps_set | by apply shelved_global_set]. Qed.

Lemma shelved_assign o id v : v ≠ HProxy i → preserves I (assign o id v).
Proof.
  intros. destruct o; simpl; [apply hoare_throw.. | by apply shelved_registry_set].
Qed.

Lemma shelved_constructor pubsub : preserves I (constructor pubsub).
Proof.
  unfold constructor. apply preserves_bind; [apply shelved_new_component|].
  intros this. apply preserves_bind; [|intros _; by apply hoare_ret].
  destruct pubsub as [pubsub|]; [|by apply hoare_ret].
  unfold link.
  destruct (nth 0 pubsub JUndefined); destruct (nth 1 pubsub JUndefined);
    repeat first
      [ apply hoare_throw
      | apply preserves_bind; [|intros _]
      | apply preserves_forEach; intros ? _
      | by apply shelved_assign ].
Qed.

Lemma shelved_exec o : leaves_alone i cb o → preserves I (exec o).
Proof.
  intros Ho. destruct o; simpl in *.
  - eapply preserves_void, shelved_constructor.
  - eapply preserves_void, shelved_new_global.
  - eapply preserves_void, shelved_registry_get.
  - by apply shelved_registry_set.
  - eapply preserves_void, shelved_async. done.
  - by apply shelved_sub.
  - apply shelved_unsub.
  - apply shelved_trigger.
  - by apply shelved_finalize.
  - apply shelved_finalizeTriggers.
Qed.

(** Whatever calls follow that leave the placeholder alone, it stays
    shelved. *)
Lemma shelved_run ops s : Forall (leaves_alone i cb) ops → I s → I (run ops s).
Proof.
  intros Hops. apply run_invariant. intros o Ho. apply shelved_exec.
  by eapply Forall_forall in Hops.
Qed.
End Shelved.

(** ** A placeholder after its finalize *)

(** C10. A placeholder has no sealed state: wherever it exists,
    subscribing, unsubscribing and requesting a promise return normally.
    After a [finalize] that returned, with both maps empty, a subscription
    and a promise request fill the maps again, and unsubscribing changes
    nothing.  Once the placeholder is out of every registry, and as long as
    no call puts it back or finalizes it, what was buffered after the
    finalize is forwarded to no one: a callback subscribed nowhere else is
    never called and is subscribed nowhere else, and the promise stays
    pending. *)
Theorem placeholder_never_sealed
    (s : Store) (i : nat) (h : Handle) (key : string) (cb : Callback) (ops : list Op) :
  (PubSubProxy_finalize i h s).1 = Ok tt →
  let s1 := (PubSubProxy_finalize i h s).2 in
  let p := fresh (dom (heap s1)) in
  let s2 := with_proxies <[i := mkPubSubProxy [(key, [Direct p])] [(key, [cb])]]>
              (with_heap <[p := Pending]> s1) in
  (∀ s0 k x, is_Some (proxies s0 !! i) →
     (PubSubProxy_triggerSubscribe i k x s0).1 = Ok tt
     ∧ (PubSubProxy_triggerUnsubscribe i k x s0).1 = Ok tt
     ∧ (PubSubProxy_async i k Consumer s0).1 = Ok (fresh (dom (heap s0))))
  ∧ PubSubProxy_triggerSubscribe i key cb s1 =
      (Ok tt, with_proxies <[i := mkPubSubProxy [] [(key, [cb])]]> s1)
  ∧ PubSubProxy_triggerUnsubscribe i key cb s1 = (Ok tt, s1)
  ∧ PubSubProxy_async i key Consumer s1 =
      (Ok p, with_proxies <[i := mkPubSubProxy [(key, [Direct p])] []]>
               (with_heap <[p := Pending]> s1))
  ∧ (do! PubSubProxy_triggerSubscribe i key cb in PubSubProxy_async i key Consumer) s1 =
      (Ok p, s2)
  ∧ (shelved i cb p s2 → Forall (leaves_alone i cb) ops →
     let s3 := run ops s2 in
     heap s3 !! p = Some Pending ∧ (∀ a, EvCall cb a ∉ log s3) ∧ shelved i cb p s3).
Proof.
  intros Hok. cbv zeta.
  pose proof (finalize_ok_cleared s i h Hok) as Hi.
  set (s1 := (PubSubProxy_finalize i h s).2) in *.
  split_and!.
  - intros s0 k x [px Hpx]. split_and!.
    + by rewrite (proxy_triggerSubscribe_ok _ _ _ k x Hpx).
    + by rewrite (proxy_triggerUnsubscribe_ok _ _ _ k x Hpx).
    + pose proof (proxy_async_ok _ _ _ k Consumer Hpx) as Heq. cbv zeta in Heq.
      by rewrite Heq.
  - by rewrite (proxy_triggerSubscribe_ok _ _ _ key cb Hi).
  - rewrite (proxy_triggerUnsubscribe_ok _ _ _ key cb Hi). simpl.
    by rewrite with_proxies_insert_id.
  - pose proof (proxy_async_ok _ _ _ key Consumer Hi) as Heq. cbv zeta in Heq.
    by rewrite Heq.
  - rewrite (bind_ok _ _ _ _ _ (proxy_triggerSubscribe_ok _ _ _ key cb Hi)).
    assert (∀ s' px, proxies s' !! i = Some px →
              PubSubProxy_async i key Consumer s' =
                (Ok (fresh (dom (heap s'))),
                 with_proxies
                   <[i := fset proxy_promises
                            (jmap_add key (Direct (fresh (dom (heap s')))) (px_promises px))
                            px]>
                   (with_heap <[fresh (dom (heap s')) := Pending]> s'))) as Hasync
      by (intros; by apply proxy_async_ok).
    rewrite (Hasync _ _ (proxies_insert_lookup _ _ _)).
    simpl. unfold with_proxies, with_heap. simpl.
    by rewrite insert_insert_eq.
  - intros Hshelved Hops.
    pose proof (shelved_run i cb _ ops _ Hops Hshelved) as Hrun.
    split_and!; [apply Hrun | apply Hrun | done].
Qed.

Lemma placeholder_never_sealed_witness :
  let s2 := ((do! PubSubProxy_triggerSubscribe 0 "m" 7 in
              PubSubProxy_async 0 "m" Consumer)
               (PubSubProxy_finalize 0 (HObject 0) stale_placeholder).2).2 in
  let s3 := run [OTrigger 0 "m" [VNum 1]; OSub (HProxy 0) "m" 8; OGet (Global 0) "other"] s2 in
  heap s3 !! 0 = Some Pending ∧ ∀ a, EvCall 7 a ∉ log s3.
Proof.
  cbv zeta.
  destruct (placeholder_never_sealed stale_placeholder 0 (HObject 0) "m" 7
              [OTrigger 0 "m" [VNum 1]; OSub (HProxy 0) "m" 8; OGet (Global 0) "other"])
    as (_ & _ & _ & _ & Hs2 & Hnever).
  { vm_compute. reflexivity. }
  rewrite Hs2. cbv zeta in Hnever.
  assert ((PubSubProxy_finalize 0 (HObject 0) stale_placeholder).2 =
          mkStore {[0 := mkPSComponent [] [] false ∅]} {[0 := mkPubSubProxy [] []]}
            {[0 := {["child" := HObject 0]}]} ∅ []) as Hs1
    by (vm_compute; reflexivity).
  rewrite Hs1 in Hnever |- *.
  assert (fresh (dom (∅ : gmap nat PState)) = 0) as Hp by (vm_compute; reflexivity).
  simpl in Hnever |- *. rewrite Hp in Hnever |- *.
  destruct Hnever as (Hpend & Hcalls & _).
  - split_and!; simpl.
    + rewrite lookup_insert_eq. eauto.
    + apply lookup_insert_eq.
    + intros c cm [<- <-]%lookup_singleton_Some. split_and!; simpl.
      * intros name. by rewrite lookup_empty.
      * by intros ?%elem_of_nil.
      * by intros r ?%elem_of_nil.
    + intros g t [<- <-]%lookup_singleton_Some name Hname.
      by apply lookup_singleton_Some in Hname as [_ ?].
    + intros j px Hj Hpx. rewrite lookup_insert_ne in Hpx by done.
      apply lookup_singleton_Some in Hpx as [? _]. done.
    + by intros a ?%elem_of_nil.
  - repeat constructor; simpl; auto.
  - split; [exact Hpend | exact Hcalls].
Defined.

(** ** Resolve functions only name promises that exist *)

Section Extends.
Implicit Types (R : gset nat) (s : Store) (r : Resolver).

Lemma known_mono R R' r : R ⊆ R' → known R r → known R' r.
Proof. intros HR Hr q Hq. apply HR. by apply Hr. Qed.

Lemma tracked_frame R s s' :
  dom (heap s) ⊆ dom (heap s') → comps s' = comps s → proxies s' = proxies s →
  tracked R s → tracked R s'.
Proof.
  intros Hdom Hc Hp (HR & Hcs & Hps). split_and!.
  - set_solver.
  - rewrite Hc. apply Hcs.
  - rewrite Hp. apply Hps.
Qed.

Lemma extends_mono {A} R R' (m : M A) φ : R ⊆ R' → extends R m φ → extends R' m φ.
Proof. intros HR Hm R1 s HR1 Hs. apply Hm; [set_solver | done]. Qed.

Lemma extends_weaken {A} R (m : M A) (φ ψ : gset nat → A → Prop) :
  extends R m φ → (∀ R2 a, φ R2 a → ψ R2 a) → extends R m ψ.
Proof.
  intros Hm Himp R1 s HR1 Hs. destruct (Hm R1 s HR1 Hs) as (R2 & ? & ? & Hφ).
  exists R2. split_and!; [done..|]. intros a Ha. by apply Himp, Hφ.
Qed.

Lemma extends_ret {A} R (a : A) (φ : gset nat → A → Prop) :
  (∀ R2, R ⊆ R2 → φ R2 a) → extends R (ret a) φ.
Proof.
  intros Ha R1 s HR1 Hs. exists R1. split_and!; [done..|]. intros ? [= <-]. by apply Ha.
Qed.

Lemma extends_throw {A} R e (φ : gset nat → A → Prop) : extends R (throw e) φ.
Proof. intros R1 s HR1 Hs. exists R1. by split_and!. Qed.

Lemma extends_diverge {A} R (φ : gset nat → A → Prop) : extends R diverge φ.
Proof. intros R1 s HR1 Hs. exists R1. by split_and!. Qed.

Lemma extends_bind {A B} R (m : M A) (f : A → M B) φ ψ :
  extends R m φ → (∀ R2 a, R ⊆ R2 → φ R2 a → extends R2 (f a) ψ) →
  extends R (bind m f) ψ.
Proof.
  intros Hm Hf R1 s HR1 Hs. destruct (Hm R1 s HR1 Hs) as (R2 & HR2 & Hs2 & Hφ).
  unfold bind. destruct (m s) as [[a| | |] s']; simpl in *;
    try (exists R2; by split_and!).
  destruct (Hf R2 a) with (R1 := R2) (s := s') as (R3 & HR3 & Hs3 & Hψ);
    [set_solver | by apply Hφ | done | done |].
  exists R3. split_and!; [set_solver | done..].
Qed.

Lemma extends_seq {A B} R (m : M A) (f : A → M B) ψ :
  extends R m (λ _ _, True) → (∀ R2 a, R ⊆ R2 → extends R2 (f a) ψ) →
  extends R (bind m f) ψ.
Proof. intros Hm Hf. eapply extends_bind; [exact Hm|]. intros R2 a HR2 _. by apply Hf. Qed.

Lemma extends_catch {A} R (m : M A) (h : Exn → M A) φ :
  extends R m φ → (∀ R2 e, R ⊆ R2 → extends R2 (h e) φ) → extends R (catch m h) φ.
Proof.
  intros Hm Hh R1 s HR1 Hs. destruct (Hm R1 s HR1 Hs) as (R2 & HR2 & Hs2 & Hφ).
  unfold catch. destruct (m s) as [[a| | |] s']; simpl in *;
    try (exists R2; by split_and!).
  destruct (Hh R2 e) with (R1 := R2) (s := s') as (R3 & HR3 & Hs3 & Hψ);
    [set_solver | done | done |].
  exists R3. split_and!; [set_solver | done..].
Qed.

Lemma extends_forEach {X} R (l : list X) (f : X → M unit) :
  (∀ x, x ∈ l → extends R (f x) (λ _ _, True)) →
  extends R (forEach l f) (λ _ _, True).
Proof.
  revert R. induction l as [|x l IH]; intros R Hf; simpl.
  - by apply extends_ret.
  - apply extends_seq; [apply Hf; by left|]. intros R2 _ HR2. apply IH.
    intros y Hy. eapply extends_mono; [exact HR2|]. apply Hf. by right.
Qed.

Lemma extends_void {A} R (m : M A) φ : extends R m φ → extends R (void m) (λ _ _, True).
Proof. intros Hm. eapply extends_bind; [exact Hm|]. intros. by apply extends_ret. Qed.

(** A write that keeps every store tracked. *)
Lemma extends_modify R (f : Store → Store) :
  (∀ R1 s, tracked R1 s → tracked R1 (f s)) → extends R (modify f) (λ _ _, True).
Proof. intros Hf R1 s HR1 Hs. exists R1. split_and!; [done | by apply Hf | done]. Qed.

Lemma extends_update_comp R c f :
  (∀ R1 cm, R ⊆ R1 →
     (∀ r, r ∈ elems (promises cm) → known R1 r) →
     ∀ r, r ∈ elems (promises (f cm)) → known R1 r) →
  extends R (update_comp c f) (λ _ _, True).
Proof.
  intros Hf R1 s HR1 (HR & Hcs & Hps). exists R1. split_and!; [done| |done].
  unfold update_comp. destruct (comps s !! c) as [cm|] eqn:Hc; simpl; [|done].
  split_and!; try done. simpl. intros c' cm' r Hc'.
  destruct (decide (c = c')) as [->|Hne].
  - rewrite lookup_insert_eq in Hc'. injection Hc' as <-.
    apply Hf; [done|]. intros r'. by apply (Hcs c').
  - rewrite lookup_insert_ne in Hc' by done. by apply (Hcs c').
Qed.

Lemma extends_update_proxy R j f :
  (∀ R1 px, R ⊆ R1 →
     (∀ r, r ∈ elems (px_promises px) → known R1 r) →
     ∀ r, r ∈ elems (px_promises (f px)) → known R1 r) →
  extends R (update_proxy j f) (λ _ _, True).
Proof.
  intros Hf R1 s HR1 (HR & Hcs & Hps). exists R1. split_and!; [done| |done].
  unfold update_proxy. destruct (proxies s !! j) as [px|] eqn:Hj; simpl; [|done].
  split_and!; try done. simpl. intros j' px' r Hj'.
  destruct (decide (j = j')) as [->|Hne].
  - rewrite lookup_insert_eq in Hj'. injection Hj' as <-.
    apply Hf; [done|]. intros r'. by apply (Hps j').
  - rewrite lookup_insert_ne in Hj' by done. by apply (Hps j').
Qed.

Lemma extends_update_global R g f : extends R (update_global g f) (λ _ _, True).
Proof.
  intros R1 s HR1 Hs. exists R1. split_and!; [done| |done].
  unfold update_global. destruct (globals s !! g); simpl; [|done].
  by apply (tracked_frame R1 s).
Qed.

Lemma extends_get_comp R c :
  extends R (get_comp c) (λ R2 cm, ∀ r, r ∈ elems (promises cm) → known R2 r).
Proof.
  intros R1 s HR1 Hs. exists R1. unfold get_comp.
  destruct (comps s !! c) as [cm|] eqn:Hc; simpl; split_and!; try done.
  intros ? [= <-] r Hr. destruct Hs as (_ & Hcs & _). by eapply Hcs.
Qed.

Lemma extends_get_proxy R j :
  extends R (get_proxy j) (λ R2 px, ∀ r, r ∈ elems (px_promises px) → known R2 r).
Proof.
  intros R1 s HR1 Hs. exists R1. unfold get_proxy.
  destruct (proxies s !! j) as [px|] eqn:Hj; simpl; split_and!; try done.
  intros ? [= <-] r Hr. destruct Hs as (_ & _ & Hps). by eapply Hps.
Qed.

Lemma extends_get_global R g : extends R (get_global g) (λ _ _, True).
Proof.
  intros R1 s HR1 Hs. exists R1. unfold get_global.
  destruct (globals s !! g); simpl; by split_and!.
Qed.

Lemma extends_new_promise R : extends R new_promise (λ R2 p, p ∈ R2).
Proof.
  intros R1 s HR1 (HR & Hcs & Hps). exists ({[fresh (dom (heap s))]} ∪ R1).
  split_and!; [set_solver| |].
  - split_and!; simpl.
    + rewrite dom_insert_L. set_solver.
    + intros c cm r Hc Hr. eapply known_mono; [|by eapply Hcs]. set_solver.
    + intros j px r Hj Hr. eapply known_mono; [|by eapply Hps]. set_solver.
  - simpl. intros ? [= <-]. set_solver.
Qed.

Lemma extends_reject R p e : extends R (reject p e) (λ _ _, True).
Proof.
  apply extends_modify. intros R1 s Hs. apply (tracked_frame R1 s); try done.
  simpl. destruct (heap s !! p) as [[| |]|]; try done. rewrite dom_insert_L. set_solver.
Qed.

Lemma settle_dom r a h : dom h ⊆ dom (settle r a h).
Proof.
  intros q [st Hq]%elem_of_dom. apply elem_of_dom.
  destruct (settle_lookup r a h q) as [->|[_ ->]]; eauto.
Qed.

Lemma extends_settle R r a : extends R (modify (with_heap (settle r a))) (λ _ _, True).
Proof.
  apply extends_modify. intros R1 s Hs. apply (tracked_frame R1 s); try done.
  apply settle_dom.
Qed.

Lemma extends_emit R e : extends R (emit e) (λ _ _, True).
Proof. apply extends_modify. intros R1 s Hs. by apply (tracked_frame R1 s). Qed.

Lemma extends_new_proxy R : extends R new_proxy (λ _ _, True).
Proof.
  intros R1 s HR1 (HR & Hcs & Hps). exists R1. split_and!; [done| |done].
  split_and!; try done. simpl. intros j px r Hj.
  destruct (decide (fresh (dom (proxies s)) = j)) as [<-|Hne].
  - rewrite lookup_insert_eq in Hj. injection Hj as <-. by intros ?%elem_of_nil.
  - rewrite lookup_insert_ne in Hj by done. by apply (Hps j).
Qed.

Lemma extends_new_component R : extends R new_component (λ _ _, True).
Proof.
  intros R1 s HR1 (HR & Hcs & Hps). exists R1. split_and!; [done| |done].
  split_and!; try done. simpl. intros c cm r Hc.
  destruct (decide (fresh (dom (comps s)) = c)) as [<-|Hne].
  - rewrite lookup_insert_eq in Hc. injection Hc as <-. by intros ?%elem_of_nil.
  - rewrite lookup_insert_ne in Hc by done. by apply (Hcs c).
Qed.

Lemma extends_new_global R : extends R GlobalPubSub (λ _ _, True).
Proof.
  intros R1 s HR1 Hs. exists R1. split_and!; [done| |done]. by apply (tracked_frame R1 s).
Qed.
End Extends.

Section ExtendsCalls.
Implicit Types (R : gset nat) (s : Store) (r : Resolver) (c i : nat) (key : string).

Lemma extends_update_comp_same R c f :
  (∀ cm, promises (f cm) = promises cm) → extends R (update_comp c f) (λ _ _, True).
Proof. intros Hf. apply extends_update_comp. intros R1 cm _ Hcm r. rewrite Hf. apply Hcm. Qed.

Lemma extends_update_proxy_same R i f :
  (∀ px, px_promises (f px) = px_promises px) → extends R (update_proxy i f) (λ _ _, True).
Proof. intros Hf. apply extends_update_proxy. intros R1 px _ Hpx r. rewrite Hf. apply Hpx. Qed.

Lemma extends_getTriggerSet_promises R c key :
  extends R (PSComponent_getTriggerSet this_promises c key)
    (λ R2 set, ∀ r, r ∈ set → known R2 r).
Proof.
  unfold PSComponent_getTriggerSet.
  eapply extends_bind; [apply extends_get_comp|]. intros R2 cm HR2 Hcm.
  destruct (finalized cm); [apply extends_throw|].
  destruct (jmap_get key (fget this_promises cm)) as [set|] eqn:E.
  - apply extends_ret. intros R3 HR3 r Hr. apply (known_mono R2); [done|].
    apply Hcm. by eapply elems_get.
  - apply extends_seq.
    + apply extends_update_comp. intros R1 cm' _ Hcm' r Hr%elems_ensure. by apply Hcm'.
    + intros R3 _ _. apply extends_ret. by intros R4 _ r ?%elem_of_nil.
Qed.

Lemma extends_getTriggerSet_subscriptions R c key :
  extends R (PSComponent_getTriggerSet this_subscriptions c key) (λ _ _, True).
Proof.
  unfold PSComponent_getTriggerSet.
  eapply extends_bind; [apply extends_get_comp|]. intros R2 cm HR2 _.
  destruct (finalized cm); [apply extends_throw|].
  destruct (jmap_get key (fget this_subscriptions cm)); [by apply extends_ret|].
  apply extends_seq; [by apply extends_update_comp_same|].
  intros. by apply extends_ret.
Qed.

Lemma extends_add_promise R c key r :
  known R r → extends R (PSComponent_mutateSet this_promises c key (jset_add r)) (λ _ _, True).
Proof.
  intros Hr. apply extends_update_comp.
  intros R1 cm HR1 Hcm r' [->|Hr']%elems_mutate_add; [by apply (known_mono R) | by apply Hcm].
Qed.

Lemma extends_triggerSubscribe R c key cb :
  extends R (PSComponent_triggerSubscribe c key cb) (λ _ _, True).
Proof.
  unfold PSComponent_triggerSubscribe.
  apply extends_seq; [apply extends_getTriggerSet_subscriptions|].
  intros. by apply extends_update_comp_same.
Qed.

Lemma extends_triggerUnsubscribe R c key cb :
  extends R (PSComponent_triggerUnsubscribe c key cb) (λ _ _, True).
Proof.
  unfold PSComponent_triggerUnsubscribe.
  apply extends_seq; [apply extends_getTriggerSet_subscriptions|]. intros R2 _ _.
  apply extends_seq; [by apply extends_update_comp_same|]. intros R3 _ _.
  eapply extends_bind; [apply extends_get_comp|]. intros R4 cm _ _.
  case_decide; [by apply extends_update_comp_same | by apply extends_ret].
Qed.

Lemma known_resolver_of R p w :
  p ∈ R → good_known R w → known R (resolver_of p w).
Proof.
  intros Hp Hw q. destruct w as [|k]; simpl in *.
  - by intros ->%list_elem_of_singleton.
  - intros [->|Hq]%elem_of_cons; [done | by apply Hw].
Qed.

Lemma extends_triggerPromise R c key w :
  good_known R w → extends R (PSComponent_triggerPromise c key w) (λ _ _, True).
Proof.
  intros Hw. unfold PSComponent_triggerPromise.
  eapply extends_bind; [apply extends_new_promise|]. intros R2 p HR2 Hp.
  apply extends_seq; [|intros; by apply extends_ret].
  apply extends_catch; [|intros; apply extends_reject].
  apply extends_seq; [eapply extends_weaken; [apply extends_getTriggerSet_promises|done]|].
  intros R3 _ HR3. apply extends_add_promise.
  apply known_resolver_of; [set_solver|].
  destruct w; simpl in *; [done|]. eapply known_mono; [|exact Hw]. set_solver.
Qed.

Lemma extends_trigger R c key args :
  extends R (PSComponent_trigger c key args) (λ _ _, True).
Proof.
  unfold PSComponent_trigger.
  apply extends_seq; [eapply extends_weaken; [apply extends_getTriggerSet_promises|done]|].
  intros R2 ws _. apply extends_seq.
  { apply extends_forEach. intros r _. unfold call_resolve.
    apply extends_seq; [apply extends_emit|]. intros. apply extends_settle. }
  intros R3 _ _. apply extends_seq.
  { apply extends_update_comp. intros R1 cm _ Hcm r Hr%elems_delete. by apply Hcm. }
  intros R4 _ _. apply extends_seq; [apply extends_getTriggerSet_subscriptions|].
  intros R5 cbs _. apply extends_forEach. intros cb _. apply extends_emit.
Qed.

Lemma extends_proxy_getTriggerSet_promises R i key :
  extends R (PubSubProxy_getTriggerSet proxy_promises i key) (λ _ _, True).
Proof.
  unfold PubSubProxy_getTriggerSet.
  eapply extends_bind; [apply extends_get_proxy|]. intros R2 px HR2 Hpx.
  destruct (jmap_get key (fget proxy_promises px)); [by apply extends_ret|].
  apply extends_seq; [|intros; by apply extends_ret].
  apply extends_update_proxy. intros R1 px' _ Hpx' r Hr%elems_ensure. by apply Hpx'.
Qed.

Lemma extends_proxy_getTriggerSet_subscriptions R i key :
  extends R (PubSubProxy_getTriggerSet proxy_subscriptions i key) (λ _ _, True).
Proof.
  unfold PubSubProxy_getTriggerSet.
  eapply extends_bind; [apply extends_get_proxy|]. intros R2 px HR2 _.
  destruct (jmap_get key (fget proxy_subscriptions px)); [by apply extends_ret|].
  apply extends_seq; [by apply extends_update_proxy_same|].
  intros. by apply extends_ret.
Qed.

Lemma extends_proxy_triggerSubscribe R i key cb :
  extends R (PubSubProxy_triggerSubscribe i key cb) (λ _ _, True).
Proof.
  unfold PubSubProxy_triggerSubscribe.
  apply extends_seq; [apply extends_proxy_getTriggerSet_subscriptions|].
  intros. by apply extends_update_proxy_same.
Qed.

Lemma extends_proxy_triggerUnsubscribe R i key cb :
  extends R (PubSubProxy_triggerUnsubscribe i key cb) (λ _ _, True).
Proof.
  unfold PubSubProxy_triggerUnsubscribe.
  apply extends_seq; [apply extends_proxy_getTriggerSet_subscriptions|]. intros R2 _ _.
  apply extends_seq; [by apply extends_update_proxy_same|]. intros R3 _ _.
  eapply extends_bind; [apply extends_get_proxy|]. intros R4 px _ _.
  case_decide; [by apply extends_update_proxy_same | by apply extends_ret].
Qed.

Lemma extends_proxy_async R i key w :
  good_known R w → extends R (PubSubProxy_async i key w) (λ _ _, True).
Proof.
  intros Hw. unfold PubSubProxy_async.
  eapply extends_bind; [apply extends_new_promise|]. intros R2 p HR2 Hp.
  apply extends_seq; [|intros; by apply extends_ret].
  apply extends_catch; [|intros; apply extends_reject].
  apply extends_seq; [apply extends_proxy_getTriggerSet_promises|].
  intros R3 _ HR3. apply extends_update_proxy.
  intros R1 px HR1 Hpx r [->|Hr]%elems_mutate_add; [|by apply Hpx].
  apply known_resolver_of; [set_solver|].
  destruct w; simpl in *; [done|]. eapply known_mono; [|exact Hw]. set_solver.
Qed.

Lemma extends_sub R h key cb : extends R (sub h key cb) (λ _ _, True).
Proof.
  destruct h; simpl; [apply extends_proxy_triggerSubscribe | apply extends_triggerSubscribe..].
Qed.

Lemma extends_unsub R h key cb : extends R (unsub h key cb) (λ _ _, True).
Proof.
  destruct h; simpl;
    [apply extends_proxy_triggerUnsubscribe | apply extends_triggerUnsubscribe..].
Qed.

Lemma extends_async R h key w : good_known R w → extends R (async h key w) (λ _ _, True).
Proof.
  intros. destruct h; simpl; [by apply extends_proxy_async | by apply extends_triggerPromise..].
Qed.

Lemma extends_forward_promises R h m :
  (∀ r, r ∈ elems m → known R r) → extends R (forward_promises h m) (λ _ _, True).
Proof.
  intros Hm. unfold forward_promises. apply extends_forEach. intros [key set] Hin.
  apply extends_forEach. intros r Hr. unfold forward_promise.
  eapply extends_void, extends_async. simpl. apply Hm, elem_of_elems. eauto.
Qed.

Lemma extends_forward_subscriptions R h m :
  extends R (forward_subscriptions h m) (λ _ _, True).
Proof.
  unfold forward_subscriptions. apply extends_forEach. intros [key set] _.
  apply extends_forEach. intros cb _. apply extends_sub.
Qed.

Lemma extends_finalizeTriggers R c h :
  extends R (PSComponent_finalizeTriggers c h) (λ _ _, True).
Proof.
  unfold PSComponent_finalizeTriggers.
  eapply extends_bind; [apply extends_get_comp|]. intros R2 cm HR2 Hcm.
  destruct (finalized cm); [apply extends_throw|].
  apply extends_seq; [by apply extends_update_comp_same|]. intros R3 _ HR3.
  apply extends_seq.
  { apply extends_forward_promises. intros r Hr. apply (known_mono R2); auto. }
  intros R4 _ _. apply extends_seq; [apply extends_forward_subscriptions|].
  intros R5 _ _. apply extends_update_comp. by intros R1 cm' _ _ r ?%elem_of_nil.
Qed.

Lemma extends_finalize R i h : extends R (PubSubProxy_finalize i h) (λ _ _, True).
Proof.
  unfold PubSubProxy_finalize.
  eapply extends_bind; [apply extends_get_proxy|]. intros R2 px HR2 Hpx.
  case_decide; [apply extends_diverge|].
  apply extends_seq; [by apply extends_forward_promises|]. intros R3 _ _.
  apply extends_seq; [apply extends_forward_subscriptions|].
  intros R4 _ _. apply extends_update_proxy. by intros R1 px' _ _ r ?%elem_of_nil.
Qed.

Lemma extends_own R t name : extends R (own t name) (λ _ _, True).
Proof.
  intros R1 s HR1 Hs. exists R1. unfold own. by repeat case_decide.
Qed.

Lemma extends_registry_get R reg name : extends R (registry_get reg name) (λ _ _, True).
Proof.
  destruct reg as [c|g]; simpl.
  - unfold ps_get. eapply extends_bind; [apply extends_get_comp|]. intros R2 cm _ _.
    apply extends_seq; [apply extends_own|]. intros R2' occupant _.
    destruct occupant; [by apply extends_ret|].
    apply extends_seq; [apply extends_new_proxy|]. intros R3 j _.
    apply extends_seq; [by apply extends_update_comp_same | intros; by apply extends_ret].
  - unfold GlobalPubSub_get. apply extends_seq; [apply extends_get_global|]. intros R2 t _.
    apply extends_seq; [apply extends_own|]. intros R2' occupant _.
    destruct occupant; [by apply extends_ret|].
    apply extends_seq; [apply extends_new_proxy|]. intros R3 j _.
    apply extends_seq; [apply extends_update_global | intros; by apply extends_ret].
Qed.

Lemma extends_registry_set R reg name v : extends R (registry_set reg name v) (λ _ _, True).
Proof.
  destruct reg as [c|g]; simpl.
  - unfold ps_set. eapply extends_bind; [apply extends_get_comp|]. intros R2 cm _ _.
    apply extends_seq; [apply extends_own|]. intros R2' occupant _.
    apply extends_seq; [|intros; by apply extends_update_comp_same].
    destruct occupant as [[j|c'|c']|];
      [apply extends_finalize | apply extends_finalizeTriggers..| by apply extends_ret].
  - unfold GlobalPubSub_set. apply extends_seq; [apply extends_get_global|]. intros R2 t _.
    apply extends_seq; [apply extends_own|]. intros R2' occupant _.
    apply extends_seq; [|intros; apply extends_update_global].
    destruct occupant as [[j|c'|c']|];
      [apply extends_finalize | apply extends_throw | apply extends_finalizeTriggers
      | by apply extends_ret].
Qed.

Lemma extends_assign R o id v : extends R (assign o id v) (λ _ _, True).
Proof. destruct o; simpl; [apply extends_throw.. | apply extends_registry_set]. Qed.

Lemma extends_constructor R pubsub : extends R (constructor pubsub) (λ _ _, True).
Proof.
  unfold constructor. apply extends_seq; [apply extends_new_component|].
  intros R2 this _. apply extends_seq; [|intros; by apply extends_ret].
  destruct pubsub as [pubsub|]; [|by apply extends_ret].
  unfold link.
  destruct (nth 0 pubsub JUndefined); destruct (nth 1 pubsub JUndefined);
    repeat first
      [ apply extends_throw
      | apply extends_seq; [|intros ? _ _]
      | apply extends_forEach; intros ? _
      | apply extends_assign ].
Qed.

Lemma extends_exec R o : extends R (exec o) (λ _ _, True).
Proof.
  destruct o; simpl.
  - eapply extends_void, extends_constructor.
  - eapply extends_void, extends_new_global.
  - eapply extends_void, extends_registry_get.
  - apply extends_registry_set.
  - eapply extends_void, extends_async. done.
  - apply extends_sub.
  - apply extends_unsub.
  - apply extends_trigger.
  - apply extends_finalize.
  - apply extends_finalizeTriggers.
Qed.

Lemma tracked_allocated R s : tracked R s → allocated s.
Proof.
  intros (HR & Hcs & Hps). split_and!; [done| |].
  - intros c cm r Hc Hr. eapply known_mono; [exact HR|]. by eapply Hcs.
  - intros j px r Hj Hr. eapply known_mono; [exact HR|]. by eapply Hps.
Qed.

Lemma allocated_exec o s : allocated s → allocated (exec o s).2.
Proof.
  intros Hs. destruct (extends_exec ∅ o (dom (heap s)) s) as (R2 & _ & Hs2 & _);
    [set_solver | done |]. by eapply tracked_allocated.
Qed.

Lemma allocated_empty : allocated empty_store.
Proof.
  split_and!; [done| |]; intros ? ? r H; simpl in H; by rewrite lookup_empty in H.
Qed.

(** No call into the library lets a resolve function name a promise that
    does not exist. *)
Lemma allocated_run ops s : allocated s → allocated (run ops s).
Proof.
  revert s. induction ops as [|o ops IH]; intros s Hs; simpl; [done|].
  pose proof (allocated_exec o s Hs) as Hs'.
  destruct (exec o s) as [[| | |] s']; simpl in *; auto.
Qed.

Lemma allocated_waiters c s : allocated s → waiters_allocated c s.
Proof.
  intros (_ & Hcs & _) k r q Hr Hq. unfold waiters in Hr.
  destruct (comps s !! c) as [cm|] eqn:Hc; [|by apply elem_of_nil in Hr].
  eapply Hcs; [exact Hc | by eapply elems_members | done].
Qed.
End ExtendsCalls.

(** ** A name of a scoped registry reused, in a store the library can reach *)

Lemma scoped_name_reuse_seals_owner_witness :
  let s := parent_child_and_newcomer in
  let s1 := (ps_set 0 "child" (HObject 2) s).2 in
  let s' := run [OGet (Scoped 0) "other"] s1 in
  subscribers 2 "m" s1 = [7]
  ∧ heap s !! 0 = Some Pending
  ∧ heap (PSComponent_trigger 2 "m" [VNum 1] s1).2 !! 0 = Some (Fulfilled [VNum 1])
  ∧ sub (HObject 0) "m" 8 s' = (Throw AlreadyFinalized, s').
Proof.
  cbv zeta.
  destruct (scoped_name_reuse_seals_owner parent_child_and_newcomer 0 "child"
              (HObject 1) (HObject 2)
              (mkPSComponent [("m", [Direct 0])] [("m", [7])] false {["child" := HObject 1]})
              [OGet (Scoped 0) "other"])
    as (_ & Hfwd & _ & Hraise & _).
  - vm_compute. reflexivity.
  - vm_compute. reflexivity.
  - discriminate.
  - vm_compute. reflexivity.
  - intros i. discriminate.
  - destruct (Hfwd 2 (mkPSComponent [] [] false ∅) eq_refl eq_refl)
      as (_ & _ & _ & Hsubs & _ & _ & Hrelay).
    + discriminate.
    + vm_compute. reflexivity.
    + reflexivity.
    + destruct Hrelay as [_ Hfire].
      { apply (allocated_run [ONew None; OSub (HObject 0) "m" 7; OAsync (HObject 0) "m";
                             ONew (Some [JRegistry (Scoped 0); JString "child"]);
                             ONew None] empty_store), allocated_empty. }
      destruct (Hfire "m" 0 [VNum 1]) as [_ Hful];
        [vm_compute; by left | vm_compute; reflexivity|].
      split_and!.
      * rewrite Hsubs. reflexivity.
      * vm_compute. reflexivity.
      * exact Hful.
      * by destruct (Hraise (HObject 0) "m" 8 [] eq_refl) as (? & _).
Defined.

(** ** The next fire, in a store the library can reach *)

(** Every operation of the registry of an open component keeps its waiters
    from naming a promise that does not exist. *)
Lemma waiters_allocated_step c s o :
  unsealed c s → waiters_allocated c s →
  unsealed c (reg_exec c o s).2 ∧ waiters_allocated c (reg_exec c o s).2.
Proof.
  intros Hopen Halloc. destruct o as [k cb|k cb|k|k a]; simpl.
  - destruct (subscribe_step c s k cb Hopen) as (Hopen' & Hheap & _ & Hw).
    split; [done|]. intros k' r q. rewrite Hw, Hheap. apply Halloc.
  - destruct (unsubscribe_step c s k cb Hopen) as (Hopen' & Hheap & _ & Hw).
    split; [done|]. intros k' r q. rewrite Hw, Hheap. apply Halloc.
  - rewrite void_store.
    destruct (wait_step c s k Hopen) as (_ & Hopen' & Hheap & _ & Hw).
    split; [done|]. intros k' r q. rewrite Hw, Hheap, dom_insert_L.
    case_decide.
    + intros [->|Hr]%jset_add_elem Hq.
      * simpl in Hq. apply list_elem_of_singleton in Hq as ->. set_solver.
      * apply elem_of_union_r. by eapply Halloc.
    + intros Hr Hq. apply elem_of_union_r. by eapply Halloc.
  - destruct (fire_step c s k a Hopen) as (Hopen' & Hheap & _ & Hw).
    split; [done|]. intros k' r q. rewrite Hw, Hheap.
    case_decide; [by intros ?%elem_of_nil|]. intros Hr Hq.
    apply elem_of_dom. pose proof (Halloc k' r q Hr Hq) as [st Hst]%elem_of_dom.
    destruct (settle_all_lookup a (waiters c k s) (heap s) q) as [->|[_ ->]]; eauto.
Qed.

(** C3. In a store where no resolve function names a promise that does not
    exist, a promise requested from an open component did not exist before
    the request and is pending after it; it is still pending after any
    further operations of the registry other than a fire of its name; the
    next fire of its name fulfils it with the arguments of that fire and
    leaves no waiter under the name; whatever the registry does
    afterwards, it keeps that value, and over the whole run its resolve
    function was called once.  And [n] requests for one name in a row hand
    out [n] distinct pending promises, all of which one fire of the name
    fulfils with its arguments, leaving no waiter under the name. *)
Theorem waiter_resolves_with_next_fire
    (s : Store) (c : nat) (key : string) (args : Args)
    (before after : list RegOp) (n : nat) :
  unsealed c s → allocated s → (∀ a, RFire key a ∉ before) →
  (let w := PSComponent_triggerPromise c key Consumer s in
   ∃ p, w.1 = Ok p
        ∧ heap s !! p = None
        ∧ heap w.2 !! p = Some Pending
        ∧ heap (reg_run c before w.2) !! p = Some Pending
        ∧ let s2 := (PSComponent_trigger c key args (reg_run c before w.2)).2 in
          heap s2 !! p = Some (Fulfilled args)
          ∧ waiters c key s2 = []
          ∧ heap (reg_run c after s2) !! p = Some (Fulfilled args)
          ∧ resolved_times p 1 s (reg_run c after s2))
  ∧ (let w := wait_many c key n s in
     ∃ ps, w.1 = Ok ps ∧ length ps = n ∧ NoDup ps
           ∧ (∀ p, p ∈ ps → heap w.2 !! p = Some Pending)
           ∧ let s2 := (PSComponent_trigger c key args w.2).2 in
             (∀ p, p ∈ ps → heap s2 !! p = Some (Fulfilled args))
             ∧ waiters c key s2 = []).
Proof.
  intros Hopen Halloc%(allocated_waiters c) Hbefore. split; cbv zeta.
  - exists (fresh (dom (heap s))).
    destruct (wait_step c s key Hopen) as (Hres & _ & _ & Hlog & _).
    pose proof (waiting_after_wait c s key Hopen Halloc) as Hw0.
    destruct (waiting_run c _ key _ before Hw0 Hbefore) as [Hw1 Ht1].
    destruct (waiting_fire c _ key _ args Hw1) as (Hr2 & Ht2 & Hnone).
    destruct (resolved_run c _ _ args after Hr2) as [Hr3 Ht3].
    split_and!; [done| | | | | | |].
    + apply not_elem_of_dom, is_fresh.
    + apply Hw0.
    + apply Hw1.
    + apply Hr2.
    + done.
    + apply Hr3.
    + apply (resolved_times_trans _ 0 1 s _ _ (resolved_times_same_log _ _ _ Hlog)).
      apply (resolved_times_trans _ 0 1 _ _ _ Ht1).
      apply (resolved_times_trans _ 1 0 _ _ _ Ht2 Ht3).
  - destruct (wait_many_spec c s key n Hopen)
      as (ps & Hps & Hlen & Hnd & Hopen' & Hall & _ & _).
    exists ps. split_and!; [done..| | |].
    + intros p Hp. by destruct (Hall p Hp) as (_ & ? & _).
    + intros p Hp. destruct (Hall p Hp) as (_ & Hpend & Hin).
      destruct (fire_step c _ key args Hopen') as (_ & -> & _).
      by apply (settle_all_head args _ _ (Direct p)).
    + destruct (fire_step c _ key args Hopen') as (_ & _ & _ & ->).
      by rewrite decide_True.
Qed.

Lemma waiter_resolves_with_next_fire_witness :
  let s := run [ONew None; OTrigger 0 "ping" [VText "early"]; OSub (HObject 0) "ping" 7]
             empty_store in
  let before := [RFire "pong" [VNum 0]; RWaitNext "ping"; RUnsubscribe "ping" 7] in
  let after := [RFire "ping" [VText "late"]] in
  let w := PSComponent_triggerPromise 0 "ping" Consumer s in
  let s2 := (PSComponent_trigger 0 "ping" [VText "hello"] (reg_run 0 before w.2)).2 in
  ∃ p, w.1 = Ok p ∧ heap (reg_run 0 after s2) !! p = Some (Fulfilled [VText "hello"]).
Proof.
  cbv zeta.
  edestruct (waiter_resolves_with_next_fire
            (run [ONew None; OTrigger 0 "ping" [VText "early"]; OSub (HObject 0) "ping" 7]
               empty_store)
            0 "ping" [VText "hello"]
            [RFire "pong" [VNum 0]; RWaitNext "ping"; RUnsubscribe "ping" 7]
            [RFire "ping" [VText "late"]] 3)
    as [(p & Hp & _ & _ & _ & _ & _ & Hlate & _) _].
  - eexists. split; [vm_compute; reflexivity | reflexivity].
  - apply allocated_run, allocated_empty.
  - intros a Ha. repeat (apply elem_of_cons in Ha as [Ha|Ha]; [discriminate Ha|]).
    by apply elem_of_nil in Ha.
  - exists p. split; [exact Hp | exact Hlate].
Defined.

(** * Further properties of the library *)

(** ** Unsubscribing *)

Section Removal.
Context {X : Type} `{EqDecision X}.
Implicit Types (m : JsMap X) (l : list X) (x : X) (k key : string).

Lemma members_remove key x k m :
  members k (jmap_remove key x m) =
    if decide (key = k) then jset_delete x (members k m) else members k m.
Proof.
  unfold jmap_remove.
  destruct (decide (length (jset_delete x (members key m)) = 0)) as [Hlen|Hlen].
  - case_decide as Hk.
    + subst. rewrite members_delete_eq. symmetry. by apply nil_length_inv.
    + by apply members_delete_ne.
  - case_decide as Hk; [subst; apply members_set_eq | by apply members_set_ne].
Qed.

Lemma jset_delete_add x l : x ∉ l → jset_delete x (jset_add x l) = l.
Proof.
  intros Hx. unfold jset_add, jset_delete. rewrite decide_False by done.
  rewrite filter_app, filter_cons. rewrite decide_False by (by intros []).
  rewrite filter_nil, app_nil_r. by apply jset_delete_absent.
Qed.

(** After the last member left, the map has no entry for the key. *)
Lemma jmap_get_remove key x m :
  jset_delete x (members key m) = [] → jmap_get key (jmap_remove key x m) = None.
Proof.
  intros Hnil. unfold jmap_remove. rewrite Hnil. simpl. apply jmap_get_delete_eq.
Qed.
End Removal.

(** The callbacks of a handle after one [unsub]. *)
Lemma unsub_usable s h key cb :
  usable h s →
  let s' := (unsub h key cb s).2 in
  (unsub h key cb s).1 = Ok tt
  ∧ usable h s'
  ∧ (∀ k, subscribed h k s' =
          if decide (key = k) then jset_delete cb (subscribed h k s) else subscribed h k s)
  ∧ heap s' = heap s ∧ log s' = log s.
Proof.
  intros Hh. cbv zeta.
  assert (∀ c, unsealed c s →
    let s' := (PSComponent_triggerUnsubscribe c key cb s).2 in
    (PSComponent_triggerUnsubscribe c key cb s).1 = Ok tt ∧ unsealed c s'
    ∧ (∀ k, subscribers c k s' =
            if decide (key = k) then jset_delete cb (subscribers c k s)
            else subscribers c k s)
    ∧ heap s' = heap s ∧ log s' = log s) as Hcomp.
  { intros c (cm & Hc & Hf). cbv zeta.
    rewrite (triggerUnsubscribe_unsealed _ _ _ key cb Hc Hf). simpl.
    split_and!; try done.
    - eexists. split; [apply lookup_insert_eq | done].
    - intros k. unfold subscribers. simpl. rewrite lookup_insert_eq, Hc. simpl.
      apply members_remove. }
  destruct h as [i|c|c]; simpl in *; [|by apply Hcomp..].
  destruct Hh as [px Hi]. rewrite (proxy_triggerUnsubscribe_ok _ _ _ key cb Hi). simpl.
  split_and!; try done.
  - rewrite lookup_insert_eq. by eexists.
  - intros k. rewrite lookup_insert_eq, Hi. simpl. apply members_remove.
Qed.

(** The callbacks of a handle after one [sub]. *)
Lemma sub_usable s h key cb :
  usable h s →
  let s' := (sub h key cb s).2 in
  (sub h key cb s).1 = Ok tt
  ∧ usable h s'
  ∧ (∀ k, subscribed h k s' =
          if decide (key = k) then jset_add cb (subscribed h k s) else subscribed h k s)
  ∧ heap s' = heap s ∧ log s' = log s.
Proof.
  intros Hh. cbv zeta. destruct h as [i|c|c]; simpl in *.
  - destruct Hh as [px Hi]. rewrite (proxy_triggerSubscribe_ok _ _ _ key cb Hi). simpl.
    split_and!; try done.
    + rewrite lookup_insert_eq. by eexists.
    + intros k. rewrite lookup_insert_eq, Hi. simpl. apply members_add.
  - destruct Hh as (cm & Hc & Hf).
    rewrite (triggerSubscribe_unsealed _ _ _ key cb Hc Hf). simpl.
    split_and!; try done.
    + eexists. split; [apply lookup_insert_eq | done].
    + intros k. unfold subscribers. simpl. rewrite lookup_insert_eq, Hc. simpl.
      apply members_add.
  - destruct Hh as (cm & Hc & Hf).
    rewrite (triggerSubscribe_unsealed _ _ _ key cb Hc Hf). simpl.
    split_and!; try done.
    + eexists. split; [apply lookup_insert_eq | done].
    + intros k. unfold subscribers. simpl. rewrite lookup_insert_eq, Hc. simpl.
      apply members_add.
Qed.

Lemma jmap_delete_keys {X} key (m : JsMap X) : key ∉ (jmap_delete key m).*1.
Proof.
  unfold jmap_delete. intros ([k v] & -> & Hin)%list_elem_of_fmap.
  apply list_elem_of_filter in Hin as [Hne _]. done.
Qed.

Lemma unsub_last_key s h key cb :
  usable h s → jset_delete cb (subscribed h key s) = [] →
  key ∉ subscription_keys h (unsub h key cb s).2.
Proof.
  intros Hh Hnil.
  assert (∀ {X} `{EqDecision X} (x : X) (m : JsMap X),
            jset_delete x (members key m) = [] → key ∉ (jmap_remove key x m).*1) as Hkeys.
  { intros X ? x m Hm. unfold jmap_remove. rewrite Hm. simpl. apply jmap_delete_keys. }
  destruct h as [i|c|c]; simpl in *.
  - destruct Hh as [px Hi]. rewrite Hi in Hnil.
    rewrite (proxy_triggerUnsubscribe_ok _ _ _ key cb Hi). simpl.
    rewrite lookup_insert_eq. simpl. by apply Hkeys.
  - destruct Hh as (cm & Hc & Hf). unfold subscribers in Hnil. rewrite Hc in Hnil.
    rewrite (triggerUnsubscribe_unsealed _ _ _ key cb Hc Hf). simpl.
    rewrite lookup_insert_eq. simpl. by apply Hkeys.
  - destruct Hh as (cm & Hc & Hf). unfold subscribers in Hnil. rewrite Hc in Hnil.
    rewrite (triggerUnsubscribe_unsealed _ _ _ key cb Hc Hf). simpl.
    rewrite lookup_insert_eq. simpl. by apply Hkeys.
Qed.

(** X1. On a placeholder, and on a component that is not sealed,
    [unsub.<key>(cb)] returns normally.  The callbacks held for [key] are
    those held before without [cb], in their order; the callbacks of every
    other key are as before; when [cb] was not held for [key], whether or
    not the key was known, every key has the callbacks it had.  When no
    callback is left for [key] the subscriptions map has no entry for it.
    No promise changes and nothing is called; and a fire of [key] of the
    component behind the handle, right afterwards, does not call [cb]. *)
Theorem unsubscribe_removes (s : Store) (h : Handle) (key : string) (cb : Callback) :
  usable h s →
  let s' := (unsub h key cb s).2 in
  (unsub h key cb s).1 = Ok tt
  ∧ usable h s'
  ∧ subscribed h key s' = jset_delete cb (subscribed h key s)
  ∧ (∀ k, k ≠ key → subscribed h k s' = subscribed h k s)
  ∧ (cb ∉ subscribed h key s → ∀ k, subscribed h k s' = subscribed h k s)
  ∧ (subscribed h key s' = [] → key ∉ subscription_keys h s')
  ∧ heap s' = heap s ∧ log s' = log s
  ∧ (∀ c args, real h = Some c →
       calls cb args (events_since s' (PSComponent_trigger c key args s').2) = 0).
Proof.
  intros Hh. cbv zeta.
  destruct (unsub_usable s h key cb Hh) as (Hok & Hh' & Hsubs & Hheap & Hlog).
  pose proof (Hsubs key) as Hkey. rewrite decide_True in Hkey by done.
  split_and!; try done.
  - intros k Hk. rewrite Hsubs. by rewrite decide_False.
  - intros Hcb k. rewrite Hsubs. case_decide; [subst|done].
    by apply jset_delete_absent.
  - intros Hnil. apply unsub_last_key; [done|]. by rewrite <- Hkey.
  - intros c args Hreal.
    assert (unsealed c (unsub h key cb s).2 ∧
            subscribers c key (unsub h key cb s).2 = subscribed h key (unsub h key cb s).2)
      as [Hopen Heq] by (destruct h; simpl in *; by simplify_eq).
    destruct (trigger_open _ c key args Hopen) as (_ & Hlog' & _).
    rewrite (events_since_app _ _ _ Hlog'), calls_app, calls_resolves. simpl.
    apply calls_absent. rewrite Heq, Hkey. rewrite jset_delete_elem. by intros [? _].
Qed.

Lemma unsubscribe_removes_witness :
  let s := run [ONew None; OSub (HObject 0) "m" 7; OSub (HObject 0) "m" 8] empty_store in
  subscribed (HObject 0) "m" (unsub (HObject 0) "m" 7 s).2 = [8].
Proof.
  cbv zeta.
  refine (proj1 (proj2 (proj2 (unsubscribe_removes _ (HObject 0) "m" 7 _)))).
  eexists. split; [vm_compute; reflexivity | reflexivity].
Defined.

(** X2. On a placeholder, and on a component that is not sealed,
    subscribing a callback that is not held for [key] and unsubscribing it
    again both return normally and give every key the callbacks it had, in
    their order; no promise changes and nothing is called. *)
Theorem subscribe_unsubscribe_round_trip
    (s : Store) (h : Handle) (key : string) (cb : Callback) :
  usable h s → cb ∉ subscribed h key s →
  let s1 := (sub h key cb s).2 in
  let s2 := (unsub h key cb s1).2 in
  (sub h key cb s).1 = Ok tt
  ∧ (unsub h key cb s1).1 = Ok tt
  ∧ usable h s2
  ∧ (∀ k, subscribed h k s2 = subscribed h k s)
  ∧ heap s2 = heap s ∧ log s2 = log s.
Proof.
  intros Hh Hcb. cbv zeta.
  destruct (sub_usable s h key cb Hh) as (Hok & Hh1 & Hsubs & Hheap & Hlog).
  destruct (unsub_usable _ h key cb Hh1) as (Hok' & Hh2 & Hsubs' & Hheap' & Hlog').
  split_and!; try done; try congruence.
  intros k. rewrite Hsubs', Hsubs. case_decide; [subst|done].
  by apply jset_delete_add.
Qed.

Lemma subscribe_unsubscribe_round_trip_witness :
  let s := run [ONewGlobal; OGet (Global 0) "child"; OSub (HProxy 0) "m" 7] empty_store in
  let s2 := (unsub (HProxy 0) "m" 8 (sub (HProxy 0) "m" 8 s).2).2 in
  subscribed (HProxy 0) "m" s2 = [7].
Proof.
  cbv zeta.
  refine (proj1 (proj2 (proj2 (proj2
            (subscribe_unsubscribe_round_trip _ (HProxy 0) "m" 8 _ _)))) "m").
  - vm_compute. by eexists.
  - vm_compute. intros [[=]|[]%elem_of_nil]%elem_of_cons.
Defined.

(** ** Reading a registry *)

Lemma ps_get_occupied s c cm name occupant :
  comps s !! c = Some cm → ps cm !! "hasOwnProperty" = None → name ≠ "__proto__" →
  ps cm !! name = Some occupant →
  ps_get c name s = (Ok occupant, s).
Proof.
  intros Hc Hintact Hname Hslot. unfold ps_get.
  rewrite (bind_ok _ _ _ _ _ (get_comp_ok _ _ _ Hc)).
  rewrite (bind_ok _ _ _ _ _ (own_ordinary _ _ _ Hintact Hname)). by rewrite Hslot.
Qed.

Lemma ps_get_free s c cm name :
  comps s !! c = Some cm → ps cm !! "hasOwnProperty" = None → name ≠ "__proto__" →
  ps cm !! name = None →
  let i := fresh (dom (proxies s)) in
  ps_get c name s =
    (Ok (HProxy i),
     with_comps <[c := set_ps (<[name := HProxy i]> (ps cm)) cm]>
       (with_proxies <[i := mkPubSubProxy [] []]> s)).
Proof.
  intros Hc Hintact Hname Hslot i. unfold ps_get.
  rewrite (bind_ok _ _ _ _ _ (get_comp_ok _ _ _ Hc)).
  rewrite (bind_ok _ _ _ _ _ (own_ordinary _ _ _ Hintact Hname)). rewrite Hslot.
  unfold new_proxy. unfold bind at 1. fold i.
  match goal with |- bind _ _ ?s1 = _ =>
    assert (comps s1 !! c = Some cm) as Hc1 by done
  end.
  rewrite (bind_ok _ _ _ _ _ (update_comp_ok _ _ _ _ Hc1)).
  by rewrite store_property_ordinary.
Qed.

Lemma get_global_ok g t s : globals s !! g = Some t → get_global g s = (Ok t, s).
Proof. intros Hg. unfold get_global. by rewrite Hg. Qed.

Lemma global_get_occupied s g t name occupant :
  globals s !! g = Some t → t !! "hasOwnProperty" = None → name ≠ "__proto__" →
  t !! name = Some occupant →
  GlobalPubSub_get g name s = (Ok occupant, s).
Proof.
  intros Hg Hintact Hname Hslot. unfold GlobalPubSub_get.
  rewrite (bind_ok _ _ _ _ _ (get_global_ok _ _ _ Hg)).
  rewrite (bind_ok _ _ _ _ _ (own_ordinary _ _ _ Hintact Hname)). by rewrite Hslot.
Qed.

Lemma global_get_free s g t name :
  globals s !! g = Some t → t !! "hasOwnProperty" = None → name ≠ "__proto__" →
  t !! name = None →
  let i := fresh (dom (proxies s)) in
  GlobalPubSub_get g name s =
    (Ok (HProxy i),
     with_globals <[g := <[name := HProxy i]> t]>
       (with_proxies <[i := mkPubSubProxy [] []]> s)).
Proof.
  intros Hg Hintact Hname Hslot i. unfold GlobalPubSub_get.
  rewrite (bind_ok _ _ _ _ _ (get_global_ok _ _ _ Hg)).
  rewrite (bind_ok _ _ _ _ _ (own_ordinary _ _ _ Hintact Hname)). rewrite Hslot.
  unfold new_proxy, update_global, bind. simpl. rewrite Hg.
  by rewrite store_property_ordinary.
Qed.

Lemma fresh_proxy s : proxies s !! fresh (dom (proxies s)) = None.
Proof. apply not_elem_of_dom, is_fresh. Qed.

(** What a read of a name other than [__proto__] returns and changes, in
    an existing registry whose [hasOwnProperty] is the inherited method. *)
Lemma registry_get_spec s r name t :
  target_of r s = Some t → t !! "hasOwnProperty" = None → name ≠ "__proto__" →
  let s1 := (registry_get r name s).2 in
  let h := default (HProxy (fresh (dom (proxies s)))) (t !! name) in
  registry_get r name s = (Ok h, s1)
  ∧ target_of r s1 = Some (<[name := h]> t)
  ∧ (∀ r', r' ≠ r → target_of r' s1 = target_of r' s)
  ∧ (is_Some (t !! name) → s1 = s)
  ∧ (t !! name = None →
     proxies s1 = <[fresh (dom (proxies s)) := mkPubSubProxy [] []]> (proxies s))
  ∧ heap s1 = heap s ∧ log s1 = log s.
Proof.
  intros Ht Hintact Hname. cbv zeta. destruct r as [c|g]; simpl in *.
  - destruct (comps s !! c) as [cm|] eqn:Hc; [|done]. simpl in Ht. simplify_eq.
    destruct (ps cm !! name) as [occupant|] eqn:Hslot; simpl.
    + rewrite (ps_get_occupied _ _ _ _ _ Hc Hintact Hname Hslot). simpl. rewrite Hc. simpl.
      split_and!; try done. by rewrite insert_id.
    + pose proof (ps_get_free _ _ _ _ Hc Hintact Hname Hslot) as Heq. cbv zeta in Heq.
      rewrite Heq. simpl. rewrite lookup_insert_eq. simpl.
      split_and!; try done.
      intros [c'|g'] Hne; simpl; [|done]. rewrite lookup_insert_ne; [done|congruence].
  - destruct (t !! name) as [occupant|] eqn:Hslot; simpl.
    + rewrite (global_get_occupied _ _ _ _ _ Ht Hintact Hname Hslot). simpl.
      split_and!; try done. by rewrite insert_id.
    + pose proof (global_get_free _ _ _ _ Ht Hintact Hname Hslot) as Heq. cbv zeta in Heq.
      rewrite Heq. simpl. rewrite lookup_insert_eq.
      split_and!; try done.
      intros [c'|g'] Hne; simpl; [done|]. rewrite lookup_insert_ne; [done|congruence].
Qed.

Lemma intact_target r s t :
  target_of r s = Some t → intact r s → t !! "hasOwnProperty" = None.
Proof. intros Ht Hintact. unfold intact, slot in Hintact. by rewrite Ht in Hintact. Qed.

(** X3. A name other than [__proto__] and [hasOwnProperty] is read in
    an existing registry that has no slot named [hasOwnProperty].  The read
    returns normally.  Where the slot is taken it returns the occupant and
    leaves the store as it is.  Where the name is free it makes a new
    placeholder with empty maps, puts it into the slot and returns it.
    Either way every other slot of every registry is as before, no promise
    changes and nothing is called; and a second read of the name returns
    the same handle and leaves the store as it is. *)
Theorem registry_read_stable (s : Store) (r : RegRef) (name : string) :
  is_Some (target_of r s) → intact r s → ordinary name →
  let s1 := (registry_get r name s).2 in
  ∃ h, registry_get r name s = (Ok h, s1)
       ∧ slot r name s1 = Some h
       ∧ registry_get r name s1 = (Ok h, s1)
       ∧ (∀ r' name', (r', name') ≠ (r, name) → slot r' name' s1 = slot r' name' s)
       ∧ match slot r name s with
         | Some occupant => h = occupant ∧ s1 = s
         | None => ∃ i, h = HProxy i ∧ proxies s !! i = None
                        ∧ proxies s1 = <[i := mkPubSubProxy [] []]> (proxies s)
         end
       ∧ heap s1 = heap s ∧ log s1 = log s.
Proof.
  intros [t Ht] Hintact [Hname Hname']. cbv zeta.
  pose proof (intact_target r s t Ht Hintact) as Hint.
  destruct (registry_get_spec s r name t Ht Hint Hname)
    as (Hget & Ht1 & Hother & Hsame & Hnew & Hheap & Hlog).
  set (h := default (HProxy (fresh (dom (proxies s)))) (t !! name)) in *.
  set (s1 := (registry_get r name s).2) in *.
  exists h. split_and!; try done.
  - unfold slot. rewrite Ht1. simpl. apply lookup_insert_eq.
  - destruct (registry_get_spec s1 r name _ Ht1) as (Hget' & _ & _ & Hsame' & _);
      [by rewrite lookup_insert_ne | done |].
    rewrite lookup_insert_eq in Hget', Hsame'. simpl in Hget'.
    rewrite Hget'. f_equal. by apply Hsame'.
  - intros r' name' Hne. unfold slot. destruct (decide (r' = r)) as [->|Hr].
    + rewrite Ht1, Ht. simpl. apply lookup_insert_ne. congruence.
    + by rewrite Hother.
  - unfold slot. rewrite Ht. simpl. subst h.
    destruct (t !! name) as [occupant|] eqn:Hslot; simpl.
    + split; [done|]. by apply Hsame.
    + eexists. split_and!; [done | apply fresh_proxy | by apply Hnew].
Qed.

Lemma registry_read_stable_witness :
  let s := run [ONew None] empty_store in
  ∃ h, registry_get (Scoped 0) "child" s = (Ok h, (registry_get (Scoped 0) "child" s).2)
       ∧ registry_get (Scoped 0) "child" (registry_get (Scoped 0) "child" s).2 =
           (Ok h, (registry_get (Scoped 0) "child" s).2).
Proof.
  cbv zeta.
  destruct (registry_read_stable (run [ONew None] empty_store) (Scoped 0) "child")
    as (h & Hget & _ & Hagain & _).
  - vm_compute. by eexists.
  - vm_compute. reflexivity.
  - split; discriminate.
  - exists h. split; [exact Hget | exact Hagain].
Defined.

(** ** Linking a new component *)

(** [placeholder.finalize] onto the handle of the open component [this]. *)
Lemma finalize_onto_new s i this :
  is_Some (proxies s !! i) → unsealed this s →
  ∃ s0 px cm cm0,
    PubSubProxy_finalize i (HObject this) s = (Ok tt, s0)
    ∧ proxies s !! i = Some px ∧ comps s !! this = Some cm
    ∧ cm0 = (finalized_onto px cm (heap s)).1 ∧ heap s0 = (finalized_onto px cm (heap s)).2
    ∧ comps s0 = <[this := cm0]> (comps s) ∧ ps cm0 = ps cm ∧ finalized cm0 = false
    ∧ globals s0 = globals s ∧ log s0 = log s
    ∧ proxies s0 = <[i := mkPubSubProxy [] []]> (proxies s)
    ∧ (∀ key cb, cb ∈ members key (subscriptions cm) ∨ cb ∈ subscribed (HProxy i) key s →
                 cb ∈ members key (subscriptions cm0)).
Proof.
  intros [px Hi] (cm & Hthis & Hf).
  rewrite (finalize_open (HObject this) this eq_refl i px s cm Hi Hthis Hf).
  eexists _, px, cm, _. split; [done|]. simpl. split_and!; try done.
  intros key cb Hcb. apply add_all_elem. rewrite Hi in Hcb.
  destruct Hcb as [?|Hcb]; [by left|]. right. by apply members_elem.
Qed.

(** One registration write of a constructor: the handle of the open
    component [this] goes into a vacant slot, under a name other than
    [__proto__], in a registry with no slot named [hasOwnProperty]. *)
Lemma registry_set_vacant s r name this :
  vacant r name s → intact r s → name ≠ "__proto__" → r ≠ Scoped this → unsealed this s →
  let s1 := (registry_set r name (HObject this) s).2 in
  registry_set r name (HObject this) s = (Ok tt, s1)
  ∧ (∃ t, target_of r s = Some t ∧ target_of r s1 = Some (<[name := HObject this]> t))
  ∧ (∀ r', r' ≠ r → target_of r' s1 = target_of r' s)
  ∧ unsealed this s1
  ∧ (∀ j, is_Some (proxies s !! j) → is_Some (proxies s1 !! j))
  ∧ (∀ j, slot r name s ≠ Some (HProxy j) → proxies s1 !! j = proxies s !! j)
  ∧ (∀ key cb, cb ∈ subscribers this key s → cb ∈ subscribers this key s1)
  ∧ (∀ i key cb, slot r name s = Some (HProxy i) → cb ∈ subscribed (HProxy i) key s →
                 cb ∈ subscribers this key s1)
  ∧ (∀ i px cm, slot r name s = Some (HProxy i) →
       proxies s !! i = Some px → comps s !! this = Some cm →
       comps s1 !! this = Some (finalized_onto px cm (heap s)).1
       ∧ heap s1 = (finalized_onto px cm (heap s)).2)
  ∧ log s1 = log s.
Proof.
  intros (t & Ht & Hslot) Hintact Hname Hne Hopen.
  pose proof (intact_target r s t Ht Hintact) as Hint.
  cbv zeta. unfold slot. rewrite Ht. simpl.
  destruct (t !! name) as [[i|c|c]|] eqn:Hocc; try done.
  - (* a placeholder holds the name *)
    destruct (finalize_onto_new s i this Hslot Hopen)
      as (s0 & px & cm & cm0 & Hrun & Hi & Hthis & Hcm0 & Hheap & Hcomps & Hps & Hf0
            & Hglob & Hlog & Hpx & Hsubs).
    assert (∀ j px' cm', Some (HProxy i) = Some (HProxy j) →
              proxies s !! j = Some px' → comps s !! this = Some cm' →
              cm0 = (finalized_onto px' cm' (heap s)).1
              ∧ heap s0 = (finalized_onto px' cm' (heap s)).2) as Hexact.
    { intros j px' cm' [= <-] Hj Hcm'. by simplify_eq. }
    clear Hcm0 Hheap.
    destruct r as [c|g]; simpl in *.
    + destruct (comps s !! c) as [cmc|] eqn:Hc; [|done]. simpl in Ht. simplify_eq.
      assert (c ≠ this) as Hc' by congruence.
      rewrite (ps_set_ordinary _ _ _ _ _ Hc Hint Hname). rewrite Hocc.
      rewrite (bind_ok _ _ _ _ _ Hrun).
      assert (comps s0 !! c = Some cmc) as Hc0 by (by rewrite Hcomps, lookup_insert_ne).
      rewrite (update_comp_ok _ _ _ _ Hc0). simpl. rewrite lookup_insert_eq. simpl.
      split_and!; try done.
      * by eexists.
      * intros [c1|g1] Hr; simpl; [|by rewrite Hglob].
        rewrite lookup_insert_ne by congruence. rewrite Hcomps.
        destruct (decide (c1 = this)) as [->|H1];
          [by rewrite lookup_insert_eq, Hthis; simpl; f_equal
          | by rewrite lookup_insert_ne].
      * exists cm0. split; [|done]. simpl.
        by rewrite lookup_insert_ne, Hcomps, lookup_insert_eq.
      * intros j Hj. rewrite Hpx. destruct (decide (j = i)) as [->|Hji];
          [rewrite lookup_insert_eq; by eexists | by rewrite lookup_insert_ne].
      * intros j Hj. rewrite Hpx, lookup_insert_ne; [done|congruence].
      * intros key cb. unfold subscribers. simpl.
        rewrite lookup_insert_ne, Hcomps, lookup_insert_eq, Hthis by done.
        intros. apply Hsubs. by left.
      * intros ? key cb [= <-]. unfold subscribers. simpl.
        rewrite lookup_insert_ne, Hcomps, lookup_insert_eq by done.
        intros. apply Hsubs. by right.
      * intros j px' cm' Hj Hpx' Hcm'.
        destruct (Hexact j px' cm' Hj Hpx' Hcm') as [<- <-].
        by rewrite lookup_insert_ne, Hcomps, lookup_insert_eq.
    + rewrite (global_set_ordinary _ _ _ _ _ Ht Hint Hname).
      rewrite Hocc. rewrite (bind_ok _ _ _ _ _ Hrun).
      unfold update_global. rewrite Hglob, Ht. simpl. rewrite lookup_insert_eq.
      split_and!; try done.
      * by eexists.
      * intros [c1|g1] Hr; simpl; [|rewrite lookup_insert_ne; [by rewrite Hglob|congruence]].
        rewrite Hcomps.
        destruct (decide (c1 = this)) as [->|H1];
          [by rewrite lookup_insert_eq, Hthis; simpl; f_equal
          | by rewrite lookup_insert_ne].
      * exists cm0. split; [|done]. simpl. by rewrite Hcomps, lookup_insert_eq.
      * intros j Hj. rewrite Hpx. destruct (decide (j = i)) as [->|Hji];
          [rewrite lookup_insert_eq; by eexists | by rewrite lookup_insert_ne].
      * intros j Hj. rewrite Hpx, lookup_insert_ne; [done|congruence].
      * intros key cb. unfold subscribers. simpl.
        rewrite Hcomps, lookup_insert_eq, Hthis.
        intros. apply Hsubs. by left.
      * intros ? key cb [= <-]. unfold subscribers. simpl.
        rewrite Hcomps, lookup_insert_eq.
        intros. apply Hsubs. by right.
      * intros j px' cm' Hj Hpx' Hcm'.
        destruct (Hexact j px' cm' Hj Hpx' Hcm') as [<- <-].
        by rewrite Hcomps, lookup_insert_eq.
  - (* the name is free *)
    destruct Hopen as (cm & Hthis & Hf).
    destruct r as [c|g]; simpl in *.
    + destruct (comps s !! c) as [cmc|] eqn:Hc; [|done]. simpl in Ht. simplify_eq.
      assert (c ≠ this) as Hc' by congruence.
      rewrite (ps_set_ordinary _ _ _ _ _ Hc Hint Hname). rewrite Hocc.
      rewrite (bind_ok (ret tt) _ s tt s eq_refl).
      rewrite (update_comp_ok _ _ _ _ Hc). simpl. rewrite lookup_insert_eq. simpl.
      split_and!; try done.
      * by eexists.
      * intros [c1|g1] Hr; simpl; [|done]. rewrite lookup_insert_ne; [done|congruence].
      * exists cm. split; [|done]. simpl. by rewrite lookup_insert_ne.
      * intros key cb. unfold subscribers. simpl. by rewrite lookup_insert_ne.
    + rewrite (global_set_ordinary _ _ _ _ _ Ht Hint Hname).
      rewrite Hocc. rewrite (bind_ok (ret tt) _ s tt s eq_refl).
      unfold update_global. rewrite Ht. simpl. rewrite lookup_insert_eq.
      split_and!; try done.
      * by eexists.
      * intros [c1|g1] Hr; simpl; [done|]. rewrite lookup_insert_ne; [done|congruence].
      * by exists cm.
Qed.

(** The registration writes of a constructor, one registry after the
    other. *)
Lemma link_all s name this rs :
  name ≠ "__proto__" → NoDup rs →
  (∀ r, r ∈ rs → vacant r name s ∧ intact r s ∧ r ≠ Scoped this) → unsealed this s →
  let m := forEach (map JRegistry rs) (λ global, assign global name (HObject this)) in
  m s = (Ok tt, (m s).2)
  ∧ unsealed this (m s).2
  ∧ (∀ r, r ∈ rs → slot r name (m s).2 = Some (HObject this))
  ∧ (∀ r, r ∉ rs → target_of r (m s).2 = target_of r s)
  ∧ (∀ key cb, cb ∈ subscribers this key s → cb ∈ subscribers this key (m s).2)
  ∧ (∀ r i key cb, r ∈ rs → slot r name s = Some (HProxy i) →
       cb ∈ subscribed (HProxy i) key s → cb ∈ subscribers this key (m s).2)
  ∧ (∀ j, is_Some (proxies s !! j) → is_Some (proxies (m s).2 !! j))
  ∧ log (m s).2 = log s.
Proof.
  intros Hname. cbv zeta. revert s. induction rs as [|r rs IH]; intros s Hnd Hvac Hopen.
  - simpl. split_and!; try done.
    + by intros r ?%elem_of_nil.
    + by intros r i key cb ?%elem_of_nil.
  - apply NoDup_cons in Hnd as [Hr Hnd].
    destruct (Hvac r) as (Hv & Hintact & Hne); [by left|].
    destruct (registry_set_vacant s r name this Hv Hintact Hname Hne Hopen)
      as (Hrun & (t & Ht & Ht1) & Hother & Hopen1 & Hdom & Hkeep & Hmono & Hfwd & _ & Hlog).
    set (s1 := (registry_set r name (HObject this) s).2) in *.
    change (forEach (map JRegistry (r :: rs)) (λ global, assign global name (HObject this)))
      with (do! registry_set r name (HObject this) in
            forEach (map JRegistry rs) (λ global, assign global name (HObject this))).
    rewrite (bind_ok _ _ _ _ _ Hrun).
    assert (∀ r', r' ∈ rs → target_of r' s1 = target_of r' s) as Hsame.
    { intros r' Hr'. apply Hother. intros ->. done. }
    destruct (IH s1 Hnd) as (Hrun' & Hopen' & Hslots & Hothers & Hmono' & Hfwd' & Hdom' & Hlog');
      [|done|].
    { intros r' Hr'. destruct (Hvac r') as ((t' & Ht' & Hocc) & Hintact' & Hne'); [by right|].
      split_and!; [|by unfold intact, slot; rewrite Hsame|done].
      exists t'. rewrite Hsame by done. split; [done|].
      destruct (t' !! name) as [[j| |]|]; try done. by apply Hdom. }
    split_and!; try done.
    + intros r' [->|Hr']%elem_of_cons; [|by apply Hslots].
      unfold slot. rewrite (Hothers r Hr), Ht1. simpl. apply lookup_insert_eq.
    + intros r' [Hne' Hr']%not_elem_of_cons. rewrite (Hothers r' Hr'). by apply Hother.
    + intros key cb Hcb. by apply Hmono', Hmono.
    + intros r' i key cb [->|Hr']%elem_of_cons Hocc Hcb.
      { by apply Hmono', (Hfwd i). }
      destruct (decide (slot r name s = Some (HProxy i))) as [Heq|Hneq].
      { by apply Hmono', (Hfwd i). }
      apply (Hfwd' r' i); [done| |].
      * unfold slot. rewrite Hsame by done. exact Hocc.
      * simpl in *. by rewrite (Hkeep i Hneq).
    + intros j Hj. by apply Hdom', Hdom.
    + congruence.
Qed.

(** X4. A component is constructed with a [pubsub] prop of either
    shape that gives a name other than [__proto__] and distinct registries,
    none of which has a slot named [hasOwnProperty], and in each of which
    the name is free or held by a placeholder.  Then the constructor returns a new
    component that is not sealed; the slot of the name in every listed
    registry holds its [pubsubObject]; every callback that a placeholder
    in one of these slots had buffered for a key is subscribed to the
    component for that key; every other registry is as before and the [ps]
    of the new component is empty; nothing is called. *)
Theorem linkage_registers
    (s : Store) (name_first : bool) (name : string)
    (registry : RegRef) (registries : list RegRef) :
  name ≠ "__proto__" → NoDup (registry :: registries) →
  (∀ r, r ∈ registry :: registries → vacant r name s ∧ intact r s) →
  let this := fresh (dom (comps s)) in
  let s1 := (constructor (Some (linkage name_first name registry registries)) s).2 in
  constructor (Some (linkage name_first name registry registries)) s = (Ok this, s1)
  ∧ comps s !! this = None
  ∧ unsealed this s1
  ∧ (∀ r, r ∈ registry :: registries → slot r name s1 = Some (HObject this))
  ∧ (∀ r i key cb, r ∈ registry :: registries → slot r name s = Some (HProxy i) →
       cb ∈ subscribed (HProxy i) key s → cb ∈ subscribers this key s1)
  ∧ (∀ r, r ∉ registry :: registries → r ≠ Scoped this → target_of r s1 = target_of r s)
  ∧ target_of (Scoped this) s1 = Some ∅
  ∧ log s1 = log s.
Proof.
  intros Hname Hnd Hvac this s1.
  assert (comps s !! this = None) as Hfresh by apply not_elem_of_dom, is_fresh.
  set (s0 := with_comps <[this := mkPSComponent [] [] false ∅]> s).
  assert (∀ r, r ≠ Scoped this → target_of r s0 = target_of r s) as Hs0.
  { intros [c|g] Hr; simpl; [|done]. rewrite lookup_insert_ne; [done|congruence]. }
  assert (∀ r, r ∈ registry :: registries → r ≠ Scoped this) as Hne.
  { intros r Hr ->. destruct (Hvac _ Hr) as [(t & Ht & _) _]. simpl in Ht.
    by rewrite Hfresh in Ht. }
  assert (unsealed this s0) as Hopen.
  { eexists. split; [apply lookup_insert_eq | done]. }
  destruct (link_all s0 name this (registry :: registries) Hname Hnd)
    as (Hrun & Hopen' & Hslots & Hothers & _ & Hfwd & _ & Hlog); [|done|].
  { intros r Hr. destruct (Hvac r Hr) as [(t & Ht & Hocc) Hintact].
    split_and!; [|unfold intact, slot in *; by rewrite Hs0 by (by apply Hne)|by apply Hne].
    exists t. rewrite Hs0 by (by apply Hne). done. }
  assert (constructor (Some (linkage name_first name registry registries)) s =
            (Ok this, (forEach (map JRegistry (registry :: registries))
                         (λ global, assign global name (HObject this)) s0).2)) as Heq.
  { unfold constructor, new_component. unfold bind at 1. fold this. fold s0.
    assert (link this (linkage name_first name registry registries) =
              forEach (map JRegistry (registry :: registries))
                (λ global, assign global name (HObject this))) as ->
      by (by destruct name_first).
    by rewrite (bind_ok _ _ _ _ _ Hrun). }
  subst s1. rewrite Heq. cbn [snd].
  split_and!; try done.
  - intros r i key cb Hr Hocc Hcb. apply (Hfwd r i); [done| |done].
    unfold slot. rewrite Hs0 by (by apply Hne). exact Hocc.
  - intros r Hr Hthis. rewrite (Hothers r Hr). by apply Hs0.
  - rewrite Hothers.
    + simpl. by rewrite lookup_insert_eq.
    + intros Hin. by apply (Hne _ Hin).
Qed.

Lemma linkage_registers_witness :
  let s := run [ONew None; ONewGlobal; OGet (Global 0) "child";
                OSub (HProxy 0) "m" 7] empty_store in
  let s1 := (constructor (Some [JRegistry (Scoped 0); JString "child";
                                JRegistry (Global 0)]) s).2 in
  slot (Scoped 0) "child" s1 = Some (HObject 1)
  ∧ slot (Global 0) "child" s1 = Some (HObject 1)
  ∧ 7 ∈ subscribers 1 "m" s1.
Proof.
  cbv zeta.
  destruct (linkage_registers
              (run [ONew None; ONewGlobal; OGet (Global 0) "child";
                    OSub (HProxy 0) "m" 7] empty_store)
              false "child" (Scoped 0) [Global 0])
    as (_ & _ & _ & Hslots & Hfwd & _).
  - discriminate.
  - apply NoDup_cons. split; [|apply NoDup_singleton].
    by intros [=]%list_elem_of_singleton.
  - intros r [->|[->|[]%elem_of_nil]%elem_of_cons]%elem_of_cons.
    + split; [|vm_compute; reflexivity].
      eexists. split; [vm_compute; reflexivity | done].
    + split; [|vm_compute; reflexivity].
      eexists. split; [vm_compute; reflexivity|]. vm_compute. by eexists.
  - split_and!.
    + apply (Hslots (Scoped 0)). by left.
    + apply (Hslots (Global 0)). right. by left.
    + apply (Hfwd (Global 0) 0 "m" 7).
      * right. by left.
      * vm_compute. reflexivity.
      * vm_compute. by left.
Defined.

(** A settled promise keeps its state, whatever is called. *)
Lemma settled_run p st ops s :
  st ≠ Pending → heap s !! p = Some st → heap (run ops s) !! p = Some st.
Proof.
  intros Hst. apply (frame_run (λ s', heap s' !! p = Some st)).
  - intros. by apply preserves_update_comp.
  - intros. by apply preserves_update_proxy.
  - intros. by apply preserves_update_global.
  - intros s' Hp. split; [|done]. unfold new_promise. simpl.
    rewrite lookup_insert_ne; [done|]. intros Heq.
    apply (is_fresh (dom (heap s'))). rewrite Heq. apply elem_of_dom. by eexists.
  - intros q e. apply preserves_modify. intros s' Hp. simpl.
    destruct (heap s' !! q) as [[| |]|] eqn:E; try done.
    rewrite lookup_insert_ne; [done|]. intros ->. congruence.
  - intros s' Hp. split; [|done]. done.
  - intros s' Hp. split; [|done]. done.
  - intros s' Hp. split; [|done]. done.
  - intros e. by apply preserves_modify.
  - intros r a. apply preserves_modify. intros s' Hp. simpl. by apply settle_settled.
Qed.

(** X5. A placeholder that has buffered the resolve function of a
    consumer's pending promise for [key] is finalized onto a real handle
    whose component is open, in a store where no resolve function names a
    promise that does not exist.  Then [finalize] returns normally, calls
    nothing and has emptied the buffer; the promise is still pending; the
    next fire of [key] by the component returns normally and fulfils the
    promise with its arguments; and whatever is called afterwards, the
    promise stays fulfilled with these arguments. *)
Theorem placeholder_forwards_promises
    (s : Store) (i : nat) (target : Handle) (c : nat) (key : string) (p : nat)
    (args : Args) (ops : list Op) :
  allocated s → real target = Some c → unsealed c s →
  Direct p ∈ buffered i key s → heap s !! p = Some Pending →
  let s1 := (PubSubProxy_finalize i target s).2 in
  let s2 := (PSComponent_trigger c key args s1).2 in
  (PubSubProxy_finalize i target s).1 = Ok tt
  ∧ log s1 = log s
  ∧ (∀ k, buffered i k s1 = [])
  ∧ heap s1 !! p = Some Pending
  ∧ (PSComponent_trigger c key args s1).1 = Ok tt
  ∧ heap s2 !! p = Some (Fulfilled args)
  ∧ heap (run ops s2) !! p = Some (Fulfilled args).
Proof.
  intros (_ & Hcomps & Hproxies) Hreal (cm & Hc & Hf) Hbuf Hpend. cbv zeta.
  unfold buffered in Hbuf. destruct (proxies s !! i) as [px|] eqn:Hi;
    [|by apply elem_of_nil in Hbuf].
  rewrite (finalize_open target c Hreal i px s cm Hi Hc Hf). cbn [fst snd].
  set (st := relay_all (px_promises px) (promises cm, heap s)).
  destruct (relay_then_fire (heap s) (promises cm) (px_promises px) key p args)
    as [Hstill Hfire]; try done.
  { intros k r x Hr. apply (Hcomps c cm r Hc). by apply (elems_members _ k). }
  { intros k rs r x Hin Hr. apply (Hproxies i px r Hi). apply elem_of_elems. by exists k, rs. }
  { by apply members_elem. }
  fold st in Hstill, Hfire.
  match goal with |- context [PSComponent_trigger c key args ?s'] => set (s1 := s') end.
  assert (unsealed c s1) as Hopen
    by (eexists; split; [apply lookup_insert_eq | done]).
  assert (waiters c key s1 = members key st.1) as Hw
    by (unfold waiters; simpl; by rewrite lookup_insert_eq).
  destruct (trigger_open s1 c key args Hopen) as (Hok & _ & Hheap & _).
  rewrite Hw in Hheap.
  assert (heap (PSComponent_trigger c key args s1).2 !! p = Some (Fulfilled args)) as Hful
    by (by rewrite Hheap).
  split_and!; try done.
  - intros k. unfold buffered. simpl. by rewrite lookup_insert_eq.
  - by apply settled_run.
Qed.

Lemma placeholder_forwards_promises_witness :
  let s := run [ONewGlobal; OGet (Global 0) "child"; OAsync (HProxy 0) "ping"; ONew None]
             empty_store in
  let s1 := (PubSubProxy_finalize 0 (HObject 0) s).2 in
  let s2 := (PSComponent_trigger 0 "ping" [VText "hello"] s1).2 in
  heap s !! 0 = Some Pending
  ∧ heap (run [OTrigger 0 "ping" [VText "again"]] s2) !! 0 = Some (Fulfilled [VText "hello"]).
Proof.
  cbv zeta. split; [vm_compute; reflexivity|].
  refine (proj2 (proj2 (proj2 (proj2 (proj2 (proj2
            (placeholder_forwards_promises _ 0 (HObject 0) 0 "ping" 0 [VText "hello"]
               [OTrigger 0 "ping" [VText "again"]] _ eq_refl _ _ _))))))).
  - apply allocated_run, allocated_empty.
  - eexists. split; [vm_compute; reflexivity | reflexivity].
  - vm_compute. by left.
  - vm_compute. reflexivity.
Defined.

(** ** Reusing a name of a global registry between component instances *)

(** X6. A slot of a global registry holds a component instance and is
    written with a real handle of another component, both open, in a store
    the library can reach (no resolve function names a promise that does
    not exist, no set of subscribers holds a callback twice); the name of
    the slot is not [__proto__] and the registry has no slot named
    [hasOwnProperty].  Then the
    write returns normally and calls nothing; the slot holds the written
    handle; the old component is sealed and its maps are empty; the new
    component is open and has, besides its own subscribers, every
    subscriber of the old one; a fire by the new component calls each
    former subscriber of the old one exactly once, and fulfils with its
    arguments every pending promise a consumer had requested from the old
    one for that key. *)
Theorem global_name_reuse_hands_over
    (s : Store) (g : nat) (name : string) (old new : nat) (value : Handle) :
  allocated s → distinct s →
  intact (Global g) s → name ≠ "__proto__" →
  slot (Global g) name s = Some (HComponent old) →
  real value = Some new → old ≠ new → unsealed old s → unsealed new s →
  let s1 := (GlobalPubSub_set g name value s).2 in
  (GlobalPubSub_set g name value s).1 = Ok tt
  ∧ slot (Global g) name s1 = Some value
  ∧ log s1 = log s
  ∧ sealed old s1
  ∧ (∀ k, subscribers old k s1 = [] ∧ waiters old k s1 = [])
  ∧ unsealed new s1
  ∧ (∀ k cb, cb ∈ subscribers new k s ∨ cb ∈ subscribers old k s →
             cb ∈ subscribers new k s1)
  ∧ (∀ k cb args, cb ∈ subscribers old k s →
       calls cb args (events_since s1 (PSComponent_trigger new k args s1).2) = 1)
  ∧ (∀ k p args, Direct p ∈ waiters old k s → heap s !! p = Some Pending →
       heap (PSComponent_trigger new k args s1).2 !! p = Some (Fulfilled args)).
Proof.
  intros (_ & Hcomps & _) Hdistinct Hintact Hname Hslot Hreal Hne
    (cm & Hold & Hf) (cm' & Hnew & Hf').
  cbv zeta. unfold intact, slot in Hintact, Hslot. simpl in Hintact, Hslot.
  destruct (globals s !! g) as [t|] eqn:Hg; [|done]. simpl in Hintact, Hslot.
  rewrite (global_set_ordinary _ _ _ _ _ Hg Hintact Hname).
  rewrite Hslot.
  rewrite (bind_ok _ _ _ _ _
             (finalizeTriggers_open value new old s cm cm' Hreal Hne Hold Hf Hnew Hf')).
  unfold update_global. cbn [globals]. rewrite Hg. cbn [fst snd].
  set (st := relay_all (promises cm) (promises cm', heap s)).
  match goal with |- context [slot _ _ ?s'] => set (s1 := s') end.
  assert (comps s1 !! new =
            Some (fset this_subscriptions (add_all (subscriptions cm) (subscriptions cm'))
                    (fset this_promises st.1 cm'))) as Hnew1.
  { subst s1. simpl. by rewrite lookup_insert_ne, lookup_insert_eq. }
  assert (comps s1 !! old = Some (mkPSComponent [] [] true (ps cm))) as Hold1.
  { subst s1. simpl. by rewrite lookup_insert_eq. }
  assert (unsealed new s1) as Hopen by (eexists; split; [exact Hnew1 | done]).
  assert (∀ k, subscribers new k s1 = members k (add_all (subscriptions cm) (subscriptions cm')))
    as Hsubs by (intros k; unfold subscribers; by rewrite Hnew1).
  assert (∀ k, waiters new k s1 = members k st.1)
    as Hwait by (intros k; unfold waiters; by rewrite Hnew1).
  split_and!; try done.
  - unfold slot. subst s1. simpl. rewrite lookup_insert_eq. simpl. apply lookup_insert_eq.
  - eexists. split; [exact Hold1 | done].
  - intros k. unfold subscribers, waiters. by rewrite Hold1.
  - intros k cb. rewrite Hsubs, add_all_elem. unfold subscribers. rewrite Hnew, Hold.
    intros [?|?]; [by left|]. right. by apply members_elem.
  - intros k cb args Hcb. apply trigger_calls; [done| |].
    + rewrite Hsubs. apply add_all_NoDup. by apply (Hdistinct new cm' k).
    + rewrite Hsubs. apply add_all_elem. right. apply members_elem.
      unfold subscribers in Hcb. by rewrite Hold in Hcb.
  - intros k p args Hp Hpend.
    destruct (trigger_open s1 new k args Hopen) as (_ & _ & Hheap & _).
    rewrite Hheap, Hwait.
    unfold waiters in Hp. rewrite Hold in Hp.
    apply (relay_then_fire (heap s) (promises cm') (promises cm) k p args); try done.
    + intros k' r x Hr. apply (Hcomps new cm' r Hnew). by apply (elems_members _ k').
    + intros k' rs r x Hin Hr. apply (Hcomps old cm r Hold). apply elem_of_elems.
      by exists k', rs.
    + by apply members_elem.
Qed.

Lemma global_name_reuse_hands_over_witness :
  let s := run [ONewGlobal; ONew None; OSet (Global 0) "x" (HComponent 0);
                OSub (HComponent 0) "m" 7; OAsync (HComponent 0) "m"; ONew None]
             empty_store in
  let s1 := (GlobalPubSub_set 0 "x" (HComponent 1) s).2 in
  slot (Global 0) "x" s = Some (HComponent 0)
  ∧ slot (Global 0) "x" s1 = Some (HComponent 1)
  ∧ calls 7 [VNum 1] (events_since s1 (PSComponent_trigger 1 "m" [VNum 1] s1).2) = 1
  ∧ heap (PSComponent_trigger 1 "m" [VNum 1] s1).2 !! 0 = Some (Fulfilled [VNum 1]).
Proof.
  cbv zeta. split; [vm_compute; reflexivity|].
  destruct (global_name_reuse_hands_over
              (run [ONewGlobal; ONew None; OSet (Global 0) "x" (HComponent 0);
                    OSub (HComponent 0) "m" 7; OAsync (HComponent 0) "m"; ONew None]
                 empty_store)
              0 "x" 0 1 (HComponent 1))
    as (_ & Hslot & _ & _ & _ & _ & _ & Hcalls & Hful).
  - apply allocated_run, allocated_empty.
  - apply distinct_run, distinct_empty.
  - vm_compute. reflexivity.
  - discriminate.
  - vm_compute. reflexivity.
  - reflexivity.
  - discriminate.
  - eexists. split; [vm_compute; reflexivity | reflexivity].
  - eexists. split; [vm_compute; reflexivity | reflexivity].
  - split_and!.
    + exact Hslot.
    + apply (Hcalls "m" 7 [VNum 1]). vm_compute. by left.
    + apply (Hful "m" 0 [VNum 1]); [vm_compute; by left | vm_compute; reflexivity].
Defined.

(** ** Deferred binding through a registry *)

Lemma target_of_proxies r f s : target_of r (with_proxies f s) = target_of r s.
Proof. by destruct r. Qed.

Lemma target_of_heap r f s : target_of r (with_heap f s) = target_of r s.
Proof. by destruct r. Qed.

(** A read of a vacant, ordinary name gives a placeholder that exists
    afterwards, and leaves the registry without a slot named
    [hasOwnProperty]. *)
Lemma registry_get_vacant s r name :
  vacant r name s → intact r s → ordinary name →
  ∃ i px s1,
    registry_get r name s = (Ok (HProxy i), s1)
    ∧ proxies s1 !! i = Some px
    ∧ slot r name s1 = Some (HProxy i)
    ∧ intact r s1
    ∧ heap s1 = heap s ∧ log s1 = log s.
Proof.
  intros (t & Ht & Hocc) Hintact [Hname Hname'].
  pose proof (intact_target r s t Ht Hintact) as Hint.
  destruct (registry_get_spec s r name t Ht Hint Hname)
    as (Hget & Ht1 & _ & Hsame & Hnew & Hheap & Hlog).
  assert (slot r name (registry_get r name s).2 =
            Some (default (HProxy (fresh (dom (proxies s)))) (t !! name))) as Hslot.
  { unfold slot. rewrite Ht1. simpl. apply lookup_insert_eq. }
  assert (intact r (registry_get r name s).2) as Hintact1.
  { unfold intact, slot. rewrite Ht1. simpl. by rewrite lookup_insert_ne. }
  destruct (t !! name) as [[i| |]|] eqn:Hocc'; try done; simpl in *.
  - destruct Hocc as [px Hi]. exists i, px, (registry_get r name s).2.
    split_and!; try done. by rewrite Hsame.
  - eexists _, _, (registry_get r name s).2. split_and!; try done.
    rewrite Hnew by done. apply lookup_insert_eq.
Qed.

(** The consumer's side and the publisher's side, once the consumer holds
    the placeholder of the slot. *)
Lemma late_binding s1 r name_first name key cb args i px :
  allocated s1 → intact r s1 → name ≠ "__proto__" →
  slot r name s1 = Some (HProxy i) → proxies s1 !! i = Some px →
  let m := (do! sub (HProxy i) key cb in
            let! awaited := async (HProxy i) key Consumer in
            let! publisher := constructor (Some (linkage name_first name r [])) in
            do! PSComponent_trigger publisher key args in
            ret (awaited, publisher)) in
  ∃ awaited publisher,
    m s1 = (Ok (awaited, publisher), (m s1).2)
    ∧ heap s1 !! awaited = None
    ∧ comps s1 !! publisher = None
    ∧ slot r name (m s1).2 = Some (HObject publisher)
    ∧ heap (m s1).2 !! awaited = Some (Fulfilled args)
    ∧ calls cb args (drop (length (log s1)) (log (m s1).2)) = 1.
Proof.
  intros Halloc Hintact Hname Hslot Hi. cbv zeta.
  (* the subscription *)
  pose proof (proxy_triggerSubscribe_ok _ _ _ key cb Hi) as Hsub.
  set (px2 := fset proxy_subscriptions (jmap_add key cb (px_subscriptions px)) px) in *.
  set (s2 := with_proxies <[i := px2]> s1) in *.
  assert (allocated s2) as Halloc2.
  { pose proof (allocated_exec (OSub (HProxy i) key cb) s1 Halloc) as H.
    simpl in H. by rewrite Hsub in H. }
  (* the promise request *)
  assert (proxies s2 !! i = Some px2) as Hi2 by apply proxies_insert_lookup.
  pose proof (proxy_async_ok _ _ _ key Consumer Hi2) as Hasync. cbv zeta in Hasync.
  set (p := fresh (dom (heap s2))) in *.
  set (px3 := fset proxy_promises (jmap_add key (resolver_of p Consumer) (px_promises px2)) px2)
    in *.
  set (s3 := with_proxies <[i := px3]> (with_heap <[p := Pending]> s2)) in *.
  assert (allocated s3) as Halloc3.
  { pose proof (allocated_exec (OAsync (HProxy i) key) s2 Halloc2) as H.
    simpl in H. rewrite void_store in H. by rewrite Hasync in H. }
  assert (heap s1 !! p = None) as Hp by apply not_elem_of_dom, is_fresh.
  assert (proxies s3 !! i = Some px3) as Hi3 by apply proxies_insert_lookup.
  assert (target_of r s3 = target_of r s1) as Ht3.
  { unfold s3, s2. by rewrite !target_of_proxies, target_of_heap. }
  (* the constructor *)
  set (this := fresh (dom (comps s3))).
  assert (comps s3 !! this = None) as Hthis by apply not_elem_of_dom, is_fresh.
  set (s3' := with_comps <[this := mkPSComponent [] [] false ∅]> s3).
  assert (r ≠ Scoped this) as Hr.
  { intros ->. unfold slot in Hslot. rewrite <- Ht3 in Hslot.
    assert (target_of (Scoped this) s3 = None) as Hn
      by (unfold target_of; by rewrite Hthis).
    by rewrite Hn in Hslot. }
  assert (target_of r s3' = target_of r s1) as Ht3'.
  { rewrite <- Ht3. destruct r as [c|g]; simpl; [|done].
    rewrite lookup_insert_ne; [done|congruence]. }
  assert (slot r name s3' = Some (HProxy i)) as Hslot3
    by (unfold slot in *; by rewrite Ht3').
  assert (comps s3' !! this = Some (mkPSComponent [] [] false ∅)) as Hthis'
    by apply comps_insert_lookup.
  destruct (registry_set_vacant s3' r name this)
    as (Hset & (t & _ & Ht4) & _ & Hopen4 & _ & _ & _ & _ & Hexact & Hlog4);
    [| |done|done| |].
  { unfold slot in Hslot3. destruct (target_of r s3') as [t|] eqn:Ht; [|done].
    exists t. split; [done|]. simpl in Hslot3. rewrite Hslot3. by eexists. }
  { unfold intact, slot in *. by rewrite Ht3'. }
  { eexists. split; [exact Hthis' | done]. }
  destruct (Hexact i px3 _ Hslot3 Hi3 Hthis') as [Hcm4 Hheap4].
  set (s4 := (registry_set r name (HObject this) s3').2) in *.
  assert (constructor (Some (linkage name_first name r [])) s3 = (Ok this, s4)) as Hnew.
  { unfold constructor, new_component. unfold bind at 1. fold this. fold s3'.
    assert (link this (linkage name_first name r []) s3' = (Ok tt, s4)) as Hlink.
    { destruct name_first; unfold link; simpl; unfold assign;
        by rewrite (bind_ok _ _ _ _ _ Hset). }
    by rewrite (bind_ok _ _ _ _ _ Hlink). }
  (* the fire *)
  set (cm4 := (finalized_onto px3 (mkPSComponent [] [] false ∅) (heap s3')).1) in *.
  pose proof (trigger_unsealed s4 this cm4 key args Hcm4 eq_refl) as Hfire.
  match type of Hfire with _ = (_, ?s') => set (s5 := s') in * end.
  exists p, this.
  rewrite (bind_ok _ _ _ _ _ Hsub), (bind_ok _ _ _ _ _ Hasync), (bind_ok _ _ _ _ _ Hnew),
    (bind_ok _ _ _ _ _ Hfire). unfold ret. cbn [fst snd].
  assert (Direct p ∈ members key (px_promises px3)) as Hwaits by apply members_add_new.
  assert (cb ∈ members key (px_subscriptions px3)) as Hcb by apply members_add_new.
  split_and!; try done.
  - unfold slot.
    assert (target_of r s5 = target_of r s4) as ->.
    { destruct r as [c|g]; simpl; [|done]. rewrite lookup_insert_ne; [done|congruence]. }
    rewrite Ht4. simpl. apply lookup_insert_eq.
  - change (heap s5) with (settle_all args (members key (promises cm4)) (heap s4)).
    rewrite Hheap4.
    apply (relay_then_fire (heap s3') [] (px_promises px3) key p args).
    + by intros k r0 x ?%elem_of_nil.
    + intros k rs r0 x Hin Hr0. destruct Halloc3 as (_ & _ & Hproxies).
      apply (Hproxies i px3 r0 Hi3). apply elem_of_elems. by exists k, rs.
    + by apply members_elem.
    + apply lookup_insert_eq.
  - change (log s5) with
      (log s4 ++ map (λ r, EvResolve (head r) args) (members key (promises cm4))
              ++ map (λ cb, EvCall cb args) (members key (subscriptions cm4))).
    rewrite Hlog4. change (log s3') with (log s1).
    rewrite drop_app_length, calls_app, calls_resolves. simpl.
    apply calls_member.
    + apply add_all_NoDup. apply NoDup_nil_2.
    + apply add_all_elem. right. by apply members_elem.
Qed.


(** X7. In a store where no resolve function names a promise that does
    not exist, a consumer reads a name other than [__proto__] and
    [hasOwnProperty] that is free in a registry, or held by a placeholder,
    the registry having no slot named [hasOwnProperty]; it subscribes a
    callback for [key] to the handle it got
    and requests a promise for [key] from it; then a component is
    constructed with a [pubsub] prop, of either shape, that names this
    registry and this name; then that component fires [key].  Every step
    returns normally; the promise is new; the slot holds the
    [pubsubObject] of the component; the promise is fulfilled with the
    arguments of the fire; and the callback was called with them exactly
    once. *)
Theorem deferred_binding
    (s : Store) (r : RegRef) (name_first : bool) (name key : string)
    (cb : Callback) (args : Args) :
  allocated s → vacant r name s → intact r s → ordinary name →
  let result := subscribe_wait_link_fire r name_first name key cb args s in
  ∃ child awaited publisher,
    result = (Ok (child, awaited, publisher), result.2)
    ∧ heap s !! awaited = None
    ∧ slot r name result.2 = Some (HObject publisher)
    ∧ heap result.2 !! awaited = Some (Fulfilled args)
    ∧ calls cb args (events_since s result.2) = 1.
Proof.
  intros Halloc Hvac Hintact Hname. cbv zeta.
  destruct (registry_get_vacant s r name Hvac Hintact Hname)
    as (i & px & s1 & Hget & Hi & Hslot & Hintact1 & Hheap & Hlog).
  assert (allocated s1) as Halloc1.
  { pose proof (allocated_exec (OGet r name) s Halloc) as H.
    simpl in H. rewrite void_store in H. by rewrite Hget in H. }
  destruct (late_binding s1 r name_first name key cb args i px Halloc1 Hintact1
              (proj1 Hname) Hslot Hi)
    as (p & this & Hrun & Hp & _ & Hslot' & Hful & Hcalls).
  exists (HProxy i), p, this. unfold subscribe_wait_link_fire.
  rewrite (bind_ok _ _ _ _ _ Hget).
  match type of Hrun with ?m s1 = _ => set (rest := m) in * end.
  assert (∀ child : Handle,
    (do! sub child key cb in
     let! awaited := async child key Consumer in
     let! publisher := constructor (Some (linkage name_first name r [])) in
     do! PSComponent_trigger publisher key args in
     ret (child, awaited, publisher)) s1 =
    match (do! sub child key cb in
           let! awaited := async child key Consumer in
           let! publisher := constructor (Some (linkage name_first name r [])) in
           do! PSComponent_trigger publisher key args in
           ret (awaited, publisher)) s1 with
    | (Ok (awaited, publisher), s') => (Ok (child, awaited, publisher), s')
    | (Throw e, s') => (Throw e, s')
    | (Diverge, s') => (Diverge, s')
    | (Stuck, s') => (Stuck, s')
    end) as Hsame.
  { intros child. unfold bind, ret.
    destruct (sub child key cb s1) as [[| | |] ?]; try done.
    destruct (async child key Consumer _) as [[| | |] ?]; try done.
    destruct (constructor _ _) as [[| | |] ?]; try done.
    by destruct (PSComponent_trigger _ _ _ _) as [[| | |] ?]. }
  rewrite (Hsame (HProxy i)). fold rest. rewrite Hrun. cbn [fst snd].
  split_and!; try done.
  - by rewrite <- Hheap.
  - unfold events_since. by rewrite <- Hlog.
Qed.

Lemma deferred_binding_witness :
  let s := run [ONew None] empty_store in
  ∃ child awaited publisher s',
    subscribe_wait_link_fire (Scoped 0) false "child" "ping" 7 [VText "hello"] s =
      (Ok (child, awaited, publisher), s')
    ∧ heap s' !! awaited = Some (Fulfilled [VText "hello"]).
Proof.
  cbv zeta.
  destruct (deferred_binding (run [ONew None] empty_store) (Scoped 0) false
              "child" "ping" 7 [VText "hello"])
    as (child & awaited & publisher & Hrun & _ & _ & Hful & _).
  - apply allocated_run, allocated_empty.
  - eexists. split; [vm_compute; reflexivity | done].
  - vm_compute. reflexivity.
  - split; discriminate.
  - exists child, awaited, publisher. eexists. split; [exact Hrun | exact Hful].
Defined.

(** ** What is called, and how often *)

(** X8. Whatever the store, a sequence of calls none of which is a
    [trigger] calls no callback and no resolve function: reading and
    writing registries, constructing and linking components, subscribing,
    unsubscribing, requesting promises and both finalize methods leave the
    log of calls as it is. *)
Theorem only_trigger_calls (s : Store) (ops : list Op) :
  (∀ o, o ∈ ops → ∀ c key args, o ≠ OTrigger c key args) →
  log (run ops s) = log s.
Proof.
  revert s. induction ops as [|o ops IH]; intros s Hquiet; [done|].
  assert (log (exec o s).2 = log s) as Hstep.
  { apply quiet_exec. apply Hquiet. by left. }
  assert (log (run ops (exec o s).2) = log s) as Hrest.
  { rewrite IH; [done|]. intros o' Ho'. apply Hquiet. by right. }
  simpl. by destruct (exec o s) as [[| | |] s'].
Qed.

Lemma only_trigger_calls_witness :
  log (run [ONew None; OSub (HObject 0) "m" 7; OAsync (HObject 0) "m";
            ONew (Some [JString "x"]); OFinalizeTriggers 0 (HObject 1);
            OUnsub (HObject 1) "m" 7] empty_store) = [].
Proof.
  refine (only_trigger_calls empty_store _ _).
  intros o Ho c key args ->.
  repeat (apply elem_of_cons in Ho as [Ho|Ho]; [discriminate Ho|]).
  by apply elem_of_nil in Ho.
Defined.

(** The log of a call that threw or got stuck before it called anything. *)
Lemma events_since_same s : events_since s s = [].
Proof. unfold events_since. apply drop_all. Qed.

(** X9. In every store the library can reach from the empty one, one
    [trigger(key, ...args)] calls each callback at most once with these
    arguments: exactly once when the component is open and the callback is
    subscribed for [key], and not at all when the callback is not
    subscribed for [key]. *)
Theorem fire_calls_each_subscriber_once
    (ops : list Op) (c : nat) (key : string) (args : Args) (cb : Callback) :
  let s := run ops empty_store in
  let n := calls cb args (events_since s (PSComponent_trigger c key args s).2) in
  n ≤ 1
  ∧ (unsealed c s → cb ∈ subscribers c key s → n = 1)
  ∧ (cb ∉ subscribers c key s → n = 0).
Proof.
  cbv zeta. set (s := run ops empty_store).
  assert (distinct s) as Hdistinct by apply distinct_run, distinct_empty.
  destruct (comps s !! c) as [cm|] eqn:Hc.
  - destruct (finalized cm) eqn:Hf.
    + rewrite (trigger_sealed _ _ _ key args Hc Hf). simpl. rewrite events_since_same.
      split_and!; [unfold calls; simpl; lia | | done].
      intros (cm' & Hc' & Hf'). congruence.
    + assert (unsealed c s) as Hopen by (by exists cm).
      assert (NoDup (subscribers c key s)) as Hnd.
      { unfold subscribers. rewrite Hc. by apply (Hdistinct c cm key). }
      destruct (trigger_open s c key args Hopen) as (_ & Hlog & _).
      assert (cb ∉ subscribers c key s →
              calls cb args (events_since s (PSComponent_trigger c key args s).2) = 0)
        as Habsent.
      { intros Hcb. rewrite (events_since_app _ _ _ Hlog), calls_app, calls_resolves.
        by apply calls_absent. }
      split_and!; [|by intros; apply trigger_calls|done].
      destruct (decide (cb ∈ subscribers c key s)) as [Hcb|Hcb].
      * by rewrite trigger_calls.
      * rewrite Habsent by done. lia.
  - assert (PSComponent_trigger c key args s = (Stuck, s)) as ->.
    { unfold PSComponent_trigger, PSComponent_getTriggerSet, get_comp, bind. by rewrite Hc. }
    simpl. rewrite events_since_same.
    split_and!; [unfold calls; simpl; lia | | done].
    intros (cm' & Hc' & _). congruence.
Qed.

(** ** The lifecycle hooks *)

(** [this.pub.<key>(...args)] is [trigger(key, ...args)]. *)
Lemma publish_trigger c key args s : publish c key args s = PSComponent_trigger c key args s.
Proof. done. Qed.

Lemma lifecycle_trigger c h s : lifecycle c h s = PSComponent_trigger c (hook_key h) [] s.
Proof. by destruct h. Qed.

Lemma hook_key_inj h h' : hook_key h = hook_key h' → h = h'.
Proof. by destruct h, h'. Qed.

(** X10. Each of [componentDidMount], [componentDidUpdate] and
    [componentWillUnmount] of a [PSLifecycleComponent] fires the trigger of
    its own name with no arguments.  On a component that is not sealed it
    returns normally, calls the resolve function of every waiter of that
    name and then every subscriber of that name, in insertion order and
    with no arguments, fulfils the waiters that were pending with the empty
    argument list, and leaves the subscribers and waiters of the two other
    hooks alone.  On a sealed component it throws
    [Error("Already finalized.")] and changes nothing; so it does on the
    owner of a [ps] after a write over a real handle in that [ps], under a
    name other than [__proto__] and with no slot named [hasOwnProperty] in
    the [ps]. *)
Theorem lifecycle_hooks_publish (s : Store) (c : nat) (h : Hook) :
  (unsealed c s →
   let s' := (lifecycle c h s).2 in
   (lifecycle c h s).1 = Ok tt
   ∧ log s' = log s ++ map (λ r, EvResolve (head r) []) (waiters c (hook_key h) s)
                    ++ map (λ cb, EvCall cb []) (subscribers c (hook_key h) s)
   ∧ (∀ r, r ∈ waiters c (hook_key h) s → heap s !! head r = Some Pending →
           heap s' !! head r = Some (Fulfilled []))
   ∧ (∀ h', h' ≠ h →
        subscribers c (hook_key h') s' = subscribers c (hook_key h') s
        ∧ waiters c (hook_key h') s' = waiters c (hook_key h') s))
  ∧ (sealed c s → lifecycle c h s = (Throw AlreadyFinalized, s))
  ∧ (∀ name occupant value cm,
       comps s !! c = Some cm → ps cm !! "hasOwnProperty" = None → name ≠ "__proto__" →
       ps cm !! name = Some occupant → (∀ i, occupant ≠ HProxy i) →
       let s1 := (ps_set c name value s).2 in
       lifecycle c h s1 = (Throw AlreadyFinalized, s1)).
Proof.
  split_and!.
  - intros Hopen. cbv zeta. rewrite lifecycle_trigger.
    destruct (trigger_open s c (hook_key h) [] Hopen)
      as (Hok & Hlog & _ & Hful & _ & _ & Hother & _).
    split_and!; try done.
    intros h' Hne. destruct (Hother (hook_key h')) as [Hw Hs]; [|done].
    intros Heq. by apply Hne, hook_key_inj.
  - intros (cm & Hc & Hf). rewrite lifecycle_trigger. by apply (trigger_sealed _ _ cm).
  - intros name occupant value cm Hc Hintact Hname Hslot Hreal. cbv zeta.
    rewrite lifecycle_trigger.
    destruct (ps_set_real_seals s c name occupant value cm Hc Hintact Hname Hslot Hreal)
      as (cm1 & Hc1 & Hf1).
    by apply (trigger_sealed _ _ cm1).
Qed.

Lemma lifecycle_hooks_publish_witness :
  let s := run [ONew None; OSub (HObject 0) "componentDidMount" 7;
                OSub (HObject 0) "componentDidUpdate" 8] empty_store in
  log (lifecycle 0 DidMount s).2 = [EvCall 7 []]
  ∧ subscribers 0 "componentDidUpdate" (lifecycle 0 DidMount s).2 = [8].
Proof.
  cbv zeta.
  destruct (proj1 (lifecycle_hooks_publish
                     (run [ONew None; OSub (HObject 0) "componentDidMount" 7;
                           OSub (HObject 0) "componentDidUpdate" 8] empty_store)
                     0 DidMount))
    as (_ & Hlog & _ & Hother).
  - eexists. split; [vm_compute; reflexivity | reflexivity].
  - split; [exact Hlog|]. by destruct (Hother DidUpdate).
Defined.

(** ** Symbol keys *)

(** Every Proxy of the library refuses a symbol key: a read of
    [async], [sub], [unsub] or [pub] and a read or a write of a registry
    with a symbol key throw [Error("String access required for pub/sub.")]
    and leave the store as it is; in particular such a read of a registry
    makes no placeholder and such a write finalizes and replaces nothing.
    With a string key a registry read and write are the traps of the
    registry. *)
Lemma symbol_keys_are_refused
    (s : Store) (id : nat) (handle : Handle) (c : nat) (r : RegRef) (value : Handle) :
  async_proxy handle (KSymbol id) s = (Throw StringAccessRequired, s)
  ∧ sub_proxy handle (KSymbol id) s = (Throw StringAccessRequired, s)
  ∧ unsub_proxy handle (KSymbol id) s = (Throw StringAccessRequired, s)
  ∧ pub c (KSymbol id) s = (Throw StringAccessRequired, s)
  ∧ registry_proxy_get r (KSymbol id) s = (Throw StringAccessRequired, s)
  ∧ registry_proxy_set r (KSymbol id) value s = (Throw StringAccessRequired, s)
  ∧ (∀ name, registry_proxy_get r (KString name) s = registry_get r name s
             ∧ registry_proxy_set r (KString name) value s = registry_set r name value s).
Proof. by split_and!. Qed.

(** ** Finalizing a placeholder onto a sealed component *)

Lemma only_new_promises_refl s : only_new_promises s s.
Proof. by split_and!. Qed.

Lemma only_new_promises_trans s1 s2 s3 :
  only_new_promises s1 s2 → only_new_promises s2 s3 → only_new_promises s1 s3.
Proof.
  intros (? & ? & ? & ? & H12) (? & ? & ? & ? & H23).
  split_and!; try congruence. intros p st Hp. by apply H23, H12.
Qed.

Lemma refused_add n n' h : refused n' (refused n h) = refused (n + n') h.
Proof. unfold refused. by rewrite Nat.add_comm, Nat.iter_add. Qed.

(** [n] requests to a sealed component made [n] promises that did not
    exist, all of them rejected, and touched no other. *)
Lemma refused_new n h :
  ∃ handed : list nat,
    length handed = n ∧ NoDup handed
    ∧ (∀ p, p ∈ handed →
         h !! p = None ∧ refused n h !! p = Some (Rejected AlreadyFinalized))
    ∧ (∀ p, p ∉ handed → refused n h !! p = h !! p).
Proof.
  induction n as [|n (handed & Hlen & Hnd & Hnew & Hold)].
  { exists []. split_and!; [done | apply NoDup_nil_2 | by intros p ?%elem_of_nil | done]. }
  change (refused (S n) h) with (<[fresh (dom (refused n h)) := Rejected AlreadyFinalized]>
                                  (refused n h)).
  set (p0 := fresh (dom (refused n h))).
  assert (refused n h !! p0 = None) as Hp0 by apply not_elem_of_dom, is_fresh.
  assert (p0 ∉ handed) as Hout.
  { intros Hin. destruct (Hnew p0 Hin) as [_ Hrej]. congruence. }
  exists (p0 :: handed). split_and!.
  - simpl. by rewrite Hlen.
  - by apply NoDup_cons.
  - intros p [->|Hin]%elem_of_cons.
    + split; [by rewrite <- Hold | apply lookup_insert_eq].
    + destruct (Hnew p Hin) as [Hnone Hrej]. split; [done|].
      rewrite lookup_insert_ne; [done|]. intros <-. done.
  - intros p [Hne Hnin]%not_elem_of_cons. rewrite lookup_insert_ne by done. by apply Hold.
Qed.

Section ForwardToSealed.
Context (target : Handle) (c : nat) (Hreal : real target = Some c).
Implicit Types (s : Store) (key : string).

(** The relay arrow against a sealed target: the promise it is handed is
    new and rejected, and its [resolve] is never called. *)
Lemma forward_promise_sealed key r s :
  sealed c s →
  forward_promise target key r s = (Ok tt, (forward_promise target key r s).2)
  ∧ only_new_promises s (forward_promise target key r s).2
  ∧ heap (forward_promise target key r s).2 = refused 1 (heap s).
Proof.
  intros (cm & Hc & Hf). unfold forward_promise. rewrite (async_real target c Hreal).
  pose proof (triggerPromise_sealed _ _ _ key (Forward r) Hc Hf) as Heq. cbv zeta in Heq.
  rewrite (bind_ok _ _ _ _ _ Heq). unfold ret. simpl. split; [done|].
  split; [|done].
  split_and!; try done. intros p st Hp. cbn. rewrite lookup_insert_ne; [done|].
  intros Heq'. apply (is_fresh (dom (heap s))). rewrite Heq'. apply elem_of_dom. by eexists.
Qed.

Lemma sealed_only_new_promises s s' : only_new_promises s s' → sealed c s → sealed c s'.
Proof. intros (Hcomps & _) (cm & Hc & Hf). exists cm. by rewrite Hcomps. Qed.

Lemma forEach_forward_promise_sealed key rs s :
  sealed c s →
  forEach rs (forward_promise target key) s =
    (Ok tt, (forEach rs (forward_promise target key) s).2)
  ∧ only_new_promises s (forEach rs (forward_promise target key) s).2
  ∧ heap (forEach rs (forward_promise target key) s).2 = refused (length rs) (heap s).
Proof.
  revert s. induction rs as [|r rs IH]; intros s Hs; simpl.
  - split; [done|]. split; [apply only_new_promises_refl | done].
  - destruct (forward_promise_sealed key r s Hs) as (Hrun & Hnew & Hheap).
    rewrite (bind_ok _ _ _ _ _ Hrun).
    destruct (IH _ (sealed_only_new_promises _ _ Hnew Hs)) as (Hrun' & Hnew' & Hheap').
    split_and!; [by rewrite Hrun' at 1 | by eapply only_new_promises_trans |].
    rewrite Hheap', Hheap. apply (refused_add 1).
Qed.

Lemma forward_promises_sealed m s :
  sealed c s →
  forward_promises target m s = (Ok tt, (forward_promises target m s).2)
  ∧ only_new_promises s (forward_promises target m s).2
  ∧ heap (forward_promises target m s).2 = refused (length (elems m)) (heap s).
Proof.
  unfold forward_promises.
  revert s. induction m as [|[key rs] m IH]; intros s Hs; simpl.
  - split; [done|]. split; [apply only_new_promises_refl | done].
  - destruct (forEach_forward_promise_sealed key rs s Hs) as (Hrun & Hnew & Hheap).
    rewrite (bind_ok _ _ _ _ _ Hrun).
    destruct (IH _ (sealed_only_new_promises _ _ Hnew Hs)) as (Hrun' & Hnew' & Hheap').
    split_and!; [by rewrite Hrun' at 1 | by eapply only_new_promises_trans |].
    rewrite Hheap', Hheap, refused_add. unfold elems. simpl. by rewrite length_app.
Qed.

(** Forwarding subscriptions onto a sealed target throws at the first
    callback. *)
Lemma forward_subscriptions_sealed (m : JsMap Callback) s :
  sealed c s →
  forward_subscriptions target m s =
    (if decide (elems m = []) then Ok tt else Throw AlreadyFinalized, s).
Proof.
  intros (cm & Hc & Hf). unfold forward_subscriptions, elems.
  induction m as [|[key cbs] m IH]; simpl; [done|].
  destruct cbs as [|cb cbs]; simpl.
  - rewrite (bind_ok (ret tt) _ s tt s eq_refl). exact IH.
  - rewrite (sub_real target c Hreal).
    by rewrite (bind_throw _ _ _ _ _
                  (bind_throw _ _ _ _ _ (triggerSubscribe_sealed _ _ _ key cb Hc Hf))).
Qed.
End ForwardToSealed.

(** X12. A placeholder is finalized onto a real handle whose component
    is sealed.  For every buffered resolve function a promise is requested
    from the component, which hands out a rejected one: afterwards there
    are as many new promises as the placeholder had buffered resolve
    functions, each rejected with [Error("Already finalized.")], and every
    other promise is as it was, the buffered ones included.  No component
    and no registry changes, and nothing is called.  If the placeholder
    has buffered a callback, [finalize] then throws
    [Error("Already finalized.")] and the placeholder keeps both maps:
    the registry write that ran it, under a name other than [__proto__] in
    a registry with no slot named [hasOwnProperty], throws as well and the
    slot still holds the placeholder.  If it has buffered no callback,
    [finalize] returns normally and both maps of the placeholder are
    empty. *)
Theorem finalize_onto_sealed
    (s : Store) (i : nat) (target : Handle) (c : nat) (px : PubSubProxy) :
  real target = Some c → sealed c s → proxies s !! i = Some px →
  let s' := (PubSubProxy_finalize i target s).2 in
  comps s' = comps s ∧ globals s' = globals s ∧ log s' = log s
  ∧ (∃ handed : list nat,
       length handed = length (elems (px_promises px)) ∧ NoDup handed
       ∧ (∀ p, p ∈ handed →
            heap s !! p = None ∧ heap s' !! p = Some (Rejected AlreadyFinalized))
       ∧ (∀ p, p ∉ handed → heap s' !! p = heap s !! p))
  ∧ (elems (px_subscriptions px) ≠ [] →
     (PubSubProxy_finalize i target s).1 = Throw AlreadyFinalized
     ∧ proxies s' = proxies s
     ∧ ∀ r name, intact r s → name ≠ "__proto__" → slot r name s = Some (HProxy i) →
         (registry_set r name target s).1 = Throw AlreadyFinalized
         ∧ slot r name (registry_set r name target s).2 = Some (HProxy i))
  ∧ (elems (px_subscriptions px) = [] →
     (PubSubProxy_finalize i target s).1 = Ok tt
     ∧ proxies s' = <[i := mkPubSubProxy [] []]> (proxies s)).
Proof.
  intros Hreal Hsealed Hi. cbv zeta.
  destruct (forward_promises_sealed target c Hreal (px_promises px) s Hsealed)
    as (Hrun & Hnew & Hrefused).
  set (s1 := (forward_promises target (px_promises px) s).2) in *.
  pose proof (forward_subscriptions_sealed target c Hreal (px_subscriptions px) s1
                (sealed_only_new_promises c _ _ Hnew Hsealed)) as Hsubs.
  destruct Hnew as (Hcomps & Hproxies & Hglobals & Hlog & Hheap).
  assert (PubSubProxy_finalize i target s =
            if decide (elems (px_subscriptions px) = [])
            then (Ok tt, with_proxies <[i := mkPubSubProxy [] []]> s1)
            else (Throw AlreadyFinalized, s1)) as Hfin.
  { unfold PubSubProxy_finalize. rewrite (bind_ok _ _ _ _ _ (get_proxy_ok _ _ _ Hi)).
    rewrite decide_False by (intros [-> _]; done).
    rewrite (bind_ok _ _ _ _ _ Hrun). case_decide as Hd.
    - rewrite (bind_ok _ _ _ _ _ Hsubs). unfold update_proxy.
      by rewrite Hproxies, Hi.
    - by rewrite (bind_throw _ _ _ _ _ Hsubs). }
  rewrite Hfin. split_and!.
  - by case_decide.
  - by case_decide.
  - by case_decide.
  - assert (heap (if decide (elems (px_subscriptions px) = [])
                  then (Ok tt, with_proxies <[i := mkPubSubProxy [] []]> s1)
                  else (Throw AlreadyFinalized, s1)).2 =
              refused (length (elems (px_promises px))) (heap s)) as ->
      by (by case_decide).
    apply refused_new.
  - intros Hne. rewrite decide_False by done. split_and!; try done.
    intros r name Hintact Hname Hslot.
    assert (registry_set r name target s = (Throw AlreadyFinalized, s1)) as ->.
    { unfold intact, slot in Hintact, Hslot. destruct r as [c'|g]; simpl in *.
      - destruct (comps s !! c') as [cm|] eqn:Hc'; [|done]. simpl in Hintact, Hslot.
        rewrite (ps_set_ordinary _ _ _ _ _ Hc' Hintact Hname). rewrite Hslot.
        erewrite bind_throw; [done|].
        rewrite Hfin. by rewrite decide_False.
      - destruct (globals s !! g) as [t|] eqn:Hg; [|done]. simpl in Hintact, Hslot.
        rewrite (global_set_ordinary _ _ _ _ _ Hg Hintact Hname).
        rewrite Hslot. erewrite bind_throw; [done|].
        rewrite Hfin. by rewrite decide_False. }
    split; [done|]. simpl. unfold slot in *.
    destruct r as [c'|g]; simpl in *; by rewrite ?Hcomps, ?Hglobals.
  - intros Hnil. rewrite decide_True by done. simpl. by rewrite Hproxies.
Qed.

Lemma finalize_onto_sealed_witness :
  let s := run [ONewGlobal; OGet (Global 0) "child"; OSub (HProxy 0) "m" 7;
                OAsync (HProxy 0) "m"; ONew None; ONew None;
                OFinalizeTriggers 0 (HObject 1)] empty_store in
  (registry_set (Global 0) "child" (HObject 0) s).1 = Throw AlreadyFinalized
  ∧ slot (Global 0) "child" (registry_set (Global 0) "child" (HObject 0) s).2 =
      Some (HProxy 0)
  ∧ heap s !! 0 = Some Pending
  ∧ heap s !! 1 = None
  ∧ heap (PubSubProxy_finalize 0 (HObject 0) s).2 !! 1 = Some (Rejected AlreadyFinalized).
Proof.
  cbv zeta.
  edestruct (finalize_onto_sealed
               (run [ONewGlobal; OGet (Global 0) "child"; OSub (HProxy 0) "m" 7;
                     OAsync (HProxy 0) "m"; ONew None; ONew None;
                     OFinalizeTriggers 0 (HObject 1)] empty_store)
               0 (HObject 0) 0)
    as (_ & _ & _ & _ & Hthrows & _).
  - reflexivity.
  - eexists. split; [vm_compute; reflexivity | reflexivity].
  - vm_compute. reflexivity.
  - destruct Hthrows as (_ & _ & Hwrite); [vm_compute; discriminate|].
    destruct (Hwrite (Global 0) "child") as [Hthrow Hslot];
      [vm_compute; reflexivity | discriminate | vm_compute; reflexivity |].
    split_and!; [exact Hthrow | exact Hslot | vm_compute; reflexivity..].
Defined.

(** ** The keys a fire leaves behind *)

Lemma jmap_set_keys {X} key (v : list X) (m : JsMap X) : key ∈ (jmap_set key v m).*1.
Proof.
  induction m as [|[k u] m IH]; simpl; [by left|].
  case_decide as Hk; simpl; [subst; by left | by right].
Qed.

Lemma jmap_get_keys {X} `{EqDecision X} key (m : JsMap X) :
  is_Some (jmap_get key m) → key ∈ m.*1.
Proof.
  induction m as [|[k u] m IH]; simpl; [by intros [? ?]|].
  case_decide as Hk; [subst; by left | right; by apply IH].
Qed.

Lemma jmap_ensure_keys {X} `{EqDecision X} key (m : JsMap X) : key ∈ (jmap_ensure key m).*1.
Proof.
  unfold jmap_ensure. destruct (jmap_get key m) eqn:E.
  - apply jmap_get_keys. by rewrite E.
  - apply jmap_set_keys.
Qed.

(** X13. A [trigger(key, ...args)] of a component that is not sealed
    leaves the promises map without an entry for [key] and the
    subscriptions map with one, also when nobody has subscribed to [key]:
    the lookup made an empty set and nothing removes it.  An
    [unsub.<key>(cb)] right afterwards that leaves no subscriber removes
    the entry again. *)
Theorem trigger_leaves_subscription_key
    (s : Store) (c : nat) (key : string) (args : Args) (cb : Callback) :
  unsealed c s →
  let s' := (PSComponent_trigger c key args s).2 in
  (key ∉ promise_keys c s')
  ∧ key ∈ subscription_keys (HObject c) s'
  ∧ (subscribers c key s = [] → subscribers c key s' = [])
  ∧ (jset_delete cb (subscribers c key s) = [] →
     key ∉ subscription_keys (HObject c) (unsub (HObject c) key cb s').2).
Proof.
  intros (cm & Hc & Hf). cbv zeta.
  assert (unsealed c s) as Hopen by (by exists cm).
  destruct (trigger_open s c key args Hopen) as (_ & _ & _ & _ & _ & Hsubs & _ & _ & Hopen').
  split_and!.
  - rewrite (trigger_unsealed _ _ _ key args Hc Hf). unfold promise_keys. simpl.
    rewrite lookup_insert_eq. simpl. apply jmap_delete_keys.
  - rewrite (trigger_unsealed _ _ _ key args Hc Hf). simpl.
    rewrite lookup_insert_eq. simpl. apply jmap_ensure_keys.
  - intros Hnil. by rewrite Hsubs.
  - intros Hnil. apply unsub_last_key; [done|]. simpl. by rewrite Hsubs.
Qed.

Lemma trigger_leaves_subscription_key_witness :
  let s := run [ONew None] empty_store in
  subscription_keys (HObject 0) s = []
  ∧ "ping" ∈ subscription_keys (HObject 0) (PSComponent_trigger 0 "ping" [] s).2.
Proof.
  cbv zeta. split; [vm_compute; reflexivity|].
  refine (proj1 (proj2 (trigger_leaves_subscription_key _ 0 "ping" [] 0 _))).
  eexists. split; [vm_compute; reflexivity | reflexivity].
Defined.

(** ** Calls on one handle are local *)

Section Local.
Context (s0 : Store) (h : Handle).
Local Abbreviation I := (local_to h s0).

Lemma local_to_refl : I s0.
Proof. by split_and!. Qed.

Lemma local_update_comp c f :
  real h = Some c → (∀ cm, ps (f cm) = ps cm ∧ finalized (f cm) = finalized cm) →
  preserves I (update_comp c f).
Proof.
  intros Hreal Hf. apply preserves_update_comp.
  intros s cm (Hreg & Hcomps & Hproxies & Hfin) Hc. split_and!; try done.
  - intros [d|g]; simpl; [|apply (Hreg (Global g))].
    destruct (decide (d = c)) as [->|Hd].
    + rewrite lookup_insert_eq. simpl. destruct (Hf cm) as [-> _].
      pose proof (Hreg (Scoped c)) as Hown. simpl in Hown. by rewrite Hc in Hown.
    + rewrite lookup_insert_ne by done. apply (Hreg (Scoped d)).
  - intros d Hd. simpl. rewrite lookup_insert_ne; [by apply Hcomps|]. congruence.
  - intros d. simpl. destruct (decide (d = c)) as [->|Hd].
    + rewrite lookup_insert_eq. simpl. destruct (Hf cm) as [_ ->].
      pose proof (Hfin c) as Hown. by rewrite Hc in Hown.
    + rewrite lookup_insert_ne by done. apply Hfin.
Qed.

Lemma local_update_proxy i f : h = HProxy i → preserves I (update_proxy i f).
Proof.
  intros ->. apply preserves_update_proxy.
  intros s px (Hreg & Hcomps & Hproxies & Hfin) Hi. split_and!; try done.
  intros j Hj. simpl. rewrite lookup_insert_ne; [by apply Hproxies|]. congruence.
Qed.

Lemma local_heap f : preserves I (modify (with_heap f)).
Proof.
  apply preserves_modify. by intros s (Hreg & ?).
Qed.

Lemma local_emit e : preserves I (emit e).
Proof. apply preserves_modify. by intros s (Hreg & ?). Qed.

Lemma local_new_promise : preserves I new_promise.
Proof. intros s (Hreg & ?). by split. Qed.

Lemma local_reject p e : preserves I (reject p e).
Proof. apply local_heap. Qed.

Lemma local_get_comp c : preserves I (get_comp c).
Proof. by apply hoare_get_comp. Qed.

Lemma local_get_proxy i : preserves I (get_proxy i).
Proof. by apply hoare_get_proxy. Qed.

Lemma local_getTriggerSet {X} `{EqDecision X} (map : Field PSComponent X)
    `{!ComponentField map} c key :
  real h = Some c → preserves I (PSComponent_getTriggerSet map c key).
Proof.
  intros Hreal. unfold PSComponent_getTriggerSet.
  apply preserves_bind; [apply local_get_comp|]. intros cm.
  destruct (finalized cm); [apply hoare_throw|].
  destruct (jmap_get key (fget map cm)); [by apply hoare_ret|].
  apply preserves_bind; [|intros; by apply hoare_ret].
  apply local_update_comp; [done|]. intros cm'. by rewrite ps_fset_c, finalized_fset_c.
Qed.

Lemma local_mutateSet {X} `{EqDecision X} (map : Field PSComponent X)
    `{!ComponentField map} c key f :
  real h = Some c → preserves I (PSComponent_mutateSet map c key f).
Proof.
  intros Hreal. apply local_update_comp; [done|].
  intros cm'. by rewrite ps_fset_c, finalized_fset_c.
Qed.

Lemma local_triggerPromise c key w :
  real h = Some c → preserves I (PSComponent_triggerPromise c key w).
Proof.
  intros Hreal. unfold PSComponent_triggerPromise.
  apply preserves_bind; [apply local_new_promise|]. intros p.
  apply preserves_bind; [|intros; by apply hoare_ret].
  apply hoare_catch; [|intros; apply local_reject].
  apply preserves_bind; [by apply local_getTriggerSet; [tc_solve|]|]. intros _.
  by apply local_mutateSet; [tc_solve|].
Qed.

Lemma local_triggerSubscribe c key cb :
  real h = Some c → preserves I (PSComponent_triggerSubscribe c key cb).
Proof.
  intros Hreal. unfold PSComponent_triggerSubscribe.
  apply preserves_bind; [by apply local_getTriggerSet; [tc_solve|]|]. intros _.
  by apply local_mutateSet; [tc_solve|].
Qed.

Lemma local_triggerUnsubscribe c key cb :
  real h = Some c → preserves I (PSComponent_triggerUnsubscribe c key cb).
Proof.
  intros Hreal. unfold PSComponent_triggerUnsubscribe.
  apply preserves_bind; [by apply local_getTriggerSet; [tc_solve|]|]. intros _.
  apply preserves_bind; [by apply local_mutateSet; [tc_solve|]|]. intros _.
  apply preserves_bind; [apply local_get_comp|]. intros cm.
  case_decide; [|by apply hoare_ret].
  by apply local_update_comp.
Qed.

Lemma local_trigger c key args :
  real h = Some c → preserves I (PSComponent_trigger c key args).
Proof.
  intros Hreal. unfold PSComponent_trigger.
  apply preserves_bind; [by apply local_getTriggerSet; [tc_solve|]|]. intros waiters.
  apply preserves_bind.
  { apply preserves_forEach. intros r _. unfold call_resolve.
    apply preserves_bind; [apply local_emit|]. intros _. apply local_heap. }
  intros _. apply preserves_bind; [by apply local_update_comp|]. intros _.
  apply preserves_bind; [by apply local_getTriggerSet; [tc_solve|]|]. intros callbacks.
  apply preserves_forEach. intros cb _. apply local_emit.
Qed.
Lemma local_proxy_getTriggerSet {X} (map : Field PubSubProxy X) i key :
  h = HProxy i → preserves I (PubSubProxy_getTriggerSet map i key).
Proof.
  intros Hh. unfold PubSubProxy_getTriggerSet.
  apply preserves_bind; [apply local_get_proxy|]. intros px.
  destruct (jmap_get key (fget map px)); [by apply hoare_ret|].
  apply preserves_bind; [by apply local_update_proxy | intros; by apply hoare_ret].
Qed.

Lemma local_async key w : preserves I (async h key w).
Proof.
  destruct h as [i|c|c] eqn:Hh; simpl;
    [|rewrite <- Hh; apply local_triggerPromise; by rewrite Hh..].
  rewrite <- Hh.
  unfold PubSubProxy_async, PubSubProxy_mutateSet.
  apply preserves_bind; [apply local_new_promise|]. intros p.
  apply preserves_bind; [|intros; by apply hoare_ret].
  apply hoare_catch; [|intros; apply local_reject].
  apply preserves_bind; [by apply local_proxy_getTriggerSet|]. intros _.
  by apply local_update_proxy.
Qed.

Lemma local_sub key cb : preserves I (sub h key cb).
Proof.
  destruct h as [i|c|c] eqn:Hh; simpl;
    [|rewrite <- Hh; apply local_triggerSubscribe; by rewrite Hh..].
  rewrite <- Hh.
  unfold PubSubProxy_triggerSubscribe, PubSubProxy_mutateSet.
  apply preserves_bind; [by apply local_proxy_getTriggerSet|]. intros _.
  by apply local_update_proxy.
Qed.

Lemma local_unsub key cb : preserves I (unsub h key cb).
Proof.
  destruct h as [i|c|c] eqn:Hh; simpl;
    [|rewrite <- Hh; apply local_triggerUnsubscribe; by rewrite Hh..].
  rewrite <- Hh.
  unfold PubSubProxy_triggerUnsubscribe, PubSubProxy_mutateSet.
  apply preserves_bind; [by apply local_proxy_getTriggerSet|]. intros _.
  apply preserves_bind; [by apply local_update_proxy|]. intros _.
  apply preserves_bind; [apply local_get_proxy|]. intros px.
  case_decide; [by apply local_update_proxy | by apply hoare_ret].
Qed.
End Local.

(** X14. A promise request, a subscription and an unsubscription on a
    handle, and a [trigger] of a component, change nothing outside the
    maps of the object behind the handle, the promises and the log of
    calls, whether they return or throw: every slot of every registry,
    every other component and every other placeholder is as it was, and no
    component becomes sealed or open. *)
Theorem calls_on_a_handle_are_local (s : Store) (o : Op) (h : Handle) :
  acts_on o = Some h → local_to h s (exec o s).2.
Proof.
  intros Hacts.
  assert (∀ {A} (m : M A), preserves (local_to h s) m → local_to h s (m s).2) as Hrun.
  { intros A m Hm. apply Hm, local_to_refl. }
  destruct o; simpl in Hacts; try done; simplify_eq; simpl.
  - rewrite void_store. apply Hrun, local_async.
  - apply Hrun, local_sub.
  - apply Hrun, local_unsub.
  - by apply Hrun, local_trigger.
Qed.

Lemma calls_on_a_handle_are_local_witness :
  let s := run [ONew None; ONew (Some [JRegistry (Scoped 0); JString "child"]);
                OSub (HObject 0) "m" 7] empty_store in
  comps (exec (OTrigger 1 "m" []) s).2 !! 0 = comps s !! 0
  ∧ slot (Scoped 0) "child" (exec (OTrigger 1 "m" []) s).2 = Some (HObject 1).
Proof.
  cbv zeta.
  destruct (calls_on_a_handle_are_local
              (run [ONew None; ONew (Some [JRegistry (Scoped 0); JString "child"]);
                    OSub (HObject 0) "m" 7] empty_store)
              (OTrigger 1 "m" []) (HObject 1) eq_refl)
    as (Hreg & Hcomps & _).
  split; [by apply Hcomps|]. unfold slot. by rewrite Hreg.
Defined.

(** ** Writing a registry, then reading it *)

(** What a call on one handle keeps, it keeps from any store on. *)
Lemma registries_from_local {A} (m : M A) (h : Handle) (s0 : Store) :
  (∀ s, preserves (local_to h s) m) →
  preserves (λ s', ∀ r, target_of r s' = target_of r s0) m.
Proof.
  intros Hm s Hs. split; [|done]. intros r.
  destruct (Hm s s (local_to_refl s h)) as [(Hreg & _) _]. by rewrite Hreg.
Qed.

Lemma registries_update_comp s0 c f :
  (∀ cm, ps (f cm) = ps cm) →
  preserves (λ s', ∀ r, target_of r s' = target_of r s0) (update_comp c f).
Proof.
  intros Hf. apply preserves_update_comp. intros s cm Hs Hc [d|g]; simpl.
  - destruct (decide (d = c)) as [->|Hd].
    + rewrite lookup_insert_eq. simpl. rewrite Hf.
      pose proof (Hs (Scoped c)) as Hown. simpl in Hown. by rewrite Hc in Hown.
    + rewrite lookup_insert_ne by done. apply (Hs (Scoped d)).
  - apply (Hs (Global g)).
Qed.

Lemma registries_update_proxy s0 i f :
  preserves (λ s', ∀ r, target_of r s' = target_of r s0) (update_proxy i f).
Proof.
  apply preserves_update_proxy. intros s px Hs Hi r. by rewrite target_of_proxies.
Qed.

Lemma registries_forward_promises s0 h m :
  preserves (λ s', ∀ r, target_of r s' = target_of r s0) (forward_promises h m).
Proof.
  unfold forward_promises, forward_promise.
  apply preserves_forEach. intros e _. apply preserves_forEach. intros res _.
  apply preserves_bind; [|intros; by apply hoare_ret].
  apply (registries_from_local _ h). intros s. apply local_async.
Qed.

Lemma registries_forward_subscriptions s0 h m :
  preserves (λ s', ∀ r, target_of r s' = target_of r s0) (forward_subscriptions h m).
Proof.
  unfold forward_subscriptions.
  apply preserves_forEach. intros e _. apply preserves_forEach. intros cb _.
  apply (registries_from_local _ h). intros s. apply local_sub.
Qed.

(** Neither [finalize] nor [finalizeTriggers] writes a slot of a
    registry. *)
Lemma registries_finalize s0 i h :
  preserves (λ s', ∀ r, target_of r s' = target_of r s0) (PubSubProxy_finalize i h).
Proof.
  unfold PubSubProxy_finalize.
  apply preserves_bind; [by apply hoare_get_proxy|]. intros px.
  case_decide; [apply hoare_diverge|].
  apply preserves_bind; [apply registries_forward_promises|]. intros _.
  apply preserves_bind; [apply registries_forward_subscriptions|]. intros _.
  apply registries_update_proxy.
Qed.

Lemma registries_finalizeTriggers s0 c h :
  preserves (λ s', ∀ r, target_of r s' = target_of r s0) (PSComponent_finalizeTriggers c h).
Proof.
  unfold PSComponent_finalizeTriggers.
  apply preserves_bind; [by apply hoare_get_comp|]. intros cm.
  destruct (finalized cm); [apply hoare_throw|].
  apply preserves_bind; [by apply registries_update_comp|]. intros _.
  apply preserves_bind; [apply registries_forward_promises|]. intros _.
  apply preserves_bind; [apply registries_forward_subscriptions|]. intros _.
  by apply registries_update_comp.
Qed.

(** A write under a name other than [__proto__] that returned was made
    into an existing registry with no slot named [hasOwnProperty]; it put
    the written handle into the slot and left every other slot of every
    registry as it was. *)
Lemma registry_set_target r name value s :
  name ≠ "__proto__" → (registry_set r name value s).1 = Ok tt →
  ∃ t, target_of r s = Some t ∧ t !! "hasOwnProperty" = None
       ∧ target_of r (registry_set r name value s).2 = Some (<[name := value]> t)
       ∧ (∀ r', r' ≠ r → target_of r' (registry_set r name value s).2 = target_of r' s).
Proof.
  intros Hname Hok. destruct r as [c|g]; simpl in *.
  - destruct (comps s !! c) as [cm|] eqn:Hc;
      [|by unfold ps_set, get_comp, bind in Hok; rewrite Hc in Hok].
    destruct (ps cm !! "hasOwnProperty") as [shadow|] eqn:Hintact.
    { unfold ps_set, own in Hok. rewrite (bind_ok _ _ _ _ _ (get_comp_ok _ _ _ Hc)) in Hok.
      rewrite decide_True in Hok by (by rewrite Hintact). done. }
    exists (ps cm). split_and!; try done;
      rewrite (ps_set_ordinary _ _ _ _ _ Hc Hintact Hname) in Hok |- *.
    all: set (m := match ps cm !! name with
                   | Some (HProxy i) => PubSubProxy_finalize i value
                   | Some _ => PSComponent_finalizeTriggers c value
                   | None => ret tt
                   end) in *.
    all: assert (preserves (λ s', ∀ r, target_of r s' = target_of r s) m) as Hm
      by (subst m; destruct (ps cm !! name) as [[?|?|?]|];
          [apply registries_finalize | apply registries_finalizeTriggers..
          | by apply hoare_ret]).
    all: destruct (Hm s) as [Hreg _]; [done|].
    all: apply bind_ok_inv in Hok as Hinv; destruct Hinv as ([] & s2 & Heq & Hrest);
      rewrite Hrest; rewrite Heq in Hreg; cbn [snd] in Hreg.
    all: pose proof (Hreg (Scoped c)) as Hown; simpl in Hown; rewrite Hc in Hown;
      destruct (comps s2 !! c) as [cm2|] eqn:Hc2; [|done]; simpl in Hown; simplify_eq.
    all: rewrite (update_comp_ok _ _ _ _ Hc2); simpl.
    + rewrite lookup_insert_eq. simpl. by rewrite Hown.
    + intros [d|g'] Hne; [|apply (Hreg (Global g'))].
      simpl. rewrite lookup_insert_ne by congruence. apply (Hreg (Scoped d)).
  - destruct (globals s !! g) as [t|] eqn:Hg;
      [|by unfold GlobalPubSub_set, get_global, bind in Hok; rewrite Hg in Hok].
    destruct (t !! "hasOwnProperty") as [shadow|] eqn:Hintact.
    { unfold GlobalPubSub_set, own in Hok.
      rewrite (bind_ok _ _ _ _ _ (get_global_ok _ _ _ Hg)) in Hok.
      rewrite decide_True in Hok by (by rewrite Hintact). done. }
    exists t. split_and!; try done;
      rewrite (global_set_ordinary _ _ _ _ _ Hg Hintact Hname) in Hok |- *.
    all: set (m := match t !! name with
                   | Some (HProxy i) => PubSubProxy_finalize i value
                   | Some (HObject _) => throw NotAFunction
                   | Some (HComponent c) => PSComponent_finalizeTriggers c value
                   | None => ret tt
                   end) in *.
    all: assert (preserves (λ s', ∀ r, target_of r s' = target_of r s) m) as Hm
      by (subst m; destruct (t !! name) as [[?|?|?]|];
          [apply registries_finalize | apply hoare_throw | apply registries_finalizeTriggers
          | by apply hoare_ret]).
    all: destruct (Hm s) as [Hreg _]; [done|].
    all: apply bind_ok_inv in Hok as Hinv; destruct Hinv as ([] & s2 & Heq & Hrest);
      rewrite Hrest; rewrite Heq in Hreg; cbn [snd] in Hreg.
    all: pose proof (Hreg (Global g)) as Hown; simpl in Hown; rewrite Hg in Hown.
    all: unfold update_global; rewrite Hown; simpl.
    + by rewrite lookup_insert_eq.
    + intros [d|g'] Hne; [apply (Hreg (Scoped d))|].
      simpl. rewrite lookup_insert_ne by congruence. apply (Hreg (Global g')).
Qed.

(** A write into a free slot of an existing registry is the assignment and
    nothing else. *)
Lemma registry_set_free s r name value t :
  target_of r s = Some t → t !! "hasOwnProperty" = None → name ≠ "__proto__" →
  t !! name = None →
  let s1 := (registry_set r name value s).2 in
  registry_set r name value s = (Ok tt, s1)
  ∧ proxies s1 = proxies s ∧ heap s1 = heap s ∧ log s1 = log s.
Proof.
  intros Ht Hintact Hname Hfree. cbv zeta. destruct r as [c|g]; simpl in *.
  - destruct (comps s !! c) as [cm|] eqn:Hc; [|done]. simpl in Ht. simplify_eq.
    rewrite (ps_set_ordinary _ _ _ _ _ Hc Hintact Hname). rewrite Hfree.
    rewrite (bind_ok (ret tt) _ s tt s eq_refl).
    by rewrite (update_comp_ok _ _ _ _ Hc).
  - rewrite (global_set_ordinary _ _ _ _ _ Ht Hintact Hname).
    rewrite Hfree. rewrite (bind_ok (ret tt) _ s tt s eq_refl).
    unfold update_global. by rewrite Ht.
Qed.

(** X11. A registry is written under a name other than [__proto__] and
    [hasOwnProperty].  If the write returned normally, the slot holds the
    written handle, every other slot of every registry is as before, and a
    read of the name returns that handle and leaves the store as it is.
    Where the name was free in an existing registry that has no slot named
    [hasOwnProperty], the write returns normally and is the assignment
    alone: the placeholders, the promises and the log of calls are as
    before. *)
Theorem registry_write_read (s : Store) (r : RegRef) (name : string) (value : Handle) :
  ordinary name →
  let s1 := (registry_set r name value s).2 in
  ((registry_set r name value s).1 = Ok tt →
   slot r name s1 = Some value
   ∧ (∀ r' name', (r', name') ≠ (r, name) → slot r' name' s1 = slot r' name' s)
   ∧ registry_get r name s1 = (Ok value, s1))
  ∧ (is_Some (target_of r s) → intact r s → slot r name s = None →
     (registry_set r name value s).1 = Ok tt
     ∧ proxies s1 = proxies s ∧ heap s1 = heap s ∧ log s1 = log s).
Proof.
  intros [Hname Hname']. cbv zeta. split.
  - intros Hok.
    destruct (registry_set_target r name value s Hname Hok)
      as (t & Ht & Hintact & Ht1 & Hother).
    split_and!.
    + unfold slot. rewrite Ht1. simpl. apply lookup_insert_eq.
    + intros r' name' Hne. unfold slot. destruct (decide (r' = r)) as [->|Hr].
      * rewrite Ht1, Ht. simpl. apply lookup_insert_ne. congruence.
      * by rewrite Hother.
    + destruct (registry_get_spec _ r name _ Ht1) as (Hget & _ & _ & Hsame & _);
        [by rewrite lookup_insert_ne | done |].
      rewrite lookup_insert_eq in Hget, Hsame. simpl in Hget. rewrite Hget. f_equal.
      apply Hsame. by eexists.
  - intros [t Ht] Hintact Hfree. unfold slot in Hfree. rewrite Ht in Hfree. simpl in Hfree.
    destruct (registry_set_free s r name value t Ht (intact_target r s t Ht Hintact)
                Hname Hfree) as (Hrun & Hpx & Hheap & Hlog).
    split_and!; try done. by rewrite Hrun.
Qed.

Lemma registry_write_read_witness :
  let s := run [ONewGlobal; ONew None] empty_store in
  let s1 := (registry_set (Global 0) "x" (HComponent 0) s).2 in
  registry_get (Global 0) "x" s1 = (Ok (HComponent 0), s1).
Proof.
  cbv zeta.
  destruct (registry_write_read (run [ONewGlobal; ONew None] empty_store)
              (Global 0) "x" (HComponent 0)) as [Hread Hfree].
  - split; discriminate.
  - destruct Hfree as (Hok & _);
      [vm_compute; by eexists | vm_compute; reflexivity | vm_compute; reflexivity|].
    by destruct (Hread Hok) as (_ & _ & Hget).
Defined.
